(** * AgentNexus: escrow settlement, receipts and audit queries

    A shallow embedding of
    - [smart-contracts/src/AgentNexusEscrow.sol] (module [Escrow]),
    - [backend/src/services/ReceiptService.ts] (module [Receipts]),
    - the audit logger service (module [Audit]),
    together with the properties the settlement specification states about
    them. *)

From Stdlib Require Import ZArith NArith Lia List String Ascii Bool.
From Stdlib Require Import DecimalString.
From stdpp Require Import gmap strings list sorting.

Local Open Scope string_scope.
Local Open Scope N_scope.

(** ** The EVM execution monad

    A Solidity external function runs on the world state (contract storage,
    token ledgers, event log).  It either completes, or reverts with a reason.
    A revert keeps the state reached when the [require] failed, so that one
    can state which writes had already happened; [transact] then gives the
    transaction semantics, which throws that state away. *)

Module EVM.

Inductive Outcome (W A : Type) : Type :=
| Done (a : A) (w : W)
| Revert (reason : string) (inflight : W).
Arguments Done {W A} a w.
Arguments Revert {W A} reason inflight.

Definition M (W A : Type) : Type := W -> Outcome W A.

Definition ret {W A} (a : A) : M W A := fun w => Done a w.

Definition bind {W A B} (m : M W A) (k : A -> M W B) : M W B :=
  fun w => match m w with
           | Done a w' => k a w'
           | Revert r w' => Revert r w'
           end.

Definition gets {W A} (f : W -> A) : M W A := fun w => Done (f w) w.
Definition modify {W} (f : W -> W) : M W unit := fun w => Done tt (f w).
Definition revert {W A} (reason : string) : M W A := fun w => Revert reason w.

(** [require(cond, reason)] *)
Definition require {W} (cond : W -> bool) (reason : string) : M W unit :=
  fun w => if cond w then Done tt w else Revert reason w.

(** The state a transaction leaves behind: a revert rolls every write back. *)
Definition transact {W A} (m : M W A) (w : W) : W :=
  match m w with
  | Done _ w' => w'
  | Revert _ _ => w
  end.

(** The revert reason of a call, if it reverted. *)
Definition failure {W A} (o : Outcome W A) : option string :=
  match o with
  | Done _ _ => None
  | Revert r _ => Some r
  end.

End EVM.

Import EVM.

Notation "'let*' x ':=' c1 'in' c2" := (bind c1 (fun x => c2))
  (at level 10, x name, c1 at level 100, c2 at level 200).
Notation "c1 '>>' c2" := (bind c1 (fun _ => c2))
  (at level 100, c2 at level 200, right associativity).

(** uint256 arithmetic of Solidity 0.8: checked, a wrap is [Panic(0x11)]. *)
Definition UINT256_MAX : N := 2 ^ 256 - 1.
Definition panic_overflow : string := "Panic(0x11)".

Definition checked_add {W} (a b : N) : M W N :=
  if a + b <=? UINT256_MAX then ret (a + b) else revert panic_overflow.
Definition checked_mul {W} (a b : N) : M W N :=
  if a * b <=? UINT256_MAX then ret (a * b) else revert panic_overflow.
Definition checked_sub {W} (a b : N) : M W N :=
  if b <=? a then ret (a - b) else revert panic_overflow.

(** ** AgentNexusEscrow.sol *)

Module Escrow.

(** [enum PaymentStatus] *)
Inductive PaymentStatus : Type :=
| Pending | Escrowed | Released | Refunded | Disputed.

Definition status_eqb (a b : PaymentStatus) : bool :=
  match a, b with
  | Pending, Pending | Escrowed, Escrowed | Released, Released
  | Refunded, Refunded | Disputed, Disputed => true
  | _, _ => false
  end.

(** [struct Payment]; addresses, [bytes32] and [uint256] are naturals. *)
Record Payment : Type := mkPayment {
  user : N;
  developer : N;
  agentId : N;
  amount : N;
  token : N;
  status : PaymentStatus;
  createdAt : N;
  expiresAt : N
}.

(** What a Solidity mapping returns for a key never written. *)
Definition zeroPayment : Payment := mkPayment 0 0 0 0 0 Pending 0 0.

Definition with_status (st : PaymentStatus) (p : Payment) : Payment :=
  mkPayment (user p) (developer p) (agentId p) (amount p) (token p) st
            (createdAt p) (expiresAt p).

(** Roles of OpenZeppelin's AccessControl that the contract declares or uses. *)
Inductive Role : Type :=
| DEFAULT_ADMIN_ROLE | ORCHESTRATOR_ROLE | AGENT_DEVELOPER_ROLE.

Inductive Event : Type :=
| PaymentDeposited (paymentId user developer agentId amount token : N)
| PaymentReleased (paymentId developer amount platformFee : N)
| PaymentRefunded (paymentId user amount : N)
| AgentRegistered (agentId developer : N)
| PlatformFeeUpdated (newFeePercentage : N)
| TokenSupportUpdated (token : N) (supported : bool)
| RoleGranted (role : Role) (account sender : N)
| RoleRevoked (role : Role) (account sender : N).

(** The contract's state variables. *)
Record Storage : Type := mkStorage {
  payments : gmap N Payment;
  agentDevelopers : gmap N N;
  supportedTokens : gmap N bool;
  platformFeeRecipient : N;
  platformFeePercentage : N;
  admins : gset N;
  orchestrators : gset N;
  agentDevelopersRole : gset N
}.

Definition MAX_PLATFORM_FEE : N := 1000.
Definition PAYMENT_EXPIRY : N := 7 * 24 * 60 * 60.

(** The world a call runs in: the contract's storage, the ERC20 ledgers
    (token, holder) and (token, owner, spender), and the events emitted. *)
Record World : Type := mkWorld {
  store : Storage;
  balances : gmap (N * N) N;
  allowances : gmap (N * N * N) N;
  events : list Event
}.

(** [msg.sender], [block.timestamp] and [address(this)] of a call. *)
Record Msg : Type := mkMsg {
  sender : N;
  timestamp : N;
  this : N
}.

(** *** Reading and writing the state *)

Definition payment_at (w : World) (id : N) : Payment :=
  default zeroPayment (payments (store w) !! id).
Definition agentDeveloper_at (w : World) (agent : N) : N :=
  default 0 (agentDevelopers (store w) !! agent).
Definition supportedToken_at (w : World) (tok : N) : bool :=
  default false (supportedTokens (store w) !! tok).
Definition balanceOf (w : World) (tok who : N) : N :=
  default 0 (balances w !! (tok, who)).
Definition allowance (w : World) (tok owner spender : N) : N :=
  default 0 (allowances w !! (tok, owner, spender)).

Definition role_members (s : Storage) (r : Role) : gset N :=
  match r with
  | DEFAULT_ADMIN_ROLE => admins s
  | ORCHESTRATOR_ROLE => orchestrators s
  | AGENT_DEVELOPER_ROLE => agentDevelopersRole s
  end.
Definition hasRole (w : World) (r : Role) (account : N) : bool :=
  bool_decide (account ∈ role_members (store w) r).

Definition set_store (f : Storage -> Storage) (w : World) : World :=
  mkWorld (f (store w)) (balances w) (allowances w) (events w).

Definition set_payment (id : N) (p : Payment) : World -> World :=
  set_store (fun s =>
    mkStorage (<[id := p]> (payments s)) (agentDevelopers s) (supportedTokens s)
              (platformFeeRecipient s) (platformFeePercentage s)
              (admins s) (orchestrators s) (agentDevelopersRole s)).
Definition set_agentDeveloper (agent dev : N) : World -> World :=
  set_store (fun s =>
    mkStorage (payments s) (<[agent := dev]> (agentDevelopers s)) (supportedTokens s)
              (platformFeeRecipient s) (platformFeePercentage s)
              (admins s) (orchestrators s) (agentDevelopersRole s)).
Definition set_supportedToken (tok : N) (b : bool) : World -> World :=
  set_store (fun s =>
    mkStorage (payments s) (agentDevelopers s) (<[tok := b]> (supportedTokens s))
              (platformFeeRecipient s) (platformFeePercentage s)
              (admins s) (orchestrators s) (agentDevelopersRole s)).
Definition set_platformFeePercentage (fee : N) : World -> World :=
  set_store (fun s =>
    mkStorage (payments s) (agentDevelopers s) (supportedTokens s)
              (platformFeeRecipient s) fee
              (admins s) (orchestrators s) (agentDevelopersRole s)).
Definition set_role_members (r : Role) (f : gset N -> gset N) : World -> World :=
  set_store (fun s =>
    mkStorage (payments s) (agentDevelopers s) (supportedTokens s)
              (platformFeeRecipient s) (platformFeePercentage s)
              (match r with DEFAULT_ADMIN_ROLE => f (admins s) | _ => admins s end)
              (match r with ORCHESTRATOR_ROLE => f (orchestrators s) | _ => orchestrators s end)
              (match r with AGENT_DEVELOPER_ROLE => f (agentDevelopersRole s)
                          | _ => agentDevelopersRole s end)).

Definition set_balance (tok who v : N) (w : World) : World :=
  mkWorld (store w) (<[(tok, who) := v]> (balances w)) (allowances w) (events w).
Definition set_allowance (tok owner spender v : N) (w : World) : World :=
  mkWorld (store w) (balances w) (<[(tok, owner, spender) := v]> (allowances w))
          (events w).
Definition emit (e : Event) : M World unit :=
  modify (fun w => mkWorld (store w) (balances w) (allowances w) (events w ++ [e])).

(** *** The token: OpenZeppelin's ERC20, as [MockERC20] of the test suite

    [SafeERC20] passes the token's revert on, so a failed transfer reverts
    the escrow call with the token's error. *)

Definition erc20_transfer (tok from to value : N) : M World unit :=
  require (fun _ => negb (from =? 0)) "ERC20InvalidSender" >>
  require (fun _ => negb (to =? 0)) "ERC20InvalidReceiver" >>
  require (fun w => value <=? balanceOf w tok from) "ERC20InsufficientBalance" >>
  modify (fun w => set_balance tok from (balanceOf w tok from - value) w) >>
  modify (fun w => set_balance tok to (balanceOf w tok to + value) w).

Definition erc20_spendAllowance (tok owner spender value : N) : M World unit :=
  let* current := gets (fun w => allowance w tok owner spender) in
  if current <? UINT256_MAX then
    require (fun _ => value <=? current) "ERC20InsufficientAllowance" >>
    require (fun _ => negb (owner =? 0)) "ERC20InvalidApprover" >>
    require (fun _ => negb (spender =? 0)) "ERC20InvalidSpender" >>
    modify (set_allowance tok owner spender (current - value))
  else ret tt.

(** [IERC20(token).safeTransferFrom(from, to, value)] called by [spender]. *)
Definition safeTransferFrom (tok spender from to value : N) : M World unit :=
  erc20_spendAllowance tok from spender value >>
  erc20_transfer tok from to value.

(** [IERC20(token).safeTransfer(to, value)] called by [self]. *)
Definition safeTransfer (tok self to value : N) : M World unit :=
  erc20_transfer tok self to value.

(** [onlyRole(role)] *)
Definition onlyRole (r : Role) (msg : Msg) : M World unit :=
  require (fun w => hasRole w r (sender msg)) "AccessControlUnauthorizedAccount".

(** *** The contract's functions *)

(** [constructor(_platformFeeRecipient, _platformFeePercentage)]: the deployer
    gets the admin and the orchestrator role. *)
Definition constructor (msg : Msg) (recipient fee : N) : M World unit :=
  require (fun _ => negb (recipient =? 0)) "Invalid fee recipient" >>
  require (fun _ => fee <=? MAX_PLATFORM_FEE) "Fee too high" >>
  modify (set_store (fun s =>
    mkStorage (payments s) (agentDevelopers s) (supportedTokens s)
              recipient fee
              (admins s) (orchestrators s) (agentDevelopersRole s))) >>
  modify (set_role_members DEFAULT_ADMIN_ROLE (fun g => {[sender msg]} ∪ g)) >>
  emit (RoleGranted DEFAULT_ADMIN_ROLE (sender msg) (sender msg)) >>
  modify (set_role_members ORCHESTRATOR_ROLE (fun g => {[sender msg]} ∪ g)) >>
  emit (RoleGranted ORCHESTRATOR_ROLE (sender msg) (sender msg)).

Definition depositPayment (msg : Msg) (paymentId agentId amount token : N)
  : M World unit :=
  require (fun w => supportedToken_at w token) "Token not supported" >>
  require (fun w => user (payment_at w paymentId) =? 0) "Payment already exists" >>
  require (fun w => negb (agentDeveloper_at w agentId =? 0)) "Agent not registered" >>
  require (fun _ => 0 <? amount) "Amount must be positive" >>
  let* developer := gets (fun w => agentDeveloper_at w agentId) in
  (* Transfer tokens to escrow *)
  safeTransferFrom token (this msg) (sender msg) (this msg) amount >>
  (* Create payment record *)
  let* expires := checked_add (timestamp msg) PAYMENT_EXPIRY in
  modify (set_payment paymentId
            (mkPayment (sender msg) developer agentId amount token Escrowed
                       (timestamp msg) expires)) >>
  emit (PaymentDeposited paymentId (sender msg) developer agentId amount token).

Definition releasePayment (msg : Msg) (paymentId : N) : M World unit :=
  onlyRole ORCHESTRATOR_ROLE msg >>
  require (fun w => status_eqb (status (payment_at w paymentId)) Escrowed)
          "Payment not in escrow" >>
  require (fun w => timestamp msg <=? expiresAt (payment_at w paymentId))
          "Payment expired" >>
  modify (fun w => set_payment paymentId
                     (with_status Released (payment_at w paymentId)) w) >>
  let* payment := gets (fun w => payment_at w paymentId) in
  let* feePercentage := gets (fun w => platformFeePercentage (store w)) in
  (* Calculate platform fee *)
  let* scaled := checked_mul (amount payment) feePercentage in
  let platformFee := scaled / 10000 in
  let* developerAmount := checked_sub (amount payment) platformFee in
  (* Transfer to developer and platform *)
  safeTransfer (token payment) (this msg) (developer payment) developerAmount >>
  let* recipient := gets (fun w => platformFeeRecipient (store w)) in
  (if 0 <? platformFee
   then safeTransfer (token payment) (this msg) recipient platformFee
   else ret tt) >>
  emit (PaymentReleased paymentId (developer payment) developerAmount platformFee).

Definition refundPayment (msg : Msg) (paymentId : N) : M World unit :=
  onlyRole ORCHESTRATOR_ROLE msg >>
  require (fun w => status_eqb (status (payment_at w paymentId)) Escrowed)
          "Payment not in escrow" >>
  modify (fun w => set_payment paymentId
                     (with_status Refunded (payment_at w paymentId)) w) >>
  let* payment := gets (fun w => payment_at w paymentId) in
  (* Refund to user *)
  safeTransfer (token payment) (this msg) (user payment) (amount payment) >>
  emit (PaymentRefunded paymentId (user payment) (amount payment)).

Definition registerAgent (msg : Msg) (agentId developer : N) : M World unit :=
  onlyRole DEFAULT_ADMIN_ROLE msg >>
  require (fun _ => negb (developer =? 0)) "Invalid developer address" >>
  modify (set_agentDeveloper agentId developer) >>
  emit (AgentRegistered agentId developer).

Definition setSupportedToken (msg : Msg) (token : N) (supported : bool)
  : M World unit :=
  onlyRole DEFAULT_ADMIN_ROLE msg >>
  modify (set_supportedToken token supported) >>
  emit (TokenSupportUpdated token supported).

Definition setPlatformFee (msg : Msg) (fee : N) : M World unit :=
  onlyRole DEFAULT_ADMIN_ROLE msg >>
  require (fun _ => fee <=? MAX_PLATFORM_FEE) "Fee too high" >>
  modify (set_platformFeePercentage fee) >>
  emit (PlatformFeeUpdated fee).

(** [getPayment(paymentId)], a view. *)
Definition getPayment (paymentId : N) : M World Payment :=
  gets (fun w => payment_at w paymentId).

(** Inherited from AccessControl: every role's admin is DEFAULT_ADMIN_ROLE. *)
Definition grantRole (msg : Msg) (r : Role) (account : N) : M World unit :=
  onlyRole DEFAULT_ADMIN_ROLE msg >>
  let* has := gets (fun w => hasRole w r account) in
  if has then ret tt
  else modify (set_role_members r (fun g => {[account]} ∪ g)) >>
       emit (RoleGranted r account (sender msg)).

Definition revokeRole (msg : Msg) (r : Role) (account : N) : M World unit :=
  onlyRole DEFAULT_ADMIN_ROLE msg >>
  let* has := gets (fun w => hasRole w r account) in
  if has then modify (set_role_members r (fun g => g ∖ {[account]})) >>
              emit (RoleRevoked r account (sender msg))
  else ret tt.

(** The world before deployment. *)
Definition empty_world : World :=
  mkWorld (mkStorage ∅ ∅ ∅ 0 0 ∅ ∅ ∅) ∅ ∅ [].

(** The specification's names for the contract's revert reasons
    ([require] strings); reasons it has no name for map to [None]. *)
Inductive ErrorKind : Type :=
| DuplicateHold | UnknownAgent | InvalidAmount
| NotEscrowed | HoldExpired | AlreadyTerminal.

Definition error_kind (reason : string) : option ErrorKind :=
  if String.eqb reason "Payment already exists" then Some DuplicateHold
  else if String.eqb reason "Agent not registered" then Some UnknownAgent
  else if String.eqb reason "Amount must be positive" then Some InvalidAmount
  else if String.eqb reason "Payment not in escrow" then Some NotEscrowed
  else if String.eqb reason "Payment expired" then Some HoldExpired
  else None.

(** The call reverted with the reason the specification calls [k], and had
    written nothing when it did. *)
Definition rejected {A} (o : Outcome World A) (k : ErrorKind) (w : World) : Prop :=
  exists reason, o = Revert reason w /\ error_kind reason = Some k.

(** *** A scenario: the test suite's [setUp]

    Fee recipient 1, user 2, developer 3, orchestrator 4, deployer 9, the
    escrow at address 100 and the token at 200; agent 1 is registered, the fee
    is 250 basis points, and the user holds and has approved 1000 tokens. *)
Definition deployer : Msg := mkMsg 9 1000 100.
Definition as_user : Msg := mkMsg 2 1000 100.
Definition as_orchestrator : Msg := mkMsg 4 2000 100.

Definition setUp : World :=
  let w := transact (constructor deployer 1 250) empty_world in
  let w := transact (grantRole deployer ORCHESTRATOR_ROLE 4) w in
  let w := transact (registerAgent deployer 1 3) w in
  let w := transact (setSupportedToken deployer 200 true) w in
  let w := set_balance 200 2 1000000 w in
  set_allowance 200 2 100 1000000 w.

(** *** What a settled call leaves behind

    [moved] is the ledger after [value] went from [from] to [to];
    [release_result] and [refund_result] are the worlds a successful
    [releasePayment] and [refundPayment] end in. *)

Definition moved (tok from to value : N) (w : World) : World :=
  let w1 := set_balance tok from (balanceOf w tok from - value) w in
  set_balance tok to (balanceOf w1 tok to + value) w1.

Definition add_event (e : Event) (w : World) : World :=
  mkWorld (store w) (balances w) (allowances w) (events w ++ [e]).

Definition release_fee (w : World) (id : N) : N :=
  amount (payment_at w id) * platformFeePercentage (store w) / 10000.

Definition release_result (msg : Msg) (id : N) (w : World) : World :=
  let p := payment_at w id in
  let fee := release_fee w id in
  let w1 := set_payment id (with_status Released p) w in
  let w2 := moved (token p) (this msg) (developer p) (amount p - fee) w1 in
  let w3 := if 0 <? fee
            then moved (token p) (this msg) (platformFeeRecipient (store w)) fee w2
            else w2 in
  add_event (PaymentReleased id (developer p) (amount p - fee) fee) w3.

Definition refund_result (msg : Msg) (id : N) (w : World) : World :=
  let p := payment_at w id in
  let w1 := set_payment id (with_status Refunded p) w in
  let w2 := moved (token p) (this msg) (user p) (amount p) w1 in
  add_event (PaymentRefunded id (user p) (amount p)) w2.

Definition deposit_result (msg : Msg) (id agent amt tok : N) (w : World) : World :=
  let dev := agentDeveloper_at w agent in
  let a := allowance w tok (sender msg) (this msg) in
  let w1 := if a <? UINT256_MAX
            then set_allowance tok (sender msg) (this msg) (a - amt) w else w in
  let w2 := moved tok (sender msg) (this msg) amt w1 in
  let w3 := set_payment id
              (mkPayment (sender msg) dev agent amt tok Escrowed (timestamp msg)
                         (timestamp msg + PAYMENT_EXPIRY)) w2 in
  add_event (PaymentDeposited id (sender msg) dev agent amt tok) w3.

(** *** The contract as a transition system *)

Inductive Call : Type :=
| CallDeposit (paymentId agentId amount token : N)
| CallRelease (paymentId : N)
| CallRefund (paymentId : N)
| CallRegisterAgent (agentId developer : N)
| CallSetSupportedToken (token : N) (supported : bool)
| CallSetPlatformFee (fee : N)
| CallGrantRole (r : Role) (account : N)
| CallRevokeRole (r : Role) (account : N).

Definition run (c : Call) (msg : Msg) : M World unit :=
  match c with
  | CallDeposit id agent amt tok => depositPayment msg id agent amt tok
  | CallRelease id => releasePayment msg id
  | CallRefund id => refundPayment msg id
  | CallRegisterAgent agent dev => registerAgent msg agent dev
  | CallSetSupportedToken tok b => setSupportedToken msg tok b
  | CallSetPlatformFee fee => setPlatformFee msg fee
  | CallGrantRole r a => grantRole msg r a
  | CallRevokeRole r a => revokeRole msg r a
  end.

(** One step of the chain as the escrow sees it: a transaction on the escrow,
    or activity on the tokens themselves (holders moving or approving their
    tokens), over-approximated as any change of the ledgers. *)
Inductive step : World -> World -> Prop :=
| step_call (msg : Msg) (c : Call) (w : World) :
    step w (transact (run c msg) w)
| step_ledger (w : World) (b : gmap (N * N) N) (a : gmap (N * N * N) N) :
    step w (mkWorld (store w) b a (events w)).

(** The worlds right after deployment, and those the chain can reach. *)
Definition deployed (w : World) : Prop :=
  exists msg recipient fee b a,
    constructor msg recipient fee (mkWorld (store empty_world) b a []) = Done tt w.

Definition reachable (w : World) : Prop :=
  exists w0, deployed w0 /\ rtc step w0 w.

(** Every payment that left [Pending] records who paid it: what makes the
    duplicate check of [depositPayment] (on [user]) a check of existence. *)
Definition payer_recorded (w : World) : Prop :=
  forall id, status (payment_at w id) <> Pending -> user (payment_at w id) <> 0.

(** Released or refunded. *)
Definition settled (p : Payment) : Prop :=
  status p = Released \/ status p = Refunded.

End Escrow.

(** ** The escrow on a chain with real tokens

    [Escrow.step] lets the ledgers change at will.  Here the tokens behave
    as OpenZeppelin's ERC20 for everybody: holders transfer and approve,
    spenders use allowances, [MockERC20.mint] mints.  The escrow contract,
    at address [self], touches a token only inside its own functions: it is
    never the caller of a transfer or an approval of its own. *)

Module EscrowChain.
Import Escrow.

(** The invariants of a stored payment: a payment that was never deposited
    is all zero, [Disputed] is never written, and a deposited one records
    payer, payee, a positive amount and the seven-day expiry. *)
Definition payment_wf (p : Payment) : Prop :=
  match status p with
  | Pending => p = zeroPayment
  | Disputed => False
  | Escrowed | Released | Refunded =>
      user p <> 0 /\ developer p <> 0 /\ 0 < amount p /\
      expiresAt p = createdAt p + PAYMENT_EXPIRY
  end.

(** What a payment locks of token [tok]. *)
Definition locked (tok : N) (p : Payment) : N :=
  if status_eqb (status p) Escrowed && (token p =? tok) then amount p else 0.

(** The sum of the escrowed payments in token [tok]. *)
Definition escrowed (w : World) (tok : N) : N :=
  map_fold (fun _ p acc => locked tok p + acc) 0 (payments (store w)).

(** [approve(spender, value)] called by [owner]. *)
Definition erc20_approve (tok owner spender value : N) : M World unit :=
  require (fun _ => negb (owner =? 0)) "ERC20InvalidApprover" >>
  require (fun _ => negb (spender =? 0)) "ERC20InvalidSpender" >>
  modify (set_allowance tok owner spender value).

(** All of token [tok] there is: the sum of its balances. *)
Definition total_supply (w : World) (tok : N) : N :=
  map_fold (fun k v acc => if fst k =? tok then v + acc else acc) 0 (balances w).

(** [MockERC20.mint(to, amount)]: [_mint] adds to the total supply in
    checked arithmetic. *)
Definition erc20_mint (tok to value : N) : M World unit :=
  require (fun _ => negb (to =? 0)) "ERC20InvalidReceiver" >>
  let* supply := gets (fun w => total_supply w tok) in
  let* _ := checked_add supply value in
  modify (fun w => set_balance tok to (balanceOf w tok to + value) w).

(** One step of the chain: a call on the escrow at [self], or a token
    operation by anybody but the escrow. *)
Inductive chain_step (self : N) : World -> World -> Prop :=
| chain_call (msg : Msg) (c : Call) (w : World) :
    this msg = self ->
    chain_step self w (transact (run c msg) w)
| chain_transfer (tok from to value : N) (w : World) :
    from <> self ->
    chain_step self w (transact (erc20_transfer tok from to value) w)
| chain_transferFrom (tok spender from to value : N) (w : World) :
    spender <> self ->
    chain_step self w (transact (safeTransferFrom tok spender from to value) w)
| chain_approve (tok owner spender value : N) (w : World) :
    owner <> self ->
    chain_step self w (transact (erc20_approve tok owner spender value) w)
| chain_mint (tok to value : N) (w : World) :
    chain_step self w (transact (erc20_mint tok to value) w).

(** Deployment at [self]: empty storage, and no allowance granted by the
    address the contract is about to live at. *)
Definition chain_deployed (self : N) (w : World) : Prop :=
  exists msg recipient fee b a,
    this msg = self /\
    (forall tok spender, a !! (tok, self, spender) = None) /\
    constructor msg recipient fee (mkWorld (store empty_world) b a []) = Done tt w.

Definition chain_reachable (self : N) (w : World) : Prop :=
  exists w0, chain_deployed self w0 /\ rtc (chain_step self) w0 w.

(** How often the log reports the release, and the refund, of payment [id]. *)
Definition released_in_log (id : N) (e : Event) : bool :=
  match e with PaymentReleased id' _ _ _ => id' =? id | _ => false end.
Definition refunded_in_log (id : N) (e : Event) : bool :=
  match e with PaymentRefunded id' _ _ => id' =? id | _ => false end.
Definition count_events (f : Event -> bool) (w : World) : nat :=
  List.length (List.filter f (events w)).

(** The fee is within the cap and has somebody to go to. *)
Definition fee_capped (w : World) : Prop :=
  platformFeePercentage (store w) <= MAX_PLATFORM_FEE /\
  platformFeeRecipient (store w) <> 0.

(** The log and the status of payment [id] agree. *)
Definition log_matches (w : World) (id : N) : Prop :=
  (count_events (released_in_log id) w, count_events (refunded_in_log id) w)
  = match status (payment_at w id) with
    | Released => (1%nat, 0%nat)
    | Refunded => (0%nat, 1%nat)
    | _ => (0%nat, 0%nat)
    end.

(** One transaction, as a case analysis on what it was and did. *)
Inductive effect (msg : Msg) (w : World) : Call -> World -> Prop :=
| eff_none c : effect msg w c w
| eff_deposit id agent amt tok :
    supportedToken_at w tok = true -> user (payment_at w id) = 0 ->
    agentDeveloper_at w agent <> 0 -> 0 < amt -> sender msg <> 0 ->
    depositPayment msg id agent amt tok w
      = Done tt (deposit_result msg id agent amt tok w) ->
    effect msg w (CallDeposit id agent amt tok) (deposit_result msg id agent amt tok w)
| eff_release id :
    releasePayment msg id w = Done tt (release_result msg id w) ->
    effect msg w (CallRelease id) (release_result msg id w)
| eff_refund id :
    refundPayment msg id w = Done tt (refund_result msg id w) ->
    effect msg w (CallRefund id) (refund_result msg id w)
| eff_register agent dev :
    hasRole w DEFAULT_ADMIN_ROLE (sender msg) = true -> dev <> 0 ->
    effect msg w (CallRegisterAgent agent dev)
           (add_event (AgentRegistered agent dev) (set_agentDeveloper agent dev w))
| eff_token tok b :
    hasRole w DEFAULT_ADMIN_ROLE (sender msg) = true ->
    effect msg w (CallSetSupportedToken tok b)
           (add_event (TokenSupportUpdated tok b) (set_supportedToken tok b w))
| eff_fee fee :
    hasRole w DEFAULT_ADMIN_ROLE (sender msg) = true -> fee <= MAX_PLATFORM_FEE ->
    effect msg w (CallSetPlatformFee fee)
           (add_event (PlatformFeeUpdated fee) (set_platformFeePercentage fee w))
| eff_grant r a :
    hasRole w DEFAULT_ADMIN_ROLE (sender msg) = true ->
    effect msg w (CallGrantRole r a)
           (add_event (RoleGranted r a (sender msg))
              (set_role_members r (fun g => {[a]} ∪ g) w))
| eff_revoke r a :
    hasRole w DEFAULT_ADMIN_ROLE (sender msg) = true ->
    effect msg w (CallRevokeRole r a)
           (add_event (RoleRevoked r a (sender msg))
              (set_role_members r (fun g => g ∖ {[a]}) w)).

(** The escrow holds at least what its escrowed payments add up to, token
    by token. *)
Definition solvent (self : N) (w : World) : Prop :=
  forall tok, escrowed w tok <= balanceOf w tok self.

(** Nobody may spend the escrow's tokens on its behalf. *)
Definition never_approves (self : N) (w : World) : Prop :=
  forall tok spender, allowance w tok self spender = 0.

(** What the escrow keeps true among such tokens. *)
Definition chain_inv (self : N) (w : World) : Prop :=
  solvent self w /\ never_approves self w.

(** What only an admin can change. *)
Definition settings (w : World) : gmap N N * gmap N bool * N * N :=
  (agentDevelopers (store w), supportedTokens (store w),
   platformFeeRecipient (store w), platformFeePercentage (store w)).


End EscrowChain.

(** ** SHA-256 (FIPS 180-4), as Node's [crypto.createHash('sha256')] computes it *)

Module Sha256.
Local Open Scope Z_scope.

Definition mask32 : Z := 4294967295.
Definition trunc32 (x : Z) : Z := Z.land x mask32.
Definition add32 (x y : Z) : Z := trunc32 (x + y).
Definition not32 (x : Z) : Z := Z.lxor x mask32.
Definition rotr32 (x n : Z) : Z :=
  Z.lor (Z.shiftr x n) (trunc32 (Z.shiftl x (32 - n))).

Definition choose (x y z : Z) : Z := Z.lxor (Z.land x y) (Z.land (not32 x) z).
Definition majority (x y z : Z) : Z :=
  Z.lxor (Z.lxor (Z.land x y) (Z.land x z)) (Z.land y z).
Definition big_sigma0 (x : Z) : Z :=
  Z.lxor (Z.lxor (rotr32 x 2) (rotr32 x 13)) (rotr32 x 22).
Definition big_sigma1 (x : Z) : Z :=
  Z.lxor (Z.lxor (rotr32 x 6) (rotr32 x 11)) (rotr32 x 25).
Definition small_sigma0 (x : Z) : Z :=
  Z.lxor (Z.lxor (rotr32 x 7) (rotr32 x 18)) (Z.shiftr x 3).
Definition small_sigma1 (x : Z) : Z :=
  Z.lxor (Z.lxor (rotr32 x 17) (rotr32 x 19)) (Z.shiftr x 10).

Definition round_constants : list Z :=
  [1116352408; 1899447441; 3049323471; 3921009573; 961987163; 1508970993;
   2453635748; 2870763221; 3624381080; 310598401; 607225278; 1426881987;
   1925078388; 2162078206; 2614888103; 3248222580; 3835390401; 4022224774;
   264347078; 604807628; 770255983; 1249150122; 1555081692; 1996064986;
   2554220882; 2821834349; 2952996808; 3210313671; 3336571891; 3584528711;
   113926993; 338241895; 666307205; 773529912; 1294757372; 1396182291;
   1695183700; 1986661051; 2177026350; 2456956037; 2730485921; 2820302411;
   3259730800; 3345764771; 3516065817; 3600352804; 4094571909; 275423344;
   430227734; 506948616; 659060556; 883997877; 958139571; 1322822218;
   1537002063; 1747873779; 1955562222; 2024104815; 2227730452; 2361852424;
   2428436474; 2756734187; 3204031479; 3329325298].

Definition initial_hash : list Z :=
  [1779033703; 3144134277; 1013904242; 2773480762;
   1359893119; 2600822924; 528734635; 1541459225].

(** The message followed by 0x80, zeros and its bit length on 8 bytes. *)
Definition big_endian (width : nat) (x : Z) : list Z :=
  map (fun i => Z.land (Z.shiftr x (8 * Z.of_nat i)) 255) (rev (seq 0 width)).

Definition pad (message : list Z) : list Z :=
  let len := Z.of_nat (List.length message) in
  let zeros := Z.to_nat ((55 - len) mod 64) in
  (message ++ [128] ++ List.repeat 0 zeros ++ big_endian 8 (8 * len))%list.

Fixpoint words (fuel : nat) (bytes : list Z) : list Z :=
  match fuel, bytes with
  | S fuel', b0 :: b1 :: b2 :: b3 :: rest =>
      (Z.shiftl b0 24 + Z.shiftl b1 16 + Z.shiftl b2 8 + b3) :: words fuel' rest
  | _, _ => []
  end.

Fixpoint blocks (fuel : nat) (ws : list Z) : list (list Z) :=
  match fuel, ws with
  | S fuel', _ :: _ => firstn 16 ws :: blocks fuel' (skipn 16 ws)
  | _, _ => []
  end.

(** The message schedule, kept newest word first while it grows. *)
Fixpoint extend (n : nat) (newest_first : list Z) : list Z :=
  match n with
  | O => newest_first
  | S n' =>
      let w := fun i => nth i newest_first 0 in
      extend n' (add32 (add32 (small_sigma1 (w 1%nat)) (w 6%nat))
                       (add32 (small_sigma0 (w 14%nat)) (w 15%nat))
                 :: newest_first)
  end.

Definition schedule (block : list Z) : list Z := rev (extend 48 (rev block)).

Definition round (s : list Z) (kw : Z * Z) : list Z :=
  match s with
  | [a; b; c; d; e; f; g; h] =>
      let t1 := add32 (add32 (add32 h (big_sigma1 e)) (choose e f g))
                      (add32 (fst kw) (snd kw)) in
      let t2 := add32 (big_sigma0 a) (majority a b c) in
      [add32 t1 t2; a; b; c; add32 d t1; e; f; g]
  | _ => s
  end.

Definition compress (h : list Z) (block : list Z) : list Z :=
  let s := fold_left round (combine round_constants (schedule block)) h in
  map (fun p => add32 (fst p) (snd p)) (combine h s).

Definition digest_words (message : list Z) : list Z :=
  let bytes := pad message in
  let n := List.length bytes in
  fold_left compress (blocks n (words n bytes)) initial_hash.

Definition hex_digit (d : Z) : ascii :=
  ascii_of_nat (Z.to_nat (if d <? 10 then 48 + d else 87 + d)).

Definition hex_word (w : Z) : string :=
  fold_right (fun i s => String (hex_digit (Z.land (Z.shiftr w (4 * Z.of_nat i)) 15)) s)
             EmptyString (rev (seq 0 8)).

Definition bytes_of_string (s : string) : list Z :=
  map (fun c => Z.of_nat (nat_of_ascii c)) (list_ascii_of_string s).

(** [createHash('sha256').update(s).digest('hex')] *)
Definition sha256_hex (s : string) : string :=
  fold_right String.append EmptyString (map hex_word (digest_words (bytes_of_string s))).

End Sha256.

(** ** JavaScript values the two services rely on *)

Module JS.

(** [s || fallback] on a string that may be missing: the empty string is falsy. *)
Definition truthy_string (o : option string) : option string :=
  match o with
  | Some s => if String.eqb s "" then None else Some s
  | None => None
  end.

(** [n || fallback] on a number that may be missing: 0 is falsy. *)
Definition number_or (fallback : N) (o : option N) : N :=
  match o with
  | Some n => if n =? 0 then fallback else n
  | None => fallback
  end.

(** [x || 0] on a number that may be null. *)
Definition number_or_zero (o : option Z) : Z := default 0%Z o.

(** [String(n)] for an integer. *)
Definition number_to_string (n : Z) : string :=
  DecimalString.NilZero.string_of_int (Z.to_int n).

(** [array.slice(-n)]: the last [n] elements; [slice(-0)] is the whole array. *)
Definition slice_last {A} (n : N) (l : list A) : list A :=
  if n =? 0 then l else skipn (List.length l - N.to_nat n) l.

End JS.

(** ** ReceiptService.ts

    A [Date] is kept as its time value, the milliseconds since the epoch
    ([getTime()]); [toISOString()] renders that instant and is kept as the
    instant.  Optional and nullable fields are [option]s.  [limit] and
    [offset] are non-negative integers. *)

Module Receipts.
Import JS.

(** The rows [prisma.execution] returns, with the relations the service
    includes. *)
Record Agent : Type := mkAgent {
  agent_id : string;
  agent_name : string;
  agent_version : option string
}.

Record Purchase : Type := mkPurchase {
  purchase_paymentId : option string;
  purchase_amount : option string;
  purchase_tokenAddress : option string;
  purchase_platformFee : option string
}.

Record Execution : Type := mkExecution {
  exec_id : string;
  exec_userId : string;
  exec_agentId : string;
  exec_status : string;
  exec_startTime : Z;
  exec_endTime : option Z;
  exec_duration : option Z;
  exec_errorMessage : option string;
  exec_agent : Agent;
  exec_walletAddress : option string;
  exec_purchase : option Purchase;
  exec_containerId : option string;
  exec_memoryPeakMb : option Z;
  exec_cpuTimeMs : option Z
}.

(** [ExecutionReceipt['status']] *)
Inductive ReceiptStatus : Type := SUCCESS | FAILED | TIMEOUT | CANCELLED.

Record ResourceUsage : Type := mkResourceUsage {
  cpuTimeMs : option Z;
  memoryPeakMb : option Z;
  containerId : option string
}.

Record ExecutionReceipt : Type := mkExecutionReceipt {
  receiptId : string;
  executionId : string;
  timestamp : Z;
  completedAt : Z;
  durationMs : Z;
  agentId : string;
  agentName : string;
  agentVersion : string;
  userId : string;
  walletAddress : option string;
  paymentId : option string;
  amount : option string;
  token : option string;
  platformFee : option string;
  status : ReceiptStatus;
  errorMessage : option string;
  resourceUsage : ResourceUsage
}.

Record ReceiptSummary : Type := mkReceiptSummary {
  summary_receiptId : string;
  summary_executionId : string;
  summary_timestamp : Z;
  summary_agentId : string;
  summary_agentName : string;
  summary_amount : option string;
  summary_status : ReceiptStatus;
  summary_durationMs : Z
}.

Record ReceiptQueryOptions : Type := mkReceiptQueryOptions {
  opt_userId : option string;
  opt_agentId : option string;
  opt_status : option ReceiptStatus;
  opt_startDate : option Z;
  opt_endDate : option Z;
  opt_limit : option N;
  opt_offset : option N
}.

(** [generateReceiptId]: deterministic receipt ID from execution. *)
Definition generateReceiptId (id : string) (startTime : Z) : string :=
  let data := id ++ ":" ++ number_to_string startTime in
  let hash := Sha256.sha256_hex data in
  "rcpt_" ++ String.substring 0 16 hash.

Definition mapStatus (status : string) : ReceiptStatus :=
  if String.eqb status "COMPLETED" then SUCCESS
  else if String.eqb status "FAILED" then FAILED
  else if String.eqb status "CANCELLED" then CANCELLED
  else FAILED.

Definition unmapStatus (status : ReceiptStatus) : string :=
  match status with
  | SUCCESS => "COMPLETED"
  | FAILED => "FAILED"
  | TIMEOUT => "FAILED"
  | CANCELLED => "CANCELLED"
  end.

Definition in_progress (status : string) : bool :=
  String.eqb status "PENDING" || String.eqb status "RUNNING".

(** [generateReceipt(executionId)] at clock [now]; [findUnique] returns the
    row with that id, if any. *)
Definition findUnique (db : list Execution) (id : string) : option Execution :=
  List.find (fun e => String.eqb (exec_id e) id) db.

Definition generateReceipt (db : list Execution) (now : Z) (executionId : string)
  : string + ExecutionReceipt :=
  match findUnique db executionId with
  | None => inl ("Execution not found: " ++ executionId)
  | Some execution =>
      if in_progress (exec_status execution)
      then inl ("Execution still in progress: " ++ exec_status execution)
      else inr (mkExecutionReceipt
        (generateReceiptId (exec_id execution) (exec_startTime execution))
        (exec_id execution)
        (exec_startTime execution)
        (default now (exec_endTime execution))
        (number_or_zero (exec_duration execution))
        (agent_id (exec_agent execution))
        (agent_name (exec_agent execution))
        (default "1.0.0" (truthy_string (agent_version (exec_agent execution))))
        (exec_userId execution)
        (truthy_string (exec_walletAddress execution))
        (truthy_string (exec_purchase execution ≫= purchase_paymentId))
        (truthy_string (exec_purchase execution ≫= purchase_amount))
        (truthy_string (exec_purchase execution ≫= purchase_tokenAddress))
        (truthy_string (exec_purchase execution ≫= purchase_platformFee))
        (mapStatus (exec_status execution))
        (truthy_string (exec_errorMessage execution))
        (mkResourceUsage (exec_cpuTimeMs execution) (exec_memoryPeakMb execution)
           (String.substring 0 12 <$> exec_containerId execution)))
  end.

(** The [where] object of [listReceipts]. *)
Inductive StatusFilter : Type :=
| AnyStatus
| StatusEquals (s : string)
| StatusNotIn (l : list string).

Record Where : Type := mkWhere {
  where_userId : option string;
  where_agentId : option string;
  where_status : StatusFilter;
  where_startTime : option (option Z * option Z)
}.

Definition matches (wh : Where) (e : Execution) : bool :=
  match where_userId wh with Some u => String.eqb (exec_userId e) u | None => true end
  && match where_agentId wh with Some a => String.eqb (exec_agentId e) a | None => true end
  && match where_status wh with
     | AnyStatus => true
     | StatusEquals s => String.eqb (exec_status e) s
     | StatusNotIn l => negb (existsb (String.eqb (exec_status e)) l)
     end
  && match where_startTime wh with
     | Some (gte, lte) =>
         match gte with Some d => (d <=? exec_startTime e)%Z | None => true end
         && match lte with Some d => (exec_startTime e <=? d)%Z | None => true end
     | None => true
     end.

(** [orderBy: { startTime: 'desc' }] *)
Definition newest_first (a b : Execution) : Prop :=
  (exec_startTime b <= exec_startTime a)%Z.
#[global] Instance newest_first_dec a b : Decision (newest_first a b) :=
  Z_le_dec _ _.

(** [prisma.execution.findMany({ where, orderBy, take, skip })] *)
Definition findMany (db : list Execution) (wh : Where) (take skip : N)
  : list Execution :=
  firstn (N.to_nat take)
    (skipn (N.to_nat skip) (merge_sort newest_first (List.filter (matches wh) db))).

(** [options.limit || 50] *)
Definition DEFAULT_LIMIT : N := 50.

(** The [where] object [listReceipts] builds from the options, as
    [findMany] gets it: [{ ...where, status: { notIn: [...] } }] replaces
    the status the options asked for. *)
Definition where_of (options : ReceiptQueryOptions) : Where :=
  let wh :=
    mkWhere (truthy_string (opt_userId options))
            (truthy_string (opt_agentId options))
            (match opt_status options with
             | Some st => StatusEquals (unmapStatus st)
             | None => AnyStatus
             end)
            (match opt_startDate options, opt_endDate options with
             | None, None => None
             | gte, lte => Some (gte, lte)
             end) in
  mkWhere (where_userId wh) (where_agentId wh)
          (StatusNotIn ["PENDING"; "RUNNING"]) (where_startTime wh).

Definition summarize (exec : Execution) : ReceiptSummary :=
  mkReceiptSummary
    (generateReceiptId (exec_id exec) (exec_startTime exec))
    (exec_id exec)
    (exec_startTime exec)
    (agent_id (exec_agent exec))
    (agent_name (exec_agent exec))
    None
    (mapStatus (exec_status exec))
    (number_or_zero (exec_duration exec)).

Definition listReceipts (db : list Execution) (options : ReceiptQueryOptions)
  : list ReceiptSummary :=
  let executions :=
    findMany db (where_of options)
             (number_or DEFAULT_LIMIT (opt_limit options))
             (number_or 0 (opt_offset options)) in
  map summarize executions.

(** The id on the receipt [generateReceipt] returns, if it returns one. *)
Definition receipt_id_of (db : list Execution) (now : Z) (executionId : string)
  : option string :=
  match generateReceipt db now executionId with
  | inr r => Some (receiptId r)
  | inl _ => None
  end.

(** A finished execution of the scenarios below. *)
Definition sample (id : string) (start : Z) (finish : option Z) : Execution :=
  mkExecution id "user_1" "agent_1" "COMPLETED" start finish None None
              (mkAgent "agent_1" "Summarizer" None) None None None None None.

Definition no_options : ReceiptQueryOptions :=
  mkReceiptQueryOptions None None None None None None None.

Definition with_limit (n : N) : ReceiptQueryOptions :=
  mkReceiptQueryOptions None None None None None (Some n) None.

End Receipts.

(** ** ReceiptService.ts: the summary of one execution *)

Module ReceiptSummaries.
Import JS Receipts.

(** [getReceiptSummary(executionId)]: the receipt of [generateReceipt], cut
    down to the summary's fields; what [generateReceipt] throws passes
    through. *)
Definition getReceiptSummary (db : list Execution) (now : Z) (id : string)
  : string + ReceiptSummary :=
  match generateReceipt db now id with
  | inl thrown => inl thrown
  | inr receipt =>
      inr (mkReceiptSummary (receiptId receipt) (executionId receipt)
             (timestamp receipt) (agentId receipt) (agentName receipt)
             (amount receipt) (status receipt) (durationMs receipt))
  end.

(** Query options that differ from [options] in one field. *)
Definition asking_status (st : option ReceiptStatus) (options : ReceiptQueryOptions)
  : ReceiptQueryOptions :=
  mkReceiptQueryOptions (opt_userId options) (opt_agentId options) st
    (opt_startDate options) (opt_endDate options)
    (opt_limit options) (opt_offset options).


(** A summary without its amount, as [listReceipts] builds its rows. *)
Definition without_amount (s : ReceiptSummary) : ReceiptSummary :=
  mkReceiptSummary (summary_receiptId s) (summary_executionId s)
    (summary_timestamp s) (summary_agentId s) (summary_agentName s)
    None (summary_status s) (summary_durationMs s).

(** The order of the rows: newest first. *)
Definition not_older (a b : ReceiptSummary) : Prop :=
  (summary_timestamp b <= summary_timestamp a)%Z.

(** The digits of [digest('hex')]. *)
Definition is_hex_digit (c : ascii) : Prop :=
  In c (list_ascii_of_string "0123456789abcdef").

Definition hex_string (s : string) : Prop :=
  Forall is_hex_digit (list_ascii_of_string s).

End ReceiptSummaries.

(** ** AuditLoggerService

    The service object is the record [Service]; a method takes it and gives
    it back.  The clock ([Date.now()], [new Date()]) and [Math.random()] are
    inputs.  Console lines keep the event and the level that
    [formatLogEntry] renders it at, not the JSON text; the opaque [details]
    and [metadata] objects of an event are left out. *)

Module Audit.
Import JS.

Inductive AuditEventType : Type :=
| COMPLIANCE_CHECK | GEOFENCE_BLOCK | GEOFENCE_ALLOW | KYC_REQUIRED
| KYC_VERIFIED | CATEGORY_BLOCKED | CATEGORY_ALLOWED | EXECUTION_START
| EXECUTION_END | EXECUTION_FAILED | AGENT_ACCESS | USER_ACTION
| SECURITY_ALERT.

Inductive Severity : Type := SevInfo | SevWarn | SevError | SevCritical.
Inductive Outcome : Type := Allowed | Blocked | Errored | PendingOutcome.
Inductive LogLevel : Type := Minimal | Standard | Verbose.

#[global] Instance type_eq_dec : EqDecision AuditEventType.
Proof. solve_decision. Defined.
#[global] Instance severity_eq_dec : EqDecision Severity.
Proof. solve_decision. Defined.
#[global] Instance outcome_eq_dec : EqDecision Outcome.
Proof. solve_decision. Defined.

Record AuditEvent : Type := mkAuditEvent {
  id : string;
  timestamp : Z;
  type : AuditEventType;
  severity : Severity;
  userId : option string;
  agentId : option string;
  executionId : option string;
  country : option string;
  category : option string;
  action : string;
  outcome : Outcome
}.

(** [Omit<AuditEvent, 'id' | 'timestamp'>] *)
Record EventInput : Type := mkEventInput {
  in_type : AuditEventType;
  in_severity : Severity;
  in_userId : option string;
  in_agentId : option string;
  in_executionId : option string;
  in_country : option string;
  in_category : option string;
  in_action : string;
  in_outcome : Outcome
}.

Record AuditFilter : Type := mkAuditFilter {
  startDate : option Z;
  endDate : option Z;
  filter_type : option (list AuditEventType);
  filter_userId : option string;
  filter_agentId : option string;
  filter_outcome : option Outcome;
  filter_severity : option Severity;
  limit : option N
}.

(** [complianceConfig.auditLogging] *)
Record AuditConfig : Type := mkAuditConfig {
  enabled : bool;
  retentionDays : Z;
  logLevel : LogLevel
}.

Inductive Stream : Type := ConsoleError | ConsoleWarn | ConsoleLog.

Record Service : Type := mkService {
  events : list AuditEvent;
  eventCounter : N;
  console : list (Stream * LogLevel * AuditEvent)
}.

Definition new_service : Service := mkService [] 0 [].

Definition MAX_EVENTS : N := 10000.
Definition DEFAULT_LIMIT : N := 100.

(** [n.toString(36)] for a non-negative integer. *)
Definition base36_digit (d : N) : ascii :=
  ascii_of_N (if d <? 10 then 48 + d else 87 + d).

Fixpoint base36_digits (fuel : nat) (n : N) (acc : string) : string :=
  match fuel with
  | O => acc
  | S fuel' =>
      let acc' := String (base36_digit (n mod 36)) acc in
      if n / 36 =? 0 then acc' else base36_digits fuel' (n / 36) acc'
  end.

Definition to_base36 (n : N) : string :=
  base36_digits (S (N.to_nat (N.log2 n))) n "".

(** [s.padStart(4, '0')] *)
Definition pad4 (s : string) : string :=
  String.string_of_list_ascii (List.repeat "0"%char (4 - String.length s)) ++ s.

(** [generateEventId] at clock [now] (the clock reads of one [log] call see
    the same instant), with [random] the four characters taken from
    [Math.random().toString(36)]. *)
Definition generateEventId (now : N) (random : string) (svc : Service)
  : string * Service :=
  let svc := mkService (events svc) (eventCounter svc + 1) (console svc) in
  ("audit_" ++ to_base36 now ++ "_" ++ pad4 (to_base36 (eventCounter svc))
     ++ "_" ++ random,
   svc).

Definition stream_of (s : Severity) : Stream :=
  match s with
  | SevCritical | SevError => ConsoleError
  | SevWarn => ConsoleWarn
  | SevInfo => ConsoleLog
  end.

(** [log(event)] with the configuration in force. *)
Definition log (config : AuditConfig) (now : N) (random : string)
    (event : EventInput) (svc : Service) : AuditEvent * Service :=
  let '(new_id, svc) := generateEventId now random svc in
  let fullEvent :=
    mkAuditEvent new_id (Z.of_N now) (in_type event) (in_severity event)
      (in_userId event) (in_agentId event) (in_executionId event)
      (in_country event) (in_category event) (in_action event)
      (in_outcome event) in
  (* Always log to console *)
  let svc := mkService (events svc) (eventCounter svc)
               (console svc ++ [(stream_of (severity fullEvent), logLevel config,
                                 fullEvent)]) in
  (* Store in memory if enabled; keep the last 10000 events *)
  let svc :=
    if enabled config then
      let stored := (events svc ++ [fullEvent])%list in
      mkService (if N.of_nat (List.length stored) <=? MAX_EVENTS
                 then stored else slice_last MAX_EVENTS stored)
                (eventCounter svc) (console svc)
    else svc in
  (fullEvent, svc).

(** [query(filter)] *)
Definition query (config : AuditConfig) (filter : AuditFilter) (svc : Service)
  : list AuditEvent * Service :=
  if negb (enabled config) then ([], svc)
  else
    let results := events svc in
    let results :=
      match startDate filter with
      | Some d => List.filter (fun e => (d <=? timestamp e)%Z) results
      | None => results
      end in
    let results :=
      match endDate filter with
      | Some d => List.filter (fun e => (timestamp e <=? d)%Z) results
      | None => results
      end in
    let results :=
      match filter_type filter with
      | Some (t :: ts) =>
          List.filter (fun e => bool_decide (type e ∈ t :: ts)) results
      | _ => results
      end in
    let results :=
      match truthy_string (filter_userId filter) with
      | Some u => List.filter (fun e => bool_decide (userId e = Some u)) results
      | None => results
      end in
    let results :=
      match truthy_string (filter_agentId filter) with
      | Some a => List.filter (fun e => bool_decide (agentId e = Some a)) results
      | None => results
      end in
    let results :=
      match filter_outcome filter with
      | Some o => List.filter (fun e => bool_decide (outcome e = o)) results
      | None => results
      end in
    let results :=
      match filter_severity filter with
      | Some sv => List.filter (fun e => bool_decide (severity e = sv)) results
      | None => results
      end in
    let limit := number_or DEFAULT_LIMIT (limit filter) in
    (slice_last limit results, svc).

End Audit.

(** ** AuditLoggerService: the typed loggers and the retention policy *)

Module AuditLoggers.
Import JS Audit.

(** [params.checkType] and [params.outcome] of [logComplianceCheck]. *)
Inductive CheckType : Type := CheckGeofence | CheckKyc | CheckCategory | CheckAll.
Inductive CheckOutcome : Type := CheckAllowed | CheckBlocked.

Definition check_type_name (c : CheckType) : string :=
  match c with
  | CheckGeofence => "geofence"
  | CheckKyc => "kyc"
  | CheckCategory => "category"
  | CheckAll => "all"
  end.

Record ComplianceCheckParams : Type := mkComplianceCheckParams {
  check_userId : option string;
  check_agentId : option string;
  check_country : option string;
  check_category : option string;
  check_checkType : CheckType;
  check_outcome : CheckOutcome;
  check_reason : option string
}.

Definition logComplianceCheck (config : AuditConfig) (now : N) (random : string)
    (params : ComplianceCheckParams) (svc : Service) : AuditEvent * Service :=
  log config now random
    (mkEventInput COMPLIANCE_CHECK
       (match check_outcome params with CheckBlocked => SevWarn | CheckAllowed => SevInfo end)
       (check_userId params) (check_agentId params) None
       (check_country params) (check_category params)
       ("compliance_" ++ check_type_name (check_checkType params) ++ "_check")
       (match check_outcome params with CheckBlocked => Blocked | CheckAllowed => Allowed end))
    svc.

(** [params.status] of [logExecution]. *)
Inductive ExecutionPhase : Type := PhaseStart | PhaseEnd | PhaseFailed.

Definition phase_name (p : ExecutionPhase) : string :=
  match p with PhaseStart => "start" | PhaseEnd => "end" | PhaseFailed => "failed" end.

(** [typeMap] *)
Definition typeMap (p : ExecutionPhase) : AuditEventType :=
  match p with
  | PhaseStart => EXECUTION_START
  | PhaseEnd => EXECUTION_END
  | PhaseFailed => EXECUTION_FAILED
  end.

Record ExecutionParams : Type := mkExecutionParams {
  exe_executionId : string;
  exe_userId : string;
  exe_agentId : string;
  exe_status : ExecutionPhase;
  exe_duration : option Z;
  exe_error : option string
}.

Definition logExecution (config : AuditConfig) (now : N) (random : string)
    (params : ExecutionParams) (svc : Service) : AuditEvent * Service :=
  log config now random
    (mkEventInput (typeMap (exe_status params))
       (match exe_status params with PhaseFailed => SevError | _ => SevInfo end)
       (Some (exe_userId params)) (Some (exe_agentId params))
       (Some (exe_executionId params)) None None
       ("execution_" ++ phase_name (exe_status params))
       (match exe_status params with PhaseFailed => Errored | _ => Allowed end))
    svc.

(** [params.severity] of [logSecurityAlert]: 'warn' | 'error' | 'critical'. *)
Inductive AlertSeverity : Type := AlertWarn | AlertError | AlertCritical.

Definition alert_severity (s : AlertSeverity) : Severity :=
  match s with
  | AlertWarn => SevWarn
  | AlertError => SevError
  | AlertCritical => SevCritical
  end.

Record SecurityAlertParams : Type := mkSecurityAlertParams {
  alert_userId : option string;
  alert_agentId : option string;
  alert_alertType : string;
  alert_description : string;
  alert_level : AlertSeverity
}.

Definition logSecurityAlert (config : AuditConfig) (now : N) (random : string)
    (params : SecurityAlertParams) (svc : Service) : AuditEvent * Service :=
  log config now random
    (mkEventInput SECURITY_ALERT (alert_severity (alert_level params))
       (alert_userId params) (alert_agentId params) None None None
       ("security_alert_" ++ alert_alertType params)
       Blocked)
    svc.

(** [RetentionPolicy] and [getRetentionPolicy()] *)
Record RetentionPolicy : Type := mkRetentionPolicy {
  policy_enabled : bool;
  policy_retentionDays : Z;
  policy_logLevel : LogLevel;
  estimatedEventCount : nat
}.

Definition getRetentionPolicy (config : AuditConfig) (svc : Service) : RetentionPolicy :=
  mkRetentionPolicy (enabled config) (retentionDays config) (logLevel config)
                    (List.length (events svc)).

(** [clear()] *)
Definition clear (svc : Service) : Service :=
  mkService [] (eventCounter svc) (console svc).

(** A run of [log] calls, each with its clock, its random characters and
    its event: the events returned, in order, and the service afterwards. *)
Record LogCall : Type := mkLogCall {
  call_now : N;
  call_random : string;
  call_event : EventInput
}.

Fixpoint log_all (config : AuditConfig) (calls : list LogCall) (svc : Service)
  : list AuditEvent * Service :=
  match calls with
  | [] => ([], svc)
  | c :: rest =>
      let '(e, svc1) := log config (call_now c) (call_random c) (call_event c) svc in
      let '(es, svc2) := log_all config rest svc1 in
      (e :: es, svc2)
  end.

(** What the filters of [query] ask of one event, taken together. *)
Definition passes (filter : AuditFilter) (e : AuditEvent) : bool :=
  match startDate filter with Some d => (d <=? timestamp e)%Z | None => true end
  && match endDate filter with Some d => (timestamp e <=? d)%Z | None => true end
  && match filter_type filter with
     | Some (t :: ts) => bool_decide (type e ∈ t :: ts)
     | _ => true
     end
  && match truthy_string (filter_userId filter) with
     | Some u => bool_decide (userId e = Some u)
     | None => true
     end
  && match truthy_string (filter_agentId filter) with
     | Some a => bool_decide (agentId e = Some a)
     | None => true
     end
  && match filter_outcome filter with
     | Some o => bool_decide (outcome e = o)
     | None => true
     end
  && match filter_severity filter with
     | Some sv => bool_decide (severity e = sv)
     | None => true
     end.

(** The value of a string of base-36 digits, most significant first. *)
Definition base36_value_of_digit (c : ascii) : N :=
  let n := N_of_ascii c in if n <? 58 then n - 48 else n - 87.

Fixpoint base36_value (acc : N) (s : string) : N :=
  match s with
  | EmptyString => acc
  | String c rest => base36_value (acc * 36 + base36_value_of_digit c) rest
  end.

(** The id [generateEventId] builds from its three parts. *)
Definition event_id (now counter : N) (random : string) : string :=
  "audit_" ++ to_base36 now ++ "_" ++ pad4 (to_base36 counter) ++ "_" ++ random.

(** The string holds no [c]. *)
Fixpoint free_of (c : ascii) (s : string) : Prop :=
  match s with
  | EmptyString => True
  | String c' rest => c' <> c /\ free_of c rest
  end.

End AuditLoggers.

(** ** The compliance configuration: comma-separated lists

    A JavaScript string is kept here as its UTF-16 code units, since
    [trim] looks at characters beyond ASCII. *)

Module Compliance.

Definition JsString : Type := list N.

(** The code units of an ASCII literal. *)
Definition units (s : string) : JsString :=
  map N_of_ascii (list_ascii_of_string s).

(** WhiteSpace and LineTerminator of ECMAScript, which [trim] strips: TAB,
    LF, VT, FF, CR, SP, NBSP, the other space separators of Unicode, LS, PS
    and the byte order mark. *)
Definition is_white_space (c : N) : bool :=
  bool_decide (c ∈ [9; 10; 11; 12; 13; 32; 160; 5760;
                    8192; 8193; 8194; 8195; 8196; 8197; 8198; 8199; 8200; 8201;
                    8202; 8232; 8233; 8239; 8287; 12288; 65279]).

Fixpoint trimStart (s : JsString) : JsString :=
  match s with
  | c :: rest => if is_white_space c then trimStart rest else s
  | [] => []
  end.

Definition trimEnd (s : JsString) : JsString := rev (trimStart (rev s)).

(** [s.trim()] *)
Definition trim (s : JsString) : JsString := trimEnd (trimStart s).

(** [s.split(sep)] for a separator of one code unit: the empty string
    splits into one empty piece. *)
Fixpoint split (sep : N) (s : JsString) : list JsString :=
  match s with
  | [] => [[]]
  | c :: rest =>
      if c =? sep then [] :: split sep rest
      else match split sep rest with
           | first :: others => (c :: first) :: others
           | [] => [[c]]
           end
  end.

(** A string is truthy unless it is empty. *)
Definition truthy (s : JsString) : bool :=
  match s with [] => false | _ :: _ => true end.

Definition comma : N := 44.

(** [parseList(envVar)] *)
Definition parseList (envVar : option JsString) : list JsString :=
  match envVar with
  | None => []
  | Some s =>
      if negb (truthy s) then []
      else List.filter truthy (map trim (split comma s))
  end.

(** [items.join(sep)] *)
Fixpoint join (sep : N) (items : list JsString) : JsString :=
  match items with
  | [] => []
  | [x] => x
  | x :: rest => (x ++ sep :: join sep rest)%list
  end.

(** An entry as [parseList] gives it: not empty, without a comma, and with
    nothing for [trim] to strip. *)
Definition clean (item : JsString) : Prop :=
  item <> [] /\ ~ In comma item /\ trim item = item.

(** The string does not begin with white space. *)
Definition head_ok (s : JsString) : Prop :=
  match s with c :: _ => is_white_space c = false | [] => True end.

End Compliance.

(** ** The pipeline orchestrator *)

Module Pipeline.

(** Modelled from the spec: the Pipeline Orchestrator ([createPipeline],
    [executePipeline], cancellation and the settlement pass of sections 4.2,
    5 and 7).  The sources hold no orchestrator, only the [a2a_pipelines]
    table.  Holds are the escrow contract's payments, deposited, released
    and refunded by the contract's own functions.  Execution is kept in the
    steps it is made of ([beginExecution], one [reportVerdict] per step),
    so that a cancellation can fall between two steps.  The terminal status
    is written when the settlement pass has gone through; a pass in which a
    release or refund fails is a [SettlementInconsistency], which leaves
    the pipeline frozen in [Executing] with the calls already made in
    place. *)
Inductive PipelineStatus : Type :=
| Created | Executing | Completed | Failed | Cancelled.

Inductive StepStatus : Type := StepPending | StepCompleted | StepFailed.

(** What the execution collaborator reports for a step. *)
Inductive Verdict : Type :=
| Success (output : string)
| Failure (errorDetail : string)
| Timeout.

Record Step : Type := mkStep {
  position : nat;
  holdId : N;
  step_agentId : N;
  cost : N;
  input : string;
  output : option string;
  step_status : StepStatus
}.

(** Per-agent payouts and the platform's share. *)
Record Distribution : Type := mkDistribution {
  agent_payouts : list (N * N);
  platform_share : N
}.

Record Pipeline : Type := mkPipeline {
  steps : list Step;
  revenueShare : list (N * N);
  totalCost : N;
  pipeline_status : PipelineStatus;
  frozen : bool;
  distribution : option Distribution
}.

Record System : Type := mkSystem {
  world : Escrow.World;
  pipelines : gmap N Pipeline
}.

Inductive Error : Type :=
| NoSteps
| UnknownAgent
| InvalidRevenueShare
| DuplicatePipeline
| HoldCreationFailed (reason : string)
| UnknownPipeline
| StateConflict
| SettlementInconsistency.

(** A step as submitted: the agent, its cost and the hold to create for it. *)
Record StepRequest : Type := mkStepRequest {
  req_holdId : N;
  req_agentId : N;
  req_cost : N;
  req_input : string
}.

Definition BPS : N := 10000.

Definition sum_list (l : list N) : N := fold_right N.add 0 l.

Definition share_total (shares : list (N * N)) : N := sum_list (map snd shares).

(** floor(totalCost * bps / 10000) for every agent of the table; what is
    left of [totalCost] is the platform's. *)
Definition payouts (total : N) (shares : list (N * N)) : list (N * N) :=
  map (fun ab => (fst ab, total * snd ab / BPS)) shares.

Definition distribute (total : N) (shares : list (N * N)) : Distribution :=
  let paid := payouts total shares in
  mkDistribution paid (total - sum_list (map snd paid)).

(** One deposit per step, all in one transaction. *)
Fixpoint create_holds (payer : Escrow.Msg) (token : N) (reqs : list StepRequest)
  : M Escrow.World unit :=
  match reqs with
  | [] => ret tt
  | r :: rest =>
      Escrow.depositPayment payer (req_holdId r) (req_agentId r) (req_cost r) token >>
      create_holds payer token rest
  end.

Definition new_steps (reqs : list StepRequest) : list Step :=
  imap (fun i r => mkStep i (req_holdId r) (req_agentId r) (req_cost r)
                          (req_input r) None StepPending) reqs.

Definition createPipeline (payer : Escrow.Msg) (pipelineId token : N)
    (reqs : list StepRequest) (shares : list (N * N)) (sys : System)
  : option Error * System :=
  if bool_decide (reqs = []) then (Some NoSteps, sys)
  else if existsb (fun r => Escrow.agentDeveloper_at (world sys) (req_agentId r) =? 0) reqs
  then (Some UnknownAgent, sys)
  else if negb (share_total shares =? BPS) then (Some InvalidRevenueShare, sys)
  else if bool_decide (is_Some (pipelines sys !! pipelineId))
  then (Some DuplicatePipeline, sys)
  else
    match create_holds payer token reqs (world sys) with
    | Revert reason _ => (Some (HoldCreationFailed reason), sys)
    | Done _ w' =>
        let p := mkPipeline (new_steps reqs) shares
                            (sum_list (map req_cost reqs)) Created false None in
        (None, mkSystem w' (<[pipelineId := p]> (pipelines sys)))
    end.

(** The settlement pass: the same call on every hold, in order.  It stops at
    the first call that fails and says so; the calls made before stay. *)
Fixpoint settle_all (call : Escrow.Msg -> N -> M Escrow.World unit)
    (orchestrator : Escrow.Msg) (holds : list N) (w : Escrow.World)
  : bool * Escrow.World :=
  match holds with
  | [] => (true, w)
  | h :: rest =>
      match call orchestrator h w with
      | Done _ w' => settle_all call orchestrator rest w'
      | Revert _ _ => (false, w)
      end
  end.

Definition with_steps (ss : list Step) (p : Pipeline) : Pipeline :=
  mkPipeline ss (revenueShare p) (totalCost p) (pipeline_status p) (frozen p)
             (distribution p).
Definition with_pipeline_status (st : PipelineStatus) (p : Pipeline) : Pipeline :=
  mkPipeline (steps p) (revenueShare p) (totalCost p) st (frozen p) (distribution p).
Definition with_distribution (d : Distribution) (p : Pipeline) : Pipeline :=
  mkPipeline (steps p) (revenueShare p) (totalCost p) (pipeline_status p) (frozen p)
             (Some d).
Definition freeze (p : Pipeline) : Pipeline :=
  mkPipeline (steps p) (revenueShare p) (totalCost p) (pipeline_status p) true
             (distribution p).

Definition status_is (a b : PipelineStatus) : bool :=
  match a, b with
  | Created, Created | Executing, Executing | Completed, Completed
  | Failed, Failed | Cancelled, Cancelled => true
  | _, _ => false
  end.

Definition step_completed (s : Step) : bool :=
  match step_status s with StepCompleted => true | _ => false end.
Definition step_pending (s : Step) : bool :=
  match step_status s with StepPending => true | _ => false end.

(** Settle every hold of [p] with [call]; on success the pipeline ends in
    [final], otherwise it is frozen. *)
Definition settle (call : Escrow.Msg -> N -> M Escrow.World unit)
    (final : PipelineStatus) (orchestrator : Escrow.Msg) (pipelineId : N)
    (p : Pipeline) (sys : System) : option Error * System :=
  match settle_all call orchestrator (map holdId (steps p)) (world sys) with
  | (true, w') =>
      let p' := with_pipeline_status final p in
      let p' := match final with
                | Completed => with_distribution
                                 (distribute (totalCost p) (revenueShare p)) p'
                | _ => p'
                end in
      (None, mkSystem w' (<[pipelineId := p']> (pipelines sys)))
  | (false, w') =>
      (Some SettlementInconsistency,
       mkSystem w' (<[pipelineId := freeze p]> (pipelines sys)))
  end.

(** [executePipeline], first part: the pipeline goes to [Executing]. *)
Definition beginExecution (pipelineId : N) (sys : System) : option Error * System :=
  match pipelines sys !! pipelineId with
  | None => (Some UnknownPipeline, sys)
  | Some p =>
      if status_is (pipeline_status p) Created && negb (frozen p)
      then (None, mkSystem (world sys)
                    (<[pipelineId := with_pipeline_status Executing p]> (pipelines sys)))
      else (Some StateConflict, sys)
  end.

(** Mark the first pending step with the verdict it got. *)
Fixpoint mark_next (v : Verdict) (ss : list Step) : list Step :=
  match ss with
  | [] => []
  | s :: rest =>
      if step_pending s
      then mkStep (position s) (holdId s) (step_agentId s) (cost s) (input s)
                  (match v with Success out => Some out | _ => None end)
                  (match v with Success _ => StepCompleted | _ => StepFailed end)
           :: rest
      else s :: mark_next v rest
  end.

(** [executePipeline], one step: the verdict of the step that ran.  The
    first failure (or timeout) refunds every hold; the last success
    releases every hold. *)
Definition reportVerdict (orchestrator : Escrow.Msg) (pipelineId : N) (v : Verdict)
    (sys : System) : option Error * System :=
  match pipelines sys !! pipelineId with
  | None => (Some UnknownPipeline, sys)
  | Some p =>
      if status_is (pipeline_status p) Executing && negb (frozen p)
         && existsb step_pending (steps p)
      then
        let p := with_steps (mark_next v (steps p)) p in
        match v with
        | Success _ =>
            if forallb step_completed (steps p)
            then settle Escrow.releasePayment Completed orchestrator pipelineId p sys
            else (None, mkSystem (world sys) (<[pipelineId := p]> (pipelines sys)))
        | _ => settle Escrow.refundPayment Failed orchestrator pipelineId p sys
        end
      else (Some StateConflict, sys)
  end.

(** Cancellation of a pipeline that is executing: refund all, [Cancelled]. *)
Definition cancelPipeline (orchestrator : Escrow.Msg) (pipelineId : N) (sys : System)
  : option Error * System :=
  match pipelines sys !! pipelineId with
  | None => (Some UnknownPipeline, sys)
  | Some p =>
      if status_is (pipeline_status p) Executing && negb (frozen p)
      then settle Escrow.refundPayment Cancelled orchestrator pipelineId p sys
      else (Some StateConflict, sys)
  end.

(** [executePipeline]: begin, then one verdict of the collaborator per step
    in position order, until the pipeline is settled or an error stops it. *)
Fixpoint run_steps (orchestrator : Escrow.Msg) (pipelineId : N)
    (collaborator : Step -> Verdict) (todo : list Step) (sys : System)
  : option Error * System :=
  match todo with
  | [] => (None, sys)
  | s :: rest =>
      match reportVerdict orchestrator pipelineId (collaborator s) sys with
      | (None, sys') =>
          match collaborator s with
          | Success _ => run_steps orchestrator pipelineId collaborator rest sys'
          | _ => (None, sys')
          end
      | failed => failed
      end
  end.

Definition executePipeline (orchestrator : Escrow.Msg) (pipelineId : N)
    (collaborator : Step -> Verdict) (sys : System) : option Error * System :=
  match beginExecution pipelineId sys with
  | (None, sys') =>
      match pipelines sys' !! pipelineId with
      | Some p => run_steps orchestrator pipelineId collaborator (steps p) sys'
      | None => (Some UnknownPipeline, sys')
      end
  | failed => failed
  end.

(** The system as a transition system: anything the chain does to the
    escrow, and the orchestrator's operations. *)
Inductive sys_step : System -> System -> Prop :=
| sys_escrow sys w' :
    Escrow.step (world sys) w' -> sys_step sys (mkSystem w' (pipelines sys))
| sys_create payer id token reqs shares sys :
    sys_step sys (snd (createPipeline payer id token reqs shares sys))
| sys_begin id sys :
    sys_step sys (snd (beginExecution id sys))
| sys_verdict orchestrator id v sys :
    sys_step sys (snd (reportVerdict orchestrator id v sys))
| sys_cancel orchestrator id sys :
    sys_step sys (snd (cancelPipeline orchestrator id sys)).

Definition reachable (sys : System) : Prop :=
  exists w0, Escrow.deployed w0 /\ rtc sys_step (mkSystem w0 ∅) sys.

Definition hold_status (sys : System) (s : Step) : Escrow.PaymentStatus :=
  Escrow.status (Escrow.payment_at (world sys) (holdId s)).

(** All or nothing: a completed pipeline has every step completed and every
    hold released, a failed or cancelled one has every hold refunded. *)
Definition all_or_nothing (sys : System) (p : Pipeline) : Prop :=
  match pipeline_status p with
  | Completed =>
      Forall (fun s => step_status s = StepCompleted /\
                       hold_status sys s = Escrow.Released) (steps p)
  | Failed | Cancelled =>
      Forall (fun s => hold_status sys s = Escrow.Refunded) (steps p)
  | Created | Executing => True
  end.

(** The scenario of the specification: three steps costing 100, 500 and 400
    for agents 1, 2 and 3, with shares of 2000, 6000 and 2000 basis points. *)
Definition three_steps : list StepRequest :=
  [mkStepRequest 11 1 100 "in"; mkStepRequest 12 2 500 ""; mkStepRequest 13 3 400 ""].
Definition three_shares : list (N * N) := [(1, 2000); (2, 6000); (3, 2000)].

Definition scenario : System :=
  let w := Escrow.setUp in
  let w := transact (Escrow.registerAgent Escrow.deployer 2 5) w in
  let w := transact (Escrow.registerAgent Escrow.deployer 3 6) w in
  snd (createPipeline Escrow.as_user 1 200 three_steps three_shares (mkSystem w ∅)).

Definition all_succeed (s : Step) : Verdict := Success "out".
Definition second_fails (s : Step) : Verdict :=
  if Nat.eqb (position s) 1 then Failure "boom" else Success "out".

End Pipeline.

(** * Properties *)

(** ** The escrow contract *)

Module EscrowFacts.
Import Escrow.

Lemma bind_Done {W A B} (m : M W A) (k : A -> M W B) w a w' :
  m w = Done a w' -> bind m k w = k a w'.
Proof. unfold bind. by intros ->. Qed.

Lemma bind_Revert {W A B} (m : M W A) (k : A -> M W B) w r w' :
  m w = Revert r w' -> bind m k w = Revert r w'.
Proof. unfold bind. by intros ->. Qed.

Lemma bind_Done_inv {W A B} (m : M W A) (k : A -> M W B) w b w' :
  bind m k w = Done b w' -> exists a w1, m w = Done a w1 /\ k a w1 = Done b w'.
Proof. unfold bind. destruct (m w) as [a w1|]; [eauto | discriminate]. Qed.

Lemma require_Done_inv {W} (c : W -> bool) r w (u : unit) w' :
  require c r w = Done u w' -> c w = true /\ w' = w.
Proof. unfold require. destruct (c w); [by intros [= <-] | discriminate]. Qed.

Lemma require_true {W} (c : W -> bool) r w : c w = true -> require c r w = Done tt w.
Proof. unfold require. by intros ->. Qed.

Lemma require_false {W} (c : W -> bool) r w : c w = false -> require c r w = Revert r w.
Proof. unfold require. by intros ->. Qed.

Lemma status_eqb_eq a b : status_eqb a b = true <-> a = b.
Proof. destruct a, b; simpl; split; congruence. Qed.

Lemma payment_at_set_payment id id' p w :
  payment_at (set_payment id p w) id' = if decide (id = id') then p else payment_at w id'.
Proof.
  unfold payment_at, set_payment, set_store; simpl.
  rewrite lookup_insert. by destruct (decide (id = id')).
Qed.

Lemma balanceOf_set_balance tok who v tok' who' w :
  balanceOf (set_balance tok who v w) tok' who' =
  if decide ((tok, who) = (tok', who')) then v else balanceOf w tok' who'.
Proof.
  unfold balanceOf, set_balance; simpl.
  rewrite lookup_insert. by destruct (decide ((tok, who) = (tok', who'))).
Qed.

Lemma erc20_transfer_Done_inv tok from to v w w' :
  erc20_transfer tok from to v w = Done tt w' ->
  from <> 0 /\ to <> 0 /\ v <= balanceOf w tok from /\ w' = moved tok from to v w.
Proof.
  unfold erc20_transfer, bind, require, modify.
  destruct (from =? 0) eqn:Hf; simpl; [discriminate|].
  destruct (to =? 0) eqn:Ht; simpl; [discriminate|].
  destruct (v <=? balanceOf w tok from) eqn:Hb; simpl; [|discriminate].
  intros [= <-]. apply N.eqb_neq in Hf, Ht. apply N.leb_le in Hb. done.
Qed.

Lemma erc20_transfer_Done tok from to v w :
  from <> 0 -> to <> 0 -> v <= balanceOf w tok from ->
  erc20_transfer tok from to v w = Done tt (moved tok from to v w).
Proof.
  intros Hf Ht Hb. unfold erc20_transfer, bind, require, modify.
  apply N.eqb_neq in Hf, Ht. apply N.leb_le in Hb.
  rewrite Hf, Ht; simpl. by rewrite Hb.
Qed.


Lemma checked_add_Done_inv {W} a b (w : W) c w' :
  checked_add a b w = Done c w' -> a + b <= UINT256_MAX /\ c = a + b /\ w' = w.
Proof.
  unfold checked_add. destruct (a + b <=? UINT256_MAX) eqn:H; [|discriminate].
  intros [= <- <-]. apply N.leb_le in H. done.
Qed.

Lemma checked_mul_Done_inv {W} a b (w : W) c w' :
  checked_mul a b w = Done c w' -> a * b <= UINT256_MAX /\ c = a * b /\ w' = w.
Proof.
  unfold checked_mul. destruct (a * b <=? UINT256_MAX) eqn:H; [|discriminate].
  intros [= <- <-]. apply N.leb_le in H. done.
Qed.

Lemma checked_sub_Done_inv {W} a b (w : W) c w' :
  checked_sub a b w = Done c w' -> b <= a /\ c = a - b /\ w' = w.
Proof.
  unfold checked_sub. destruct (b <=? a) eqn:H; [|discriminate].
  intros [= <- <-]. apply N.leb_le in H. done.
Qed.

Lemma store_set_payment id p w :
  platformFeePercentage (store (set_payment id p w)) = platformFeePercentage (store w) /\
  platformFeeRecipient (store (set_payment id p w)) = platformFeeRecipient (store w).
Proof. done. Qed.

Lemma releasePayment_Done_inv msg id w w' :
  releasePayment msg id w = Done tt w' ->
  let p := payment_at w id in
  let fee := release_fee w id in
  hasRole w ORCHESTRATOR_ROLE (sender msg) = true /\
  status p = Escrowed /\
  timestamp msg <= expiresAt p /\
  fee <= amount p /\
  amount p - fee <= balanceOf w (token p) (this msg) /\
  (0 < fee ->
   fee <= balanceOf (moved (token p) (this msg) (developer p) (amount p - fee) w)
                    (token p) (this msg)) /\
  w' = release_result msg id w.
Proof.
  unfold releasePayment, onlyRole. intros H. cbv zeta.
  apply bind_Done_inv in H as ([] & w1 & [Hrole ->]%require_Done_inv & H).
  apply bind_Done_inv in H as ([] & w1 & [Hst ->]%require_Done_inv & H).
  apply bind_Done_inv in H as ([] & w1 & [Hexp ->]%require_Done_inv & H).
  apply status_eqb_eq in Hst. apply N.leb_le in Hexp.
  unfold bind at 1, modify at 1 in H.
  unfold bind at 1, gets at 1 in H.
  unfold bind at 1, gets at 1 in H.
  rewrite payment_at_set_payment in H. rewrite decide_True in H by done.
  cbn [with_status amount token developer] in H.
  apply bind_Done_inv in H as (scaled & w1 & (_ & -> & ->)%checked_mul_Done_inv & H).
  apply bind_Done_inv in H as (dev & w1 & (Hfee & -> & ->)%checked_sub_Done_inv & H).
  apply bind_Done_inv in H as ([] & w1 & (_ & _ & Hb1 & ->)%erc20_transfer_Done_inv & H).
  unfold bind at 1, gets at 1 in H.
  apply bind_Done_inv in H as ([] & w2 & Hplat & H).
  unfold emit, modify in H. injection H as <-.
  do 5 (split; [done|]).
  unfold release_result, release_fee, add_event. cbv zeta.
  destruct (0 <? _) eqn:Hpos.
  - apply erc20_transfer_Done_inv in Hplat as (_ & _ & Hb2 & ->). done.
  - unfold ret in Hplat. injection Hplat as <-. split; [|done].
    intros Hlt. apply N.ltb_ge in Hpos. change (platformFeePercentage _) with
      (platformFeePercentage (store w)) in Hpos. lia.
Qed.

Lemma releasePayment_unauthorized msg id w :
  hasRole w ORCHESTRATOR_ROLE (sender msg) = false ->
  releasePayment msg id w = Revert "AccessControlUnauthorizedAccount" w.
Proof.
  intros H. unfold releasePayment, onlyRole.
  apply bind_Revert. by apply require_false.
Qed.

Lemma releasePayment_not_escrowed msg id w :
  hasRole w ORCHESTRATOR_ROLE (sender msg) = true ->
  status (payment_at w id) <> Escrowed ->
  releasePayment msg id w = Revert "Payment not in escrow" w.
Proof.
  intros Hr Hs. unfold releasePayment, onlyRole.
  erewrite bind_Done by (by apply require_true).
  apply bind_Revert, require_false.
  destruct (status_eqb _ _) eqn:E; [|done]. by apply status_eqb_eq in E.
Qed.

Lemma releasePayment_expired msg id w :
  hasRole w ORCHESTRATOR_ROLE (sender msg) = true ->
  status (payment_at w id) = Escrowed ->
  expiresAt (payment_at w id) < timestamp msg ->
  releasePayment msg id w = Revert "Payment expired" w.
Proof.
  intros Hr Hs He. unfold releasePayment, onlyRole.
  erewrite bind_Done by (by apply require_true).
  erewrite bind_Done by (apply require_true; by apply status_eqb_eq).
  apply bind_Revert, require_false. by apply N.leb_gt.
Qed.

Lemma refundPayment_unauthorized msg id w :
  hasRole w ORCHESTRATOR_ROLE (sender msg) = false ->
  refundPayment msg id w = Revert "AccessControlUnauthorizedAccount" w.
Proof.
  intros H. unfold refundPayment, onlyRole.
  apply bind_Revert. by apply require_false.
Qed.

Lemma refundPayment_not_escrowed msg id w :
  hasRole w ORCHESTRATOR_ROLE (sender msg) = true ->
  status (payment_at w id) <> Escrowed ->
  refundPayment msg id w = Revert "Payment not in escrow" w.
Proof.
  intros Hr Hs. unfold refundPayment, onlyRole.
  erewrite bind_Done by (by apply require_true).
  apply bind_Revert, require_false.
  destruct (status_eqb _ _) eqn:E; [|done]. by apply status_eqb_eq in E.
Qed.

Lemma refundPayment_Done_inv msg id w w' :
  refundPayment msg id w = Done tt w' ->
  hasRole w ORCHESTRATOR_ROLE (sender msg) = true /\
  status (payment_at w id) = Escrowed /\
  user (payment_at w id) <> 0 /\
  w' = refund_result msg id w.
Proof.
  unfold refundPayment, onlyRole. intros H.
  apply bind_Done_inv in H as ([] & w1 & [Hrole ->]%require_Done_inv & H).
  apply bind_Done_inv in H as ([] & w1 & [Hst ->]%require_Done_inv & H).
  apply status_eqb_eq in Hst.
  unfold bind at 1, modify at 1 in H.
  unfold bind at 1, gets at 1 in H.
  rewrite payment_at_set_payment in H. rewrite decide_True in H by done.
  cbn [with_status amount token user] in H.
  apply bind_Done_inv in H as ([] & w1 & (_ & Hu & _ & ->)%erc20_transfer_Done_inv & H).
  unfold emit, modify in H. injection H as <-. done.
Qed.

Lemma refundPayment_Done msg id w :
  hasRole w ORCHESTRATOR_ROLE (sender msg) = true ->
  status (payment_at w id) = Escrowed ->
  this msg <> 0 -> user (payment_at w id) <> 0 ->
  amount (payment_at w id) <= balanceOf w (token (payment_at w id)) (this msg) ->
  refundPayment msg id w = Done tt (refund_result msg id w).
Proof.
  intros Hr Hs Ht Hu Hb. unfold refundPayment, onlyRole.
  erewrite bind_Done by (by apply require_true).
  erewrite bind_Done by (apply require_true; by apply status_eqb_eq).
  unfold bind at 1, modify at 1. unfold bind at 1, gets at 1.
  rewrite payment_at_set_payment, decide_True by done.
  cbn [with_status amount token user].
  erewrite bind_Done by (by apply erc20_transfer_Done).
  done.
Qed.

Lemma balanceOf_moved_other tok from to v w tok' who :
  (tok', who) <> (tok, from) -> (tok', who) <> (tok, to) ->
  balanceOf (moved tok from to v w) tok' who = balanceOf w tok' who.
Proof.
  intros H1 H2. unfold moved. cbv zeta.
  rewrite !balanceOf_set_balance, !decide_False by congruence. done.
Qed.

Lemma balanceOf_moved_to tok from to v w :
  from <> to ->
  balanceOf (moved tok from to v w) tok to = balanceOf w tok to + v.
Proof.
  intros H. unfold moved. cbv zeta.
  rewrite balanceOf_set_balance, decide_True by done.
  rewrite balanceOf_set_balance, decide_False by congruence. done.
Qed.

Lemma balanceOf_moved_from tok from to v w :
  from <> to ->
  balanceOf (moved tok from to v w) tok from = balanceOf w tok from - v.
Proof.
  intros H. unfold moved. cbv zeta.
  rewrite balanceOf_set_balance, decide_False by congruence.
  rewrite balanceOf_set_balance, decide_True by done. done.
Qed.

Lemma balanceOf_set_payment id p w tok who :
  balanceOf (set_payment id p w) tok who = balanceOf w tok who.
Proof. done. Qed.

Lemma balanceOf_add_event e w tok who :
  balanceOf (add_event e w) tok who = balanceOf w tok who.
Proof. done. Qed.

Lemma payment_at_moved tok from to v w id :
  payment_at (moved tok from to v w) id = payment_at w id.
Proof. done. Qed.

Lemma payment_at_add_event e w id : payment_at (add_event e w) id = payment_at w id.
Proof. done. Qed.

Lemma payment_at_release_result msg id w id' :
  payment_at (release_result msg id w) id' =
  if decide (id = id') then with_status Released (payment_at w id)
  else payment_at w id'.
Proof.
  unfold release_result. cbv zeta. rewrite payment_at_add_event.
  destruct (0 <? release_fee w id);
    rewrite ?payment_at_moved; apply payment_at_set_payment.
Qed.

Lemma payment_at_refund_result msg id w id' :
  payment_at (refund_result msg id w) id' =
  if decide (id = id') then with_status Refunded (payment_at w id)
  else payment_at w id'.
Proof.
  unfold refund_result. cbv zeta.
  rewrite payment_at_add_event, payment_at_moved. apply payment_at_set_payment.
Qed.

Lemma payment_at_deposit_result msg id agent amt tok w id' :
  payment_at (deposit_result msg id agent amt tok w) id' =
  if decide (id = id')
  then mkPayment (sender msg) (agentDeveloper_at w agent) agent amt tok Escrowed
                 (timestamp msg) (timestamp msg + PAYMENT_EXPIRY)
  else payment_at w id'.
Proof.
  unfold deposit_result. cbv zeta.
  rewrite payment_at_add_event, payment_at_set_payment.
  destruct (decide (id = id')); [done|].
  rewrite payment_at_moved. by destruct (_ <? _).
Qed.

(** **** [depositPayment]: which [require] fires, and what success writes *)

Lemma depositPayment_unsupported msg id agent amt tok w :
  supportedToken_at w tok = false ->
  depositPayment msg id agent amt tok w = Revert "Token not supported" w.
Proof. intros H. unfold depositPayment. by apply bind_Revert, require_false. Qed.

Lemma depositPayment_exists msg id agent amt tok w :
  supportedToken_at w tok = true ->
  user (payment_at w id) <> 0 ->
  depositPayment msg id agent amt tok w = Revert "Payment already exists" w.
Proof.
  intros Hs Hu. unfold depositPayment.
  erewrite bind_Done by (by apply require_true).
  apply bind_Revert, require_false. by apply N.eqb_neq.
Qed.

Lemma depositPayment_unregistered msg id agent amt tok w :
  supportedToken_at w tok = true ->
  user (payment_at w id) = 0 ->
  agentDeveloper_at w agent = 0 ->
  depositPayment msg id agent amt tok w = Revert "Agent not registered" w.
Proof.
  intros Hs Hu Ha. unfold depositPayment.
  erewrite bind_Done by (by apply require_true).
  erewrite bind_Done by (apply require_true; by apply N.eqb_eq).
  apply bind_Revert, require_false. by rewrite Ha.
Qed.

Lemma depositPayment_zero_amount msg id agent tok w :
  supportedToken_at w tok = true ->
  user (payment_at w id) = 0 ->
  agentDeveloper_at w agent <> 0 ->
  depositPayment msg id agent 0 tok w = Revert "Amount must be positive" w.
Proof.
  intros Hs Hu Ha. unfold depositPayment.
  erewrite bind_Done by (by apply require_true).
  erewrite bind_Done by (apply require_true; by apply N.eqb_eq).
  erewrite bind_Done
    by (apply require_true; apply negb_true_iff; by apply N.eqb_neq).
  by apply bind_Revert, require_false.
Qed.

Lemma erc20_spendAllowance_Done tok owner spender v w :
  owner <> 0 -> spender <> 0 -> v <= allowance w tok owner spender ->
  erc20_spendAllowance tok owner spender v w =
  Done tt (if allowance w tok owner spender <? UINT256_MAX
           then set_allowance tok owner spender (allowance w tok owner spender - v) w
           else w).
Proof.
  intros Ho Hs Hv. unfold erc20_spendAllowance, bind at 1, gets.
  destruct (_ <? UINT256_MAX); [|done].
  erewrite bind_Done by (apply require_true; by apply N.leb_le).
  erewrite bind_Done
    by (apply require_true; apply negb_true_iff; by apply N.eqb_neq).
  erewrite bind_Done
    by (apply require_true; apply negb_true_iff; by apply N.eqb_neq).
  done.
Qed.

Lemma depositPayment_Done msg id agent amt tok w :
  supportedToken_at w tok = true ->
  user (payment_at w id) = 0 ->
  agentDeveloper_at w agent <> 0 ->
  0 < amt ->
  sender msg <> 0 -> this msg <> 0 ->
  amt <= allowance w tok (sender msg) (this msg) ->
  amt <= balanceOf w tok (sender msg) ->
  timestamp msg + PAYMENT_EXPIRY <= UINT256_MAX ->
  depositPayment msg id agent amt tok w =
  Done tt (deposit_result msg id agent amt tok w).
Proof.
  intros Hs Hu Ha Hamt Hsender Hthis Hallow Hbal Hts. unfold depositPayment.
  erewrite bind_Done by (by apply require_true).
  erewrite bind_Done by (apply require_true; by apply N.eqb_eq).
  erewrite bind_Done
    by (apply require_true; apply negb_true_iff; by apply N.eqb_neq).
  erewrite bind_Done by (apply require_true; by apply N.ltb_lt).
  unfold bind at 1, gets at 1. unfold safeTransferFrom.
  erewrite bind_Done.
  2:{ erewrite bind_Done by (by apply erc20_spendAllowance_Done).
      apply erc20_transfer_Done; [done..|]. by destruct (_ <? _). }
  unfold checked_add. apply N.leb_le in Hts. rewrite Hts.
  unfold bind at 1, ret. unfold bind, modify, emit, modify.
  unfold deposit_result, add_event. cbv zeta.
  by destruct (_ <? UINT256_MAX).
Qed.

Lemma depositPayment_Done_inv msg id agent amt tok w w' :
  depositPayment msg id agent amt tok w = Done tt w' ->
  supportedToken_at w tok = true /\
  user (payment_at w id) = 0 /\
  agentDeveloper_at w agent <> 0 /\
  0 < amt /\ sender msg <> 0 /\
  w' = deposit_result msg id agent amt tok w.
Proof.
  unfold depositPayment. intros H.
  apply bind_Done_inv in H as ([] & w1 & [Hs ->]%require_Done_inv & H).
  apply bind_Done_inv in H as ([] & w1 & [Hu ->]%require_Done_inv & H).
  apply bind_Done_inv in H as ([] & w1 & [Ha ->]%require_Done_inv & H).
  apply bind_Done_inv in H as ([] & w1 & [Hamt ->]%require_Done_inv & H).
  apply N.eqb_eq in Hu. apply negb_true_iff, N.eqb_neq in Ha.
  apply N.ltb_lt in Hamt.
  unfold bind at 1, gets at 1 in H.
  apply bind_Done_inv in H as ([] & w1 & Htr & H).
  apply bind_Done_inv in H as (e & w2 & (_ & -> & ->)%checked_add_Done_inv & H).
  unfold bind, modify, emit, modify in H. injection H as <-.
  unfold safeTransferFrom in Htr.
  apply bind_Done_inv in Htr as ([] & w0 & Hsp & Htr).
  apply erc20_transfer_Done_inv in Htr as (Hsender & _ & _ & ->).
  repeat split; try done.
  unfold deposit_result, add_event. cbv zeta.
  unfold erc20_spendAllowance, bind at 1, gets in Hsp.
  destruct (_ <? UINT256_MAX).
  - apply bind_Done_inv in Hsp as ([] & ? & [_ ->]%require_Done_inv & Hsp).
    apply bind_Done_inv in Hsp as ([] & ? & [_ ->]%require_Done_inv & Hsp).
    apply bind_Done_inv in Hsp as ([] & ? & [_ ->]%require_Done_inv & Hsp).
    unfold modify in Hsp. by injection Hsp as <-.
  - unfold ret in Hsp. by injection Hsp as <-.
Qed.

(** **** Release *)

(** C3: a successful release pays the platform floor(A*f/10000) and the payee
    A minus that fee, where A is the amount of the payment and f the fee in
    basis points that the release applies; the two parts add up to A exactly.
    The split is what the [PaymentReleased] event reports and what the token
    balances of developer, fee recipient and escrow change by. *)
Theorem release_splits_amount_exactly msg id w w' :
  releasePayment msg id w = Done tt w' ->
  let p := payment_at w id in
  let A := amount p in
  let f := platformFeePercentage (store w) in
  let platformFee := A * f / 10000 in
  let payeeAmount := A - platformFee in
  let recipient := platformFeeRecipient (store w) in
  (10000 * platformFee <= A * f /\ A * f < 10000 * (platformFee + 1)) /\
  payeeAmount + platformFee = A /\
  events w' = (events w ++ [PaymentReleased id (developer p) payeeAmount platformFee])%list /\
  status (payment_at w' id) = Released /\
  (this msg <> developer p -> this msg <> recipient -> developer p <> recipient ->
   balanceOf w' (token p) (developer p)
     = balanceOf w (token p) (developer p) + payeeAmount /\
   balanceOf w' (token p) recipient
     = balanceOf w (token p) recipient + platformFee /\
   balanceOf w' (token p) (this msg) + A = balanceOf w (token p) (this msg)).
Proof.
  intros H. cbv zeta.
  apply releasePayment_Done_inv in H as (_ & _ & _ & Hfee & Hb1 & Hb2 & ->).
  unfold release_fee in Hfee, Hb1, Hb2.
  set (p := payment_at w id) in *. set (A := amount p) in *.
  set (f := platformFeePercentage (store w)) in *.
  assert (Hfloor : 10000 * (A * f / 10000) <= A * f /\
                   A * f < 10000 * (A * f / 10000 + 1)).
  { split; [apply N.Div0.mul_div_le|].
    rewrite N.add_1_r. by apply N.mul_succ_div_gt. }
  split; [exact Hfloor|]. split; [lia|].
  split; [|split].
  - unfold release_result, release_fee. cbv zeta. fold p A f.
    unfold add_event; simpl. by destruct (0 <? _).
  - rewrite payment_at_release_result, decide_True by done. done.
  - intros Hd Hr Hdr.
    unfold release_result, release_fee. cbv zeta. fold p A f.
    destruct (0 <? A * f / 10000) eqn:Hpos; rewrite !balanceOf_add_event.
    + apply N.ltb_lt in Hpos. specialize (Hb2 Hpos).
      rewrite balanceOf_moved_from in Hb2 by done.
      rewrite (balanceOf_moved_other _ _ _ _ _ _ (developer p)) by congruence.
      rewrite (balanceOf_moved_to _ _ (platformFeeRecipient (store w))) by done.
      rewrite (balanceOf_moved_from _ (this msg) (platformFeeRecipient (store w))) by done.
      rewrite (balanceOf_moved_to _ _ (developer p)) by done.
      rewrite (balanceOf_moved_other _ _ (developer p)) by congruence.
      rewrite (balanceOf_moved_from _ (this msg) (developer p)) by done.
      rewrite !balanceOf_set_payment. lia.
    + apply N.ltb_ge in Hpos.
      rewrite (balanceOf_moved_to _ _ (developer p)) by done.
      rewrite (balanceOf_moved_other _ _ (developer p)) by congruence.
      rewrite (balanceOf_moved_from _ (this msg) (developer p)) by done.
      rewrite !balanceOf_set_payment. lia.
Qed.

Lemma release_splits_amount_exactly_witness :
  let w := transact (depositPayment as_user 7 1 10000 200) setUp in
  let w' := transact (releasePayment as_orchestrator 7) w in
  releasePayment as_orchestrator 7 w = Done tt w' /\
  events w' = (events w ++ [PaymentReleased 7 3 9750 250])%list /\
  balanceOf w' 200 3 = 9750 /\ balanceOf w' 200 1 = 250 /\ balanceOf w' 200 100 = 0.
Proof.
  cbv zeta.
  assert (H : releasePayment as_orchestrator 7
                (transact (depositPayment as_user 7 1 10000 200) setUp)
              = Done tt (transact (releasePayment as_orchestrator 7)
                  (transact (depositPayment as_user 7 1 10000 200) setUp)))
    by (vm_compute; reflexivity).
  split; [exact H|].
  destruct (release_splits_amount_exactly _ _ _ _ H) as (_ & _ & He & _ & _).
  split; [exact He|]. clear H He. vm_compute. repeat split.
Defined.

(** C1 as the code has it: the fee of a release is the
    [platformFeePercentage] stored when [releasePayment] runs.  A
    [setPlatformFee] between deposit and release leaves the payment record
    as it was (it holds no fee) and its new value is the one applied. *)
Theorem release_applies_fee_in_force_at_release admin newFee msg id w w1 w2 :
  setPlatformFee admin newFee w = Done tt w1 ->
  releasePayment msg id w1 = Done tt w2 ->
  let p := payment_at w id in
  let platformFee := amount p * newFee / 10000 in
  payment_at w1 id = p /\
  platformFeePercentage (store w1) = newFee /\
  events w2 = (events w1 ++
                [PaymentReleased id (developer p) (amount p - platformFee) platformFee])%list.
Proof.
  intros Hset Hrel. cbv zeta.
  unfold setPlatformFee, onlyRole in Hset.
  apply bind_Done_inv in Hset as ([] & ? & [_ ->]%require_Done_inv & Hset).
  apply bind_Done_inv in Hset as ([] & ? & [_ ->]%require_Done_inv & Hset).
  unfold bind, modify, emit, modify in Hset. injection Hset as <-.
  apply release_splits_amount_exactly in Hrel as (_ & _ & He & _).
  split; [done|]. split; [done|]. exact He.
Qed.

Lemma release_applies_fee_in_force_at_release_witness :
  let w := transact (depositPayment as_user 7 1 10000 200) setUp in
  let w1 := transact (setPlatformFee deployer 500) w in
  let w2 := transact (releasePayment as_orchestrator 7) w1 in
  platformFeePercentage (store w) = 250 /\
  events w2 = (events w1 ++ [PaymentReleased 7 3 9500 500])%list.
Proof.
  cbv zeta. split; [vm_compute; reflexivity|].
  refine (proj2 (proj2 (release_applies_fee_in_force_at_release
            deployer 500 as_orchestrator 7
            (transact (depositPayment as_user 7 1 10000 200) setUp) _ _ _ _)));
    vm_compute; reflexivity.
Defined.

(** C1 as stated fails: a payment of 10000 deposited while the fee was 250
    basis points, released after [setPlatformFee(500)], pays a fee of 500
    (5%), not the 250 that the fee at deposit gives. *)
Lemma release_fee_not_fixed_at_deposit :
  let w := transact (depositPayment as_user 7 1 10000 200) setUp in
  let w1 := transact (setPlatformFee deployer 500) w in
  let w2 := transact (releasePayment as_orchestrator 7) w1 in
  platformFeePercentage (store setUp) = 250 /\
  status (payment_at w 7) = Escrowed /\
  10000 * platformFeePercentage (store setUp) / 10000 = 250 /\
  last (events w2) = Some (PaymentReleased 7 3 9500 500) /\
  balanceOf w2 200 1 = 500.
Proof. vm_compute. done. Qed.

(** **** Refund *)

(** C7: an escrowed payment is refunded whatever the time of the call (no
    hypothesis on [timestamp msg]): the status becomes [Refunded] and the
    payer gets the whole amount back, without a fee; a release of the same
    payment past its expiry reverts with "Payment expired".  The caller holds
    the orchestrator role and the escrow still holds the tokens. *)
Theorem refund_ignores_expiry msg id w :
  let p := payment_at w id in
  let w' := refund_result msg id w in
  status p = Escrowed ->
  hasRole w ORCHESTRATOR_ROLE (sender msg) = true ->
  this msg <> 0 -> user p <> 0 ->
  amount p <= balanceOf w (token p) (this msg) ->
  refundPayment msg id w = Done tt w' /\
  status (payment_at w' id) = Refunded /\
  events w' = (events w ++ [PaymentRefunded id (user p) (amount p)])%list /\
  (user p <> this msg ->
   balanceOf w' (token p) (user p) = balanceOf w (token p) (user p) + amount p /\
   balanceOf w' (token p) (this msg) + amount p = balanceOf w (token p) (this msg)) /\
  (expiresAt p < timestamp msg ->
   releasePayment msg id w = Revert "Payment expired" w /\
   error_kind "Payment expired" = Some HoldExpired).
Proof.
  cbv zeta. intros Hs Hr Ht Hu Hb.
  split; [by apply refundPayment_Done|].
  split; [by rewrite payment_at_refund_result, decide_True|].
  split; [done|]. split.
  - intros Hne. unfold refund_result. cbv zeta.
    rewrite !balanceOf_add_event.
    rewrite balanceOf_moved_to, balanceOf_moved_from by done.
    rewrite !balanceOf_set_payment. lia.
  - intros He. split; [by apply releasePayment_expired | done].
Qed.

Lemma refund_ignores_expiry_witness :
  let w := transact (depositPayment as_user 7 1 10000 200) setUp in
  let late := mkMsg 4 (1000 + PAYMENT_EXPIRY + 1) 100 in
  expiresAt (payment_at w 7) < timestamp late /\
  refundPayment late 7 w = Done tt (refund_result late 7 w) /\
  status (payment_at (refund_result late 7 w) 7) = Refunded /\
  releasePayment late 7 w = Revert "Payment expired" w.
Proof.
  cbv zeta.
  assert (Hlate : expiresAt (payment_at
            (transact (depositPayment as_user 7 1 10000 200) setUp) 7)
          < timestamp (mkMsg 4 (1000 + PAYMENT_EXPIRY + 1) 100))
    by (vm_compute; reflexivity).
  split; [exact Hlate|].
  destruct (refund_ignores_expiry (mkMsg 4 (1000 + PAYMENT_EXPIRY + 1) 100) 7
              (transact (depositPayment as_user 7 1 10000 200) setUp))
    as (Hdone & Hst & _ & _ & Hrel);
    [vm_compute; reflexivity | vm_compute; reflexivity
    | vm_compute; discriminate | vm_compute; discriminate
    | vm_compute; discriminate |].
  split; [exact Hdone|]. split; [exact Hst|]. exact (proj1 (Hrel Hlate)).
Defined.

(** **** Deposit *)

(** C10: whatever the payment id, the agent and the amount, a deposit in a
    token that is not on the supported list reverts with "Token not
    supported" before anything is written.  The list is the admin's: a
    [setSupportedToken] by anyone else changes nothing, one by an admin sets
    the token's entry. *)
Theorem deposit_requires_supported_token msg id agent amt tok w :
  supportedToken_at w tok = false ->
  depositPayment msg id agent amt tok w = Revert "Token not supported" w /\
  transact (depositPayment msg id agent amt tok) w = w /\
  (forall caller b,
     hasRole w DEFAULT_ADMIN_ROLE (sender caller) = false ->
     transact (setSupportedToken caller tok b) w = w) /\
  (forall caller b,
     hasRole w DEFAULT_ADMIN_ROLE (sender caller) = true ->
     supportedToken_at (transact (setSupportedToken caller tok b) w) tok = b).
Proof.
  intros H.
  pose proof (depositPayment_unsupported msg id agent amt tok w H) as Hd.
  split; [exact Hd|]. split; [unfold transact; by rewrite Hd|].
  split; intros caller b Hr; unfold transact, setSupportedToken, onlyRole.
  - erewrite bind_Revert by (by apply require_false). done.
  - erewrite bind_Done by (by apply require_true).
    unfold bind, modify, emit, modify, supportedToken_at; simpl.
    by rewrite lookup_insert_eq.
Qed.

Lemma deposit_requires_supported_token_witness :
  supportedToken_at setUp 201 = false /\
  payment_at setUp 7 = zeroPayment /\ agentDeveloper_at setUp 1 = 3 /\
  depositPayment as_user 7 1 10000 201 setUp = Revert "Token not supported" setUp.
Proof.
  assert (H : supportedToken_at setUp 201 = false) by (vm_compute; reflexivity).
  split; [exact H|]. split; [vm_compute; reflexivity|].
  split; [vm_compute; reflexivity|].
  exact (proj1 (deposit_requires_supported_token as_user 7 1 10000 201 setUp H)).
Defined.

(** C6 as the code has it: for a supported token the checks run in the
    order duplicate id, unknown agent, zero amount, each rejecting the call
    before anything is written; when they pass and the payer's tokens can be
    pulled (balance and allowance cover the amount), the payment is stored
    as [Escrowed], created at the block time and expiring seven days later,
    no other payment changes and the amount moves from payer to escrow. *)
Theorem deposit_validates_then_escrows msg id agent amt tok w :
  supportedToken_at w tok = true ->
  let call := depositPayment msg id agent amt tok w in
  (user (payment_at w id) <> 0 -> rejected call DuplicateHold w) /\
  (user (payment_at w id) = 0 -> agentDeveloper_at w agent = 0 ->
   rejected call UnknownAgent w) /\
  (user (payment_at w id) = 0 -> agentDeveloper_at w agent <> 0 -> amt = 0 ->
   rejected call InvalidAmount w) /\
  (user (payment_at w id) = 0 -> agentDeveloper_at w agent <> 0 -> 0 < amt ->
   sender msg <> 0 -> this msg <> 0 -> sender msg <> this msg ->
   amt <= allowance w tok (sender msg) (this msg) ->
   amt <= balanceOf w tok (sender msg) ->
   timestamp msg + PAYMENT_EXPIRY <= UINT256_MAX ->
   exists w',
     call = Done tt w' /\
     payment_at w' id =
       mkPayment (sender msg) (agentDeveloper_at w agent) agent amt tok Escrowed
                 (timestamp msg) (timestamp msg + 7 * 86400) /\
     (forall id', id' <> id -> payment_at w' id' = payment_at w id') /\
     balanceOf w' tok (this msg) = balanceOf w tok (this msg) + amt /\
     balanceOf w' tok (sender msg) + amt = balanceOf w tok (sender msg)).
Proof.
  intros Hs. cbv zeta. split; [|split; [|split]].
  - intros Hu. eexists. split; [by apply depositPayment_exists | done].
  - intros Hu Ha. eexists. split; [by apply depositPayment_unregistered | done].
  - intros Hu Ha ->. eexists.
    split; [by apply depositPayment_zero_amount | done].
  - intros Hu Ha Hamt Hsender Hthis Hne Hallow Hbal Hts.
    exists (deposit_result msg id agent amt tok w).
    split; [by apply depositPayment_Done|].
    split; [by rewrite payment_at_deposit_result, decide_True|].
    split.
    { intros id' Hid. by rewrite payment_at_deposit_result, decide_False. }
    unfold deposit_result. cbv zeta. rewrite !balanceOf_add_event.
    rewrite !balanceOf_set_payment.
    rewrite balanceOf_moved_to, balanceOf_moved_from by done.
    destruct (_ <? UINT256_MAX); (split; [done|]);
      change (balanceOf (set_allowance _ _ _ _ w) tok (sender msg))
        with (balanceOf w tok (sender msg)); lia.
Qed.

Lemma deposit_validates_then_escrows_witness :
  supportedToken_at setUp 200 = true /\
  (exists w', depositPayment as_user 7 1 10000 200 setUp = Done tt w' /\
              payment_at w' 7 = mkPayment 2 3 1 10000 200 Escrowed 1000 605800) /\
  rejected (depositPayment as_user 7 999 10000 200 setUp) UnknownAgent setUp /\
  rejected (depositPayment as_user 7 1 0 200 setUp) InvalidAmount setUp /\
  rejected (depositPayment as_user 7 1 10000 200
              (transact (depositPayment as_user 7 1 10000 200) setUp))
           DuplicateHold (transact (depositPayment as_user 7 1 10000 200) setUp).
Proof.
  assert (H : supportedToken_at setUp 200 = true) by (vm_compute; reflexivity).
  split; [exact H|]. split; [|split; [|split]].
  - destruct (proj2 (proj2 (proj2
        (deposit_validates_then_escrows as_user 7 1 10000 200 setUp H))))
      as (w' & Hd & Hp & _);
      [vm_compute; reflexivity | vm_compute; discriminate
      | vm_compute; reflexivity | vm_compute; discriminate
      | vm_compute; discriminate | vm_compute; discriminate
      | vm_compute; discriminate | vm_compute; discriminate
      | vm_compute; discriminate |].
    exists w'. split; [exact Hd | exact Hp].
  - apply (proj1 (proj2
        (deposit_validates_then_escrows as_user 7 999 10000 200 setUp H)));
      vm_compute; reflexivity.
  - apply (proj1 (proj2 (proj2
        (deposit_validates_then_escrows as_user 7 1 0 200 setUp H))));
      [vm_compute; reflexivity | vm_compute; discriminate | reflexivity].
  - apply (proj1 (deposit_validates_then_escrows as_user 7 1 10000 200
             (transact (depositPayment as_user 7 1 10000 200) setUp)
             ltac:(vm_compute; reflexivity))).
    vm_compute; discriminate.
Defined.

(** C6 as stated fails: an unused id, a registered agent and a positive
    amount do not make a deposit succeed; in a token off the supported list
    it reverts, with a reason that is none of the three validation errors. *)
Lemma deposit_needs_more_than_id_agent_amount :
  user (payment_at setUp 7) = 0 /\
  agentDeveloper_at setUp 1 = 3 /\
  depositPayment as_user 7 1 10000 201 setUp = Revert "Token not supported" setUp /\
  error_kind "Token not supported" = None /\
  status (payment_at (transact (depositPayment as_user 7 1 10000 201) setUp) 7)
    = Pending.
Proof. vm_compute. done. Qed.

(** **** Payments along the chain *)

Lemma transact_Done {W A} (m : M W A) w a w' : m w = Done a w' -> transact m w = w'.
Proof. unfold transact. by intros ->. Qed.

Lemma transact_cases {W} (m : M W unit) w :
  transact m w = w \/ m w = Done tt (transact m w).
Proof. unfold transact. destruct (m w) as [[] ?|]; auto. Qed.

Lemma admin_calls_keep_payments c msg w id :
  match c with
  | CallDeposit _ _ _ _ | CallRelease _ | CallRefund _ => False
  | _ => True
  end ->
  payment_at (transact (run c msg) w) id = payment_at w id.
Proof.
  intros Hc. destruct (transact_cases (run c msg) w) as [-> | H]; [done|].
  revert H. generalize (transact (run c msg) w). intros w' H.
  destruct c; try done; simpl in H;
    unfold registerAgent, setSupportedToken, setPlatformFee, grantRole,
      revokeRole, onlyRole in H;
    apply bind_Done_inv in H as ([] & ? & [_ ->]%require_Done_inv & H).
  - apply bind_Done_inv in H as ([] & ? & [_ ->]%require_Done_inv & H).
    unfold bind, modify, emit, modify in H. by injection H as <-.
  - unfold bind, modify, emit, modify in H. by injection H as <-.
  - apply bind_Done_inv in H as ([] & ? & [_ ->]%require_Done_inv & H).
    unfold bind, modify, emit, modify in H. by injection H as <-.
  - unfold bind at 1, gets in H. destruct (hasRole _ _ _).
    + unfold ret in H. by injection H as <-.
    + unfold bind, modify, emit, modify in H. injection H as <-.
      unfold payment_at. by destruct r.
  - unfold bind at 1, gets in H. destruct (hasRole _ _ _).
    + unfold bind, modify, emit, modify in H. injection H as <-.
      unfold payment_at. by destruct r.
    + unfold ret in H. by injection H as <-.
Qed.

(** What one transaction can do to the payment stored under [id]. *)
Lemma run_payment_at c msg w id :
  let w' := transact (run c msg) w in
  payment_at w' id = payment_at w id \/
  (user (payment_at w id) = 0 /\ sender msg <> 0 /\
   status (payment_at w' id) = Escrowed /\ user (payment_at w' id) = sender msg) \/
  (status (payment_at w id) = Escrowed /\
   (payment_at w' id = with_status Released (payment_at w id) \/
    payment_at w' id = with_status Refunded (payment_at w id))).
Proof.
  cbv zeta. destruct (transact_cases (run c msg) w) as [-> | H]; [by left|].
  revert H. generalize (transact (run c msg) w). intros w' H.
  destruct c as [id0 agent amt tok | id0 | id0 | | | | |];
    try (left; erewrite <- (transact_Done _ _ _ _ H);
         by apply admin_calls_keep_payments).
  - apply depositPayment_Done_inv in H as (_ & Hu & _ & _ & Hs & ->).
    rewrite payment_at_deposit_result.
    destruct (decide (id0 = id)) as [<-|]; [|by left]. right; left. done.
  - apply releasePayment_Done_inv in H as (_ & Hs & _ & _ & _ & _ & ->).
    rewrite payment_at_release_result.
    destruct (decide (id0 = id)) as [<-|]; [|by left]. right; right. auto.
  - apply refundPayment_Done_inv in H as (_ & Hs & _ & ->).
    rewrite payment_at_refund_result.
    destruct (decide (id0 = id)) as [<-|]; [|by left]. right; right. auto.
Qed.

Lemma step_payment_at w w' id :
  step w w' ->
  payment_at w' id = payment_at w id \/
  (user (payment_at w id) = 0 /\
   status (payment_at w' id) = Escrowed /\ user (payment_at w' id) <> 0) \/
  (status (payment_at w id) = Escrowed /\
   (payment_at w' id = with_status Released (payment_at w id) \/
    payment_at w' id = with_status Refunded (payment_at w id))).
Proof.
  intros [msg c w0 | w0 b a]; [|by left].
  destruct (run_payment_at c msg w0 id) as [H | [(Hu & Hs & Hst & Hu') | H]];
    [by left | | by right; right].
  right; left. rewrite Hu'. done.
Qed.

Lemma payer_recorded_step w w' : step w w' -> payer_recorded w -> payer_recorded w'.
Proof.
  intros Hstep Hinv id Hst.
  destruct (step_payment_at w w' id Hstep) as [E | [(_ & _ & Hu) | (Hs & [E | E])]].
  - rewrite E in *. by apply Hinv.
  - done.
  - rewrite E. simpl. apply Hinv. by rewrite Hs.
  - rewrite E. simpl. apply Hinv. by rewrite Hs.
Qed.

Lemma payer_recorded_deployed w : deployed w -> payer_recorded w.
Proof.
  intros (msg & recipient & fee & b & a & H) id Hst. exfalso. apply Hst. clear Hst.
  unfold constructor in H.
  apply bind_Done_inv in H as ([] & ? & [_ ->]%require_Done_inv & H).
  apply bind_Done_inv in H as ([] & ? & [_ ->]%require_Done_inv & H).
  unfold bind, modify, emit, modify in H. by injection H as <-.
Qed.

Lemma payer_recorded_rtc w w' : rtc step w w' -> payer_recorded w -> payer_recorded w'.
Proof. induction 1; eauto using payer_recorded_step. Qed.

Lemma payer_recorded_reachable w : reachable w -> payer_recorded w.
Proof.
  intros (w0 & Hd & Hr). eapply payer_recorded_rtc; [done|].
  by apply payer_recorded_deployed.
Qed.

Lemma reachable_rtc w w' : reachable w -> rtc step w w' -> reachable w'.
Proof. intros (w0 & Hd & Hr) H. exists w0. split; [done|]. by etrans. Qed.

(** A settled payment never changes again. *)
Lemma settled_step w w' id :
  step w w' -> payer_recorded w -> settled (payment_at w id) ->
  payment_at w' id = payment_at w id.
Proof.
  intros Hstep Hinv Hset.
  destruct (step_payment_at w w' id Hstep) as [E | [(Hu & _) | (Hs & _)]]; [done|..].
  - exfalso. apply (Hinv id); [|done]. destruct Hset as [-> | ->]; done.
  - destruct Hset as [H | H]; rewrite Hs in H; done.
Qed.

Lemma settled_rtc w w' id :
  rtc step w w' -> payer_recorded w -> settled (payment_at w id) ->
  payment_at w' id = payment_at w id.
Proof.
  induction 1 as [|w1 w2 w3 Hstep Hrtc IH]; [done|]. intros Hinv Hset.
  pose proof (settled_step _ _ _ Hstep Hinv Hset) as E.
  rewrite IH; [done | by eapply payer_recorded_step | by rewrite E].
Qed.

(** **** Settlement happens once *)

(** C2 as the code has it: once a release or a refund of a payment has
    succeeded, the payment record never changes again, whatever happens on
    the chain afterwards; every later release or refund of it reverts and
    leaves the world as it was (nothing is transferred), and for a caller
    with the orchestrator role the reason is "Payment not in escrow", the
    contract's one error for a payment that is not [Escrowed]. *)
Theorem settlement_is_final msg id w w1 :
  reachable w ->
  releasePayment msg id w = Done tt w1 \/ refundPayment msg id w = Done tt w1 ->
  forall w2, rtc step w1 w2 ->
    payment_at w2 id = payment_at w1 id /\
    (releasePayment msg id w = Done tt w1 -> status (payment_at w2 id) = Released) /\
    (refundPayment msg id w = Done tt w1 -> status (payment_at w2 id) = Refunded) /\
    forall caller,
      transact (releasePayment caller id) w2 = w2 /\
      transact (refundPayment caller id) w2 = w2 /\
      (hasRole w2 ORCHESTRATOR_ROLE (sender caller) = true ->
       rejected (releasePayment caller id w2) NotEscrowed w2 /\
       rejected (refundPayment caller id w2) NotEscrowed w2).
Proof.
  intros Hreach Hsettle w2 Hrtc.
  assert (Hstep : step w w1).
  { destruct Hsettle as [H | H].
    - rewrite <- (transact_Done _ _ _ _ H). apply (step_call msg (CallRelease id)).
    - rewrite <- (transact_Done _ _ _ _ H). apply (step_call msg (CallRefund id)). }
  assert (Hinv1 : payer_recorded w1).
  { eapply payer_recorded_step; [done|]. by apply payer_recorded_reachable. }
  assert (Hst1 : (releasePayment msg id w = Done tt w1 ->
                  status (payment_at w1 id) = Released) /\
                 (refundPayment msg id w = Done tt w1 ->
                  status (payment_at w1 id) = Refunded)).
  { split; intros H.
    - apply releasePayment_Done_inv in H as (_ & _ & _ & _ & _ & _ & ->).
      by rewrite payment_at_release_result, decide_True.
    - apply refundPayment_Done_inv in H as (_ & _ & _ & ->).
      by rewrite payment_at_refund_result, decide_True. }
  assert (Hset1 : settled (payment_at w1 id)).
  { destruct Hst1 as [Hrel Href]. destruct Hsettle as [H | H]; [left | right]; auto. }
  pose proof (settled_rtc _ _ id Hrtc Hinv1 Hset1) as E.
  split; [exact E|]. rewrite E.
  split; [apply Hst1|]. split; [apply Hst1|].
  assert (Hne : status (payment_at w2 id) <> Escrowed).
  { rewrite E. destruct Hset1 as [-> | ->]; done. }
  intros caller.
  destruct (hasRole w2 ORCHESTRATOR_ROLE (sender caller)) eqn:Hrole.
  - pose proof (releasePayment_not_escrowed caller id w2 Hrole Hne) as Hr1.
    pose proof (refundPayment_not_escrowed caller id w2 Hrole Hne) as Hr2.
    unfold transact. rewrite Hr1, Hr2.
    split; [done|]. split; [done|]. intros _.
    split; eexists; (split; [reflexivity | done]).
  - pose proof (releasePayment_unauthorized caller id w2 Hrole) as Hr1.
    pose proof (refundPayment_unauthorized caller id w2 Hrole) as Hr2.
    unfold transact. rewrite Hr1, Hr2. done.
Qed.

Lemma reachable_step w w' : reachable w -> step w w' -> reachable w'.
Proof. intros H Hs. eapply reachable_rtc; [done|]. by apply rtc_once. Qed.

Lemma reachable_setUp : reachable setUp.
Proof.
  unfold setUp. cbv zeta.
  set (w := transact (setSupportedToken deployer 200 true) _).
  apply (reachable_step w).
  2:{ apply (step_ledger w
        (balances (set_allowance 200 2 100 1000000 (set_balance 200 2 1000000 w)))
        (allowances (set_allowance 200 2 100 1000000 (set_balance 200 2 1000000 w)))). }
  subst w.
  eapply reachable_step; [|apply (step_call deployer (CallSetSupportedToken 200 true))].
  eapply reachable_step; [|apply (step_call deployer (CallRegisterAgent 1 3))].
  eapply reachable_step; [|apply (step_call deployer (CallGrantRole ORCHESTRATOR_ROLE 4))].
  exists (transact (constructor deployer 1 250) empty_world). split; [|done].
  exists deployer, 1, 250, ∅, ∅. vm_compute. reflexivity.
Qed.

Lemma settlement_is_final_witness :
  let w := transact (depositPayment as_user 7 1 10000 200) setUp in
  let w1 := transact (releasePayment as_orchestrator 7) w in
  let w2 := transact (depositPayment as_user 8 1 500 200) w1 in
  releasePayment as_orchestrator 7 w = Done tt w1 /\
  status (payment_at w2 7) = Released /\
  status (payment_at w2 8) = Escrowed /\
  transact (refundPayment as_orchestrator 7) w2 = w2 /\
  rejected (releasePayment as_orchestrator 7 w2) NotEscrowed w2.
Proof.
  cbv zeta.
  assert (Hrel : releasePayment as_orchestrator 7
                   (transact (depositPayment as_user 7 1 10000 200) setUp)
                 = Done tt (transact (releasePayment as_orchestrator 7)
                     (transact (depositPayment as_user 7 1 10000 200) setUp)))
    by (vm_compute; reflexivity).
  split; [exact Hrel|].
  destruct (settlement_is_final as_orchestrator 7
              (transact (depositPayment as_user 7 1 10000 200) setUp)
              (transact (releasePayment as_orchestrator 7)
                 (transact (depositPayment as_user 7 1 10000 200) setUp))
              (reachable_step _ _ reachable_setUp
                 (step_call as_user (CallDeposit 7 1 10000 200) setUp))
              (or_introl Hrel)
              (transact (depositPayment as_user 8 1 500 200)
                 (transact (releasePayment as_orchestrator 7)
                    (transact (depositPayment as_user 7 1 10000 200) setUp)))
              (rtc_once _ _ (step_call as_user (CallDeposit 8 1 500 200) _)))
    as (_ & Hst & _ & Hcalls).
  split; [exact (Hst Hrel)|]. split; [vm_compute; reflexivity|].
  destruct (Hcalls as_orchestrator) as (_ & Href & Hrej).
  split; [exact Href|]. refine (proj1 (Hrej _)). vm_compute. reflexivity.
Defined.

(** C2 as stated fails on the error: the contract has no AlreadyTerminal.
    A second release, and a refund, of the released payment 7 revert with
    "Payment not in escrow", the same reason as a release of payment 8,
    which was never deposited. *)
Lemma settled_payment_reports_not_in_escrow :
  let w := transact (depositPayment as_user 7 1 10000 200) setUp in
  let w1 := transact (releasePayment as_orchestrator 7) w in
  status (payment_at w1 7) = Released /\
  status (payment_at w1 8) = Pending /\
  releasePayment as_orchestrator 7 w1 = Revert "Payment not in escrow" w1 /\
  refundPayment as_orchestrator 7 w1 = Revert "Payment not in escrow" w1 /\
  releasePayment as_orchestrator 8 w1 = Revert "Payment not in escrow" w1 /\
  error_kind "Payment not in escrow" = Some NotEscrowed.
Proof. vm_compute. done. Qed.
End EscrowFacts.

(** ** Receipts *)

Module ReceiptFacts.
Import JS Receipts.

Lemma findUnique_Some db id e : findUnique db id = Some e -> exec_id e = id /\ In e db.
Proof.
  unfold findUnique. intros H. apply List.find_some in H as [Hin Heq].
  by apply String.eqb_eq in Heq.
Qed.

Lemma generateReceipt_inr db now id r :
  generateReceipt db now id = inr r ->
  exists e, findUnique db id = Some e /\ in_progress (exec_status e) = false /\
            executionId r = id /\ timestamp r = exec_startTime e /\
            receiptId r = generateReceiptId id (exec_startTime e) /\
            completedAt r = default now (exec_endTime e).
Proof.
  unfold generateReceipt. destruct (findUnique db id) as [e|] eqn:Hf; [|done].
  destruct (in_progress _) eqn:Hp; [done|]. intros [= <-]. simpl.
  apply findUnique_Some in Hf as Hid. destruct Hid as [Hid _]. rewrite Hid.
  exists e. done.
Qed.

Lemma findMany_In db wh take skip e :
  In e (findMany db wh take skip) -> In e db /\ matches wh e = true.
Proof.
  unfold findMany. intros H.
  apply list_elem_of_In in H.
  apply (subseteq_take (N.to_nat take)), (subseteq_drop (N.to_nat skip)) in H.
  rewrite merge_sort_Permutation in H.
  apply list_elem_of_In, List.filter_In in H. done.
Qed.

Lemma findMany_length db wh take skip :
  List.length (findMany db wh take skip)
  = (N.to_nat take `min` (List.length (List.filter (matches wh) db) - N.to_nat skip))%nat.
Proof.
  unfold findMany. rewrite length_take, length_drop.
  by rewrite (Permutation_length (merge_sort_Permutation _ _)).
Qed.

Lemma listReceipts_In db opts s :
  In s (listReceipts db opts) ->
  exists e, In e db /\ s = summarize e.
Proof.
  unfold listReceipts. cbv zeta. intros H. apply in_map_iff in H as (e & <- & Hin).
  exists e. split; [|done]. by apply findMany_In in Hin as [? _].
Qed.

Lemma listReceipts_length db opts :
  List.length (listReceipts db opts)
  = (N.to_nat (number_or DEFAULT_LIMIT (opt_limit opts))
     `min` (List.length (List.filter (matches (where_of opts)) db)
            - N.to_nat (number_or 0 (opt_offset opts))))%nat.
Proof. unfold listReceipts. cbv zeta. by rewrite length_map, findMany_length. Qed.


(** C8 as the code has it: the receipt id is "rcpt_" and the first 16 hex
    digits of the SHA-256 of the execution id, a colon and the execution's
    start time in milliseconds.  Nothing else enters it: two runs of
    [generateReceipt], over any two states of the table and at any two
    clocks, give the same id when the stored execution has the same id and
    start time, and [listReceipts] reports that id too. *)
Theorem receipt_id_reproducible db1 db2 now1 now2 id r1 r2 :
  generateReceipt db1 now1 id = inr r1 ->
  generateReceipt db2 now2 id = inr r2 ->
  timestamp r1 = timestamp r2 ->
  receiptId r1 = receiptId r2 /\
  receiptId r1 =
    "rcpt_" ++ String.substring 0 16
                 (Sha256.sha256_hex (id ++ ":" ++ number_to_string (timestamp r1))) /\
  (forall opts s,
     In s (listReceipts db1 opts) ->
     summary_executionId s = id -> summary_timestamp s = timestamp r1 ->
     summary_receiptId s = receiptId r1).
Proof.
  intros H1 H2 Ht.
  apply generateReceipt_inr in H1 as (e1 & _ & _ & _ & Ht1 & Hr1 & _).
  apply generateReceipt_inr in H2 as (e2 & _ & _ & _ & Ht2 & Hr2 & _).
  assert (E : exec_startTime e1 = exec_startTime e2) by congruence.
  rewrite Hr1, Hr2, Ht1, E. split; [done|]. split; [done|].
  intros opts s Hin Hid Hts.
  apply listReceipts_In in Hin as (e & _ & ->). simpl in *.
  by rewrite Hid, Hts.
Qed.

Lemma receipt_id_reproducible_witness :
  let early := [sample "exec_1" 1700000000000 None] in
  let late := [sample "exec_0" 1600000000000 None;
               sample "exec_1" 1700000000000 (Some 1700000009000%Z)] in
  (exists r1 r2,
     generateReceipt early 1700000005000 "exec_1" = inr r1 /\
     generateReceipt late 1800000000000 "exec_1" = inr r2 /\
     completedAt r1 <> completedAt r2 /\
     receiptId r1 = receiptId r2 /\
     receiptId r1 = "rcpt_ac7b62d071abdd63").
Proof.
  cbv zeta.
  destruct (generateReceipt [sample "exec_1" 1700000000000 None]
              1700000005000 "exec_1") as [|r1] eqn:H1; [vm_compute in H1; discriminate|].
  destruct (generateReceipt [sample "exec_0" 1600000000000 None;
                             sample "exec_1" 1700000000000 (Some 1700000009000%Z)]
              1800000000000 "exec_1") as [|r2] eqn:H2; [vm_compute in H2; discriminate|].
  exists r1, r2. split; [done|]. split; [done|].
  assert (Ht : timestamp r1 = timestamp r2).
  { vm_compute in H1, H2. injection H1 as <-. injection H2 as <-. reflexivity. }
  destruct (receipt_id_reproducible _ _ _ _ _ _ _ H1 H2 Ht) as (Heq & Hid & _).
  split; [|split; [exact Heq|]].
  - vm_compute in H1, H2. injection H1 as <-. injection H2 as <-. vm_compute. discriminate.
  - rewrite Hid. vm_compute in H1. injection H1 as <-. vm_compute. reflexivity.
Defined.

(** C8 as stated fails: the id does not come from the terminal timestamp.
    Two executions with the same id that ended at the same instant but
    started at different ones get different receipt ids, and the id of an
    execution is the same whenever it ends. *)
Lemma receipt_id_ignores_terminal_timestamp :
  let a := sample "exec_1" 1700000000000 (Some 1700000009000%Z) in
  let b := sample "exec_1" 1700000001000 (Some 1700000009000%Z) in
  let c := sample "exec_1" 1700000000000 (Some 1700000099000%Z) in
  exec_id a = exec_id b /\ exec_endTime a = exec_endTime b /\
  receipt_id_of [a] 0 "exec_1" = Some "rcpt_ac7b62d071abdd63" /\
  receipt_id_of [b] 0 "exec_1" = Some "rcpt_4e819858449a35cf" /\
  receipt_id_of [c] 0 "exec_1" = Some "rcpt_ac7b62d071abdd63".
Proof. vm_compute. done. Qed.

End ReceiptFacts.

(** ** Query sizes *)

Module QueryFacts.
Import JS.

Lemma number_or_cases d o :
  number_or d o = d \/ exists n, o = Some n /\ 0 < n /\ number_or d o = n.
Proof.
  destruct o as [n|]; [|by left]. simpl.
  destruct (n =? 0) eqn:E; [by left|]. right. exists n.
  apply N.eqb_neq in E. split; [done|]. split; [lia|done].
Qed.

Lemma slice_last_length {A} n (l : list A) :
  0 < n -> (List.length (slice_last n l) <= N.to_nat n)%nat.
Proof.
  intros Hn. unfold slice_last.
  destruct (n =? 0) eqn:E; [apply N.eqb_eq in E; lia|].
  rewrite length_skipn. lia.
Qed.

Lemma slice_last_sublist {A} n (l : list A) : slice_last n l `sublist_of` l.
Proof. unfold slice_last. destruct (n =? 0); [done|]. apply sublist_drop. Qed.

Lemma filter_sublist {A} (f : A -> bool) (l : list A) : List.filter f l `sublist_of` l.
Proof.
  induction l as [|x l IH]; simpl; [done|].
  destruct (f x); [by apply sublist_skip | by apply sublist_cons].
Qed.

Lemma filter_replicate {A} (f : A -> bool) n x :
  f x = true -> List.filter f (replicate n x) = replicate n x.
Proof. intros H. induction n as [|n IH]; simpl; [done|]. by rewrite H, IH. Qed.

Lemma query_sublist cfg f svc :
  fst (Audit.query cfg f svc) `sublist_of` Audit.events svc.
Proof.
  unfold Audit.query. destruct (negb _); simpl; [apply sublist_nil_l|].
  etrans; [apply slice_last_sublist|].
  repeat match goal with
         | |- context [match ?o with Some _ => _ | None => _ end] =>
             destruct o as [[|? ?]|] || destruct o
         | |- List.filter _ _ `sublist_of` _ => etrans; [apply filter_sublist|]
         end; done.
Qed.

Lemma query_length cfg f svc :
  (List.length (fst (Audit.query cfg f svc))
   <= N.to_nat (number_or Audit.DEFAULT_LIMIT (Audit.limit f)))%nat.
Proof.
  unfold Audit.query. destruct (negb _); simpl; [lia|].
  apply slice_last_length.
  destruct (number_or_cases Audit.DEFAULT_LIMIT (Audit.limit f))
    as [-> | (n & _ & Hn & ->)]; [done | done].
Qed.

Lemma log_keeps_cap cfg now rnd ev svc :
  (List.length (Audit.events svc) <= N.to_nat Audit.MAX_EVENTS)%nat ->
  (List.length (Audit.events (snd (Audit.log cfg now rnd ev svc)))
   <= N.to_nat Audit.MAX_EVENTS)%nat.
Proof.
  intros H. unfold Audit.log, Audit.generateEventId. simpl.
  destruct (Audit.enabled cfg); simpl; [|done].
  destruct (_ <=? Audit.MAX_EVENTS) eqn:E.
  - apply N.leb_le in E. lia.
  - by apply slice_last_length.
Qed.


Lemma listReceipts_replicate n :
  0 < n ->
  List.length (Receipts.listReceipts
                 (replicate (N.to_nat n) (Receipts.sample "exec_1" 0 None))
                 (Receipts.with_limit n)) = N.to_nat n.
Proof.
  intros Hn. rewrite ReceiptFacts.listReceipts_length.
  rewrite filter_replicate by done. rewrite length_replicate. simpl.
  destruct (n =? 0) eqn:E; [apply N.eqb_eq in E; lia|]. lia.
Qed.

(** C9 as the code has it.  Both queries only read: [listReceipts] is a
    function of the stored rows, [query] gives the service back unchanged.
    With no limit (or a limit of 0) the default applies, 50 receipts and 100
    audit events; a positive limit replaces the default and bounds the
    result.  The limit itself has no ceiling: for every [n] some table makes
    [listReceipts] return [n] rows.  Audit results are further bounded by the
    events kept, which [log] holds at 10000 or fewer. *)
Theorem query_results_bounded_by_limit :
  (forall db opts,
     (List.length (Receipts.listReceipts db opts)
      <= N.to_nat (number_or 50 (Receipts.opt_limit opts)))%nat) /\
  (forall cfg f svc,
     snd (Audit.query cfg f svc) = svc /\
     (List.length (fst (Audit.query cfg f svc))
      <= N.to_nat (number_or 100 (Audit.limit f)))%nat /\
     (List.length (fst (Audit.query cfg f svc))
      <= List.length (Audit.events svc))%nat) /\
  (forall d n, number_or d None = d /\ number_or d (Some 0) = d /\
               (0 < n -> number_or d (Some n) = n)) /\
  (forall n, 0 < n ->
     exists db, List.length (Receipts.listReceipts db (Receipts.with_limit n))
                = N.to_nat n) /\
  (forall cfg now rnd ev svc,
     (List.length (Audit.events svc) <= N.to_nat 10000)%nat ->
     (List.length (Audit.events (snd (Audit.log cfg now rnd ev svc)))
      <= N.to_nat 10000)%nat).
Proof.
  split; [|split; [|split; [|split]]].
  - intros db opts. rewrite ReceiptFacts.listReceipts_length.
    change Receipts.DEFAULT_LIMIT with 50. lia.
  - intros cfg f svc. split; [|split].
    + unfold Audit.query. by destruct (negb _).
    + apply query_length.
    + apply sublist_length, query_sublist.
  - intros d n. split; [done|]. split; [done|]. intros Hn. simpl.
    destruct (n =? 0) eqn:E; [apply N.eqb_eq in E; lia | done].
  - intros n Hn. eexists. by apply listReceipts_replicate.
  - intros cfg now rnd ev svc H. by apply log_keeps_cap.
Qed.

(** C9 as stated fails: no hard maximum stands above the caller's limit.
    With a limit of 100000, [listReceipts] returns 100000 receipts from a
    table that holds as many finished executions; and so for any limit. *)
Lemma receipts_limit_has_no_maximum :
  List.length (Receipts.listReceipts
                 (replicate (N.to_nat 100000) (Receipts.sample "exec_1" 0 None))
                 (Receipts.with_limit 100000)) = N.to_nat 100000 /\
  (forall maximum : nat, exists db opts,
     (maximum < List.length (Receipts.listReceipts db opts))%nat).
Proof.
  split; [by apply listReceipts_replicate|].
  intros maximum.
  exists (replicate (N.to_nat (N.of_nat (S maximum))) (Receipts.sample "exec_1" 0 None)),
         (Receipts.with_limit (N.of_nat (S maximum))).
  rewrite listReceipts_replicate by lia. lia.
Qed.

End QueryFacts.

(** ** More on the escrow contract *)

Module EscrowInvariants.
Import Escrow EscrowChain EscrowFacts.

(** **** The administrative calls, inverted *)

Lemma setPlatformFee_Done_inv msg fee w w' :
  setPlatformFee msg fee w = Done tt w' ->
  hasRole w DEFAULT_ADMIN_ROLE (sender msg) = true /\ fee <= MAX_PLATFORM_FEE /\
  w' = add_event (PlatformFeeUpdated fee) (set_platformFeePercentage fee w).
Proof.
  unfold setPlatformFee, onlyRole. intros H.
  apply bind_Done_inv in H as ([] & ? & [Hr ->]%require_Done_inv & H).
  apply bind_Done_inv in H as ([] & ? & [Hf ->]%require_Done_inv & H).
  unfold bind, modify, emit, modify in H. injection H as <-.
  apply N.leb_le in Hf. done.
Qed.

Lemma registerAgent_Done_inv msg agent dev w w' :
  registerAgent msg agent dev w = Done tt w' ->
  hasRole w DEFAULT_ADMIN_ROLE (sender msg) = true /\ dev <> 0 /\
  w' = add_event (AgentRegistered agent dev) (set_agentDeveloper agent dev w).
Proof.
  unfold registerAgent, onlyRole. intros H.
  apply bind_Done_inv in H as ([] & ? & [Hr ->]%require_Done_inv & H).
  apply bind_Done_inv in H as ([] & ? & [Hd ->]%require_Done_inv & H).
  unfold bind, modify, emit, modify in H. injection H as <-.
  apply negb_true_iff, N.eqb_neq in Hd. done.
Qed.

Lemma setSupportedToken_Done_inv msg tok b w w' :
  setSupportedToken msg tok b w = Done tt w' ->
  hasRole w DEFAULT_ADMIN_ROLE (sender msg) = true /\
  w' = add_event (TokenSupportUpdated tok b) (set_supportedToken tok b w).
Proof.
  unfold setSupportedToken, onlyRole. intros H.
  apply bind_Done_inv in H as ([] & ? & [Hr ->]%require_Done_inv & H).
  unfold bind, modify, emit, modify in H. injection H as <-. done.
Qed.

Lemma grantRole_Done_inv msg r a w w' :
  grantRole msg r a w = Done tt w' ->
  hasRole w DEFAULT_ADMIN_ROLE (sender msg) = true /\
  (w' = w \/
   w' = add_event (RoleGranted r a (sender msg))
          (set_role_members r (fun g => {[a]} ∪ g) w)).
Proof.
  unfold grantRole, onlyRole. intros H.
  apply bind_Done_inv in H as ([] & ? & [Hr ->]%require_Done_inv & H).
  unfold bind at 1, gets in H. split; [done|]. destruct (hasRole w r a).
  - unfold ret in H. injection H as <-. by left.
  - unfold bind, modify, emit, modify in H. injection H as <-. by right.
Qed.

Lemma revokeRole_Done_inv msg r a w w' :
  revokeRole msg r a w = Done tt w' ->
  hasRole w DEFAULT_ADMIN_ROLE (sender msg) = true /\
  (w' = w \/
   w' = add_event (RoleRevoked r a (sender msg))
          (set_role_members r (fun g => g ∖ {[a]}) w)).
Proof.
  unfold revokeRole, onlyRole. intros H.
  apply bind_Done_inv in H as ([] & ? & [Hr ->]%require_Done_inv & H).
  unfold bind at 1, gets in H. split; [done|]. destruct (hasRole w r a).
  - unfold bind, modify, emit, modify in H. injection H as <-. by right.
  - unfold ret in H. injection H as <-. by left.
Qed.

Lemma constructor_Done_inv msg recipient fee w w' :
  constructor msg recipient fee w = Done tt w' ->
  recipient <> 0 /\ fee <= MAX_PLATFORM_FEE /\
  payments (store w') = payments (store w) /\
  platformFeePercentage (store w') = fee /\
  platformFeeRecipient (store w') = recipient /\
  balances w' = balances w /\ allowances w' = allowances w.
Proof.
  unfold constructor. intros H.
  apply bind_Done_inv in H as ([] & ? & [Hr ->]%require_Done_inv & H).
  apply bind_Done_inv in H as ([] & ? & [Hf ->]%require_Done_inv & H).
  unfold bind, modify, emit, modify in H. injection H as <-.
  apply negb_true_iff, N.eqb_neq in Hr. apply N.leb_le in Hf. done.
Qed.

Lemma run_effect c msg w : effect msg w c (transact (run c msg) w).
Proof.
  destruct (transact_cases (run c msg) w) as [-> | H]; [constructor|].
  revert H. generalize (transact (run c msg) w). intros w' H.
  destruct c; simpl in H.
  - pose proof H as H'.
    apply depositPayment_Done_inv in H as (? & ? & ? & ? & ? & ->).
    by constructor.
  - pose proof H as H'.
    apply releasePayment_Done_inv in H as (_ & _ & _ & _ & _ & _ & ->).
    by constructor.
  - pose proof H as H'. apply refundPayment_Done_inv in H as (_ & _ & _ & ->).
    by constructor.
  - apply registerAgent_Done_inv in H as (? & ? & ->). by constructor.
  - apply setSupportedToken_Done_inv in H as (? & ->). by constructor.
  - apply setPlatformFee_Done_inv in H as (? & ? & ->). by constructor.
  - apply grantRole_Done_inv in H as (? & [-> | ->]); by constructor.
  - apply revokeRole_Done_inv in H as (? & [-> | ->]); by constructor.
Qed.


(** **** Stored payments stay well formed *)

Lemma payment_wf_zero : payment_wf zeroPayment.
Proof. done. Qed.

Lemma payment_wf_with_status st p :
  payment_wf p -> status p = Escrowed -> st = Released \/ st = Refunded ->
  payment_wf (with_status st p).
Proof.
  unfold payment_wf. intros H Hs Hst. rewrite Hs in H.
  destruct Hst as [-> | ->]; exact H.
Qed.

Lemma effect_payment_wf msg w c w' :
  effect msg w c w' ->
  (forall id, payment_wf (payment_at w id)) ->
  forall id, payment_wf (payment_at w' id).
Proof.
  intros He Hwf id'. destruct He as [c| id agent amt tok Hs Hu Ha Hamt Hsender _
    | id Hrun | id Hrun | | | | | ]; try exact (Hwf id').
  - rewrite payment_at_deposit_result.
    destruct (decide (id = id')); [|exact (Hwf id')].
    unfold payment_wf; simpl. done.
  - rewrite payment_at_release_result.
    destruct (decide (id = id')); [|exact (Hwf id')].
    apply releasePayment_Done_inv in Hrun as (_ & Hst & _).
    apply payment_wf_with_status; auto.
  - rewrite payment_at_refund_result.
    destruct (decide (id = id')); [|exact (Hwf id')].
    apply refundPayment_Done_inv in Hrun as (_ & Hst & _).
    apply payment_wf_with_status; auto.
Qed.

Lemma step_payment_wf w w' :
  step w w' ->
  (forall id, payment_wf (payment_at w id)) ->
  forall id, payment_wf (payment_at w' id).
Proof.
  intros [msg c w0 | w0 b a] Hwf; [|exact Hwf].
  eapply effect_payment_wf; [apply run_effect | exact Hwf].
Qed.

Lemma deployed_payment_at w id : deployed w -> payment_at w id = zeroPayment.
Proof.
  intros (msg & recipient & fee & b & a & H).
  apply constructor_Done_inv in H as (_ & _ & Hp & _).
  unfold payment_at. rewrite Hp. done.
Qed.

(** Induction over the reachable worlds. *)
Lemma reachable_ind (P : World -> Prop) :
  (forall w, deployed w -> P w) ->
  (forall w w', reachable w -> step w w' -> P w -> P w') ->
  forall w, reachable w -> P w.
Proof.
  intros Hbase Hstep w (w0 & Hd & Hr). revert w Hr.
  apply (rtc_ind_r (fun w => P w) w0); [by apply Hbase|].
  intros w1 w2 Hr Hs IH. apply (Hstep w1); [by exists w0 | done | done].
Qed.

Lemma reachable_payment_wf w : reachable w -> forall id, payment_wf (payment_at w id).
Proof.
  revert w. apply (reachable_ind (fun w => forall id, payment_wf (payment_at w id))).
  - intros w Hd id. rewrite deployed_payment_at by done. apply payment_wf_zero.
  - intros w w' _ Hs IH. by apply (step_payment_wf w).
Qed.


(** **** The terms of a payment are fixed by its deposit *)

Lemma with_status_same p : with_status (status p) p = p.
Proof. by destruct p. Qed.

Lemma with_status_twice s1 s2 p : with_status s2 (with_status s1 p) = with_status s2 p.
Proof. done. Qed.

Lemma effect_terms msg w c w' id :
  effect msg w c w' ->
  payment_wf (payment_at w id) ->
  status (payment_at w id) <> Pending ->
  status (payment_at w' id) <> Pending /\
  payment_at w' id = with_status (status (payment_at w' id)) (payment_at w id).
Proof.
  intros He Hwf Hst.
  assert (Hsame : payment_at w' id = payment_at w id ->
                  status (payment_at w' id) <> Pending /\
                  payment_at w' id
                  = with_status (status (payment_at w' id)) (payment_at w id)).
  { intros ->. by rewrite with_status_same. }
  destruct He as [c| id0 agent amt tok Hs Hu Ha Hamt Hsender _
    | id0 Hrun | id0 Hrun | | | | | ]; try (by apply Hsame).
  - destruct (decide (id0 = id)) as [->|Hne].
    + exfalso. unfold payment_wf in Hwf.
      destruct (status (payment_at w id)); try done; by destruct Hwf.
    + apply Hsame. by rewrite payment_at_deposit_result, decide_False.
  - destruct (decide (id0 = id)) as [->|Hne].
    + rewrite payment_at_release_result, decide_True by done. done.
    + apply Hsame. by rewrite payment_at_release_result, decide_False.
  - destruct (decide (id0 = id)) as [->|Hne].
    + rewrite payment_at_refund_result, decide_True by done. done.
    + apply Hsame. by rewrite payment_at_refund_result, decide_False.
Qed.

Lemma step_terms w w' id :
  step w w' ->
  payment_wf (payment_at w id) ->
  status (payment_at w id) <> Pending ->
  status (payment_at w' id) <> Pending /\
  payment_at w' id = with_status (status (payment_at w' id)) (payment_at w id).
Proof.
  intros [msg c w0 | w0 b a] Hwf Hst.
  - eapply effect_terms; [apply run_effect | done | done].
  - split; [done|]. symmetry. apply with_status_same.
Qed.

Lemma rtc_terms w w' id :
  rtc step w w' ->
  reachable w ->
  status (payment_at w id) <> Pending ->
  status (payment_at w' id) <> Pending /\
  payment_at w' id = with_status (status (payment_at w' id)) (payment_at w id).
Proof.
  induction 1 as [w | w w1 w2 Hs Hr IH]; intros Hreach Hst.
  - split; [done|]. symmetry. apply with_status_same.
  - destruct (step_terms w w1 id Hs (reachable_payment_wf w Hreach id) Hst)
      as [Hst1 E1].
    destruct (IH (reachable_step _ _ Hreach Hs) Hst1) as [Hst2 E2].
    split; [done|]. rewrite E2 at 1. rewrite E1. apply with_status_twice.
Qed.


(** X1: Once a payment is deposited its payer, payee, agent, amount, token and
    dates never change, whatever happens on the chain: only the status
    moves, and never back to [Pending].  In particular a later
    [registerAgent] for the same agent does not redirect the payout. *)
Theorem payment_terms_are_final w w' id :
  reachable w -> rtc step w w' ->
  status (payment_at w id) <> Pending ->
  let p := payment_at w id in
  let p' := payment_at w' id in
  user p' = user p /\ developer p' = developer p /\ agentId p' = agentId p /\
  amount p' = amount p /\ token p' = token p /\
  createdAt p' = createdAt p /\ expiresAt p' = expiresAt p /\
  status p' <> Pending.
Proof.
  intros Hreach Hr Hst. cbv zeta.
  destruct (rtc_terms w w' id Hr Hreach Hst) as [Hst' E].
  split_and!; try exact Hst'; by rewrite E.
Qed.

Lemma payment_terms_are_final_witness :
  let w := transact (depositPayment as_user 7 1 10000 200) setUp in
  let w' := transact (registerAgent deployer 1 55) w in
  agentDeveloper_at w 1 = 3 /\ agentDeveloper_at w' 1 = 55 /\
  developer (payment_at w' 7) = developer (payment_at w 7) /\
  amount (payment_at w' 7) = amount (payment_at w 7).
Proof.
  cbv zeta. split; [vm_compute; reflexivity|]. split; [vm_compute; reflexivity|].
  destruct (payment_terms_are_final
              (transact (depositPayment as_user 7 1 10000 200) setUp)
              (transact (registerAgent deployer 1 55)
                 (transact (depositPayment as_user 7 1 10000 200) setUp)) 7
              (reachable_step _ _ reachable_setUp
                 (step_call as_user (CallDeposit 7 1 10000 200) setUp))
              (rtc_once _ _ (step_call deployer (CallRegisterAgent 1 55) _))
              ltac:(vm_compute; discriminate))
    as (_ & Hd & _ & Ha & _).
  split; [exact Hd | exact Ha].
Defined.

(** **** The fee is capped *)

Lemma store_deposit_result msg id agent amt tok w :
  store (deposit_result msg id agent amt tok w)
  = store (set_payment id
             (mkPayment (sender msg) (agentDeveloper_at w agent) agent amt tok
                        Escrowed (timestamp msg) (timestamp msg + PAYMENT_EXPIRY)) w).
Proof. unfold deposit_result. cbv zeta. by destruct (_ <? UINT256_MAX). Qed.

Lemma store_release_result msg id w :
  store (release_result msg id w)
  = store (set_payment id (with_status Released (payment_at w id)) w).
Proof. unfold release_result. cbv zeta. by destruct (0 <? _). Qed.

Lemma store_refund_result msg id w :
  store (refund_result msg id w)
  = store (set_payment id (with_status Refunded (payment_at w id)) w).
Proof. done. Qed.

Lemma effect_fee_capped msg w c w' : effect msg w c w' -> fee_capped w -> fee_capped w'.
Proof.
  intros He Hc. destruct He; try exact Hc; unfold fee_capped in *;
    rewrite ?store_deposit_result, ?store_release_result; simpl;
    try exact Hc; destruct Hc; split; done.
Qed.

Lemma reachable_fee_capped w : reachable w -> fee_capped w.
Proof.
  revert w. apply (reachable_ind fee_capped).
  - intros w (msg & recipient & fee & b & a & H).
    apply constructor_Done_inv in H as (? & ? & _ & Hf & Hr & _).
    unfold fee_capped. by rewrite Hf, Hr.
  - intros w w' _ [msg c w0 | w0 b a] IH; [|exact IH].
    eapply effect_fee_capped; [apply run_effect | exact IH].
Qed.

(** X2: In every world the chain can reach the fee is at most 1000 basis
    points, so a release gives the platform at most a tenth of the amount
    and the developer the rest. *)
Theorem release_fee_at_most_a_tenth w msg id w' :
  reachable w ->
  releasePayment msg id w = Done tt w' ->
  let p := payment_at w id in
  platformFeePercentage (store w) <= 1000 /\
  exists payee fee,
    events w' = (events w ++ [PaymentReleased id (developer p) payee fee])%list /\
    payee + fee = amount p /\ 10 * fee <= amount p.
Proof.
  intros Hreach Hrun. cbv zeta.
  destruct (reachable_fee_capped w Hreach) as [Hcap _].
  split; [exact Hcap|].
  apply releasePayment_Done_inv in Hrun as (_ & _ & _ & Hfee & _ & _ & ->).
  unfold release_fee in Hfee.
  exists (amount (payment_at w id) - release_fee w id), (release_fee w id).
  split; [|split].
  - unfold release_result. cbv zeta. unfold add_event; simpl.
    by destruct (0 <? _).
  - unfold release_fee. lia.
  - unfold release_fee.
    set (A := amount (payment_at w id)) in *.
    set (f := platformFeePercentage (store w)) in *.
    pose proof (N.Div0.mul_div_le (A * f) 10000) as Hq.
    assert (A * f <= A * 1000) by (apply N.mul_le_mono_l; exact Hcap).
    lia.
Qed.

Lemma release_fee_at_most_a_tenth_witness :
  let w := transact (setPlatformFee deployer 1000)
             (transact (depositPayment as_user 7 1 10000 200) setUp) in
  exists w', releasePayment as_orchestrator 7 w = Done tt w' /\
             last (events w') = Some (PaymentReleased 7 3 9000 1000).
Proof.
  cbv zeta.
  exists (transact (releasePayment as_orchestrator 7)
            (transact (setPlatformFee deployer 1000)
               (transact (depositPayment as_user 7 1 10000 200) setUp))).
  assert (Hrun : releasePayment as_orchestrator 7
            (transact (setPlatformFee deployer 1000)
               (transact (depositPayment as_user 7 1 10000 200) setUp))
          = Done tt (transact (releasePayment as_orchestrator 7)
            (transact (setPlatformFee deployer 1000)
               (transact (depositPayment as_user 7 1 10000 200) setUp))))
    by (vm_compute; reflexivity).
  split; [exact Hrun|].
  destruct (release_fee_at_most_a_tenth _ as_orchestrator 7 _
              (reachable_step _ _
                 (reachable_step _ _ reachable_setUp
                    (step_call as_user (CallDeposit 7 1 10000 200) setUp))
                 (step_call deployer (CallSetPlatformFee 1000) _))
              Hrun) as (_ & payee & fee & He & _ & _).
  clear Hrun He. vm_compute. reflexivity.
Defined.

(** **** Roles *)




(** **** Deposit and refund *)

Lemma depositPayment_Done_funds msg id agent amt tok w w' :
  depositPayment msg id agent amt tok w = Done tt w' ->
  amt <= balanceOf w tok (sender msg) /\
  ((allowance w tok (sender msg) (this msg) <? UINT256_MAX) = true ->
   amt <= allowance w tok (sender msg) (this msg)).
Proof.
  unfold depositPayment. intros H.
  apply bind_Done_inv in H as ([] & w1 & [_ ->]%require_Done_inv & H).
  apply bind_Done_inv in H as ([] & w1 & [_ ->]%require_Done_inv & H).
  apply bind_Done_inv in H as ([] & w1 & [_ ->]%require_Done_inv & H).
  apply bind_Done_inv in H as ([] & w1 & [_ ->]%require_Done_inv & H).
  unfold bind at 1, gets at 1 in H.
  apply bind_Done_inv in H as ([] & w1 & Htr & _).
  unfold safeTransferFrom in Htr.
  apply bind_Done_inv in Htr as ([] & w0 & Hsp & Htr).
  apply erc20_transfer_Done_inv in Htr as (_ & _ & Hbal & _).
  unfold erc20_spendAllowance, bind at 1, gets in Hsp.
  destruct (_ <? UINT256_MAX) eqn:E.
  - apply bind_Done_inv in Hsp as ([] & ? & [Ha ->]%require_Done_inv & Hsp).
    apply bind_Done_inv in Hsp as ([] & ? & [_ ->]%require_Done_inv & Hsp).
    apply bind_Done_inv in Hsp as ([] & ? & [_ ->]%require_Done_inv & Hsp).
    unfold modify in Hsp. injection Hsp as <-. apply N.leb_le in Ha.
    split; [exact Hbal | done].
  - unfold ret in Hsp. injection Hsp as <-. split; [exact Hbal | done].
Qed.

Lemma balanceOf_deposit_result msg id agent amt tok w tok' who :
  balanceOf (deposit_result msg id agent amt tok w) tok' who
  = balanceOf (moved tok (sender msg) (this msg) amt w) tok' who.
Proof. unfold deposit_result. cbv zeta. by destruct (_ <? UINT256_MAX). Qed.

(** X4: A refund right after the deposit puts every balance back where it was:
    the payer has paid nothing and the escrow kept nothing. *)
Theorem refund_undoes_deposit payer orchestrator id agent amt tok w w1 w2 :
  depositPayment payer id agent amt tok w = Done tt w1 ->
  refundPayment orchestrator id w1 = Done tt w2 ->
  this orchestrator = this payer -> sender payer <> this payer ->
  status (payment_at w2 id) = Refunded /\
  forall tok' who, balanceOf w2 tok' who = balanceOf w tok' who.
Proof.
  intros Hdep Href Hthis Hne.
  destruct (depositPayment_Done_funds _ _ _ _ _ _ _ Hdep) as [Hbal _].
  apply depositPayment_Done_inv in Hdep as (_ & _ & _ & _ & _ & ->).
  apply refundPayment_Done_inv in Href as (_ & _ & _ & ->).
  split; [by rewrite payment_at_refund_result, decide_True|].
  intros tok' who. unfold refund_result. cbv zeta.
  rewrite balanceOf_add_event, payment_at_deposit_result, decide_True by done.
  simpl. rewrite Hthis.
  set (w1 := set_payment _ _ _).
  assert (Hw1 : forall t a, balanceOf w1 t a
                            = balanceOf (moved tok (sender payer) (this payer) amt w) t a).
  { intros t a. unfold w1. rewrite balanceOf_set_payment.
    apply balanceOf_deposit_result. }
  destruct (decide ((tok', who) = (tok, sender payer))) as [[= -> ->]|Hn1].
  { rewrite balanceOf_moved_to by done. rewrite Hw1.
    rewrite balanceOf_moved_from by done. lia. }
  destruct (decide ((tok', who) = (tok, this payer))) as [[= -> ->]|Hn2].
  { rewrite balanceOf_moved_from by done. rewrite Hw1.
    rewrite balanceOf_moved_to by done. lia. }
  rewrite balanceOf_moved_other by done. rewrite Hw1.
  by rewrite balanceOf_moved_other.
Qed.

Lemma refund_undoes_deposit_witness :
  let w1 := transact (depositPayment as_user 7 1 10000 200) setUp in
  let w2 := transact (refundPayment as_orchestrator 7) w1 in
  balanceOf w1 200 2 = 990000 /\ balanceOf w1 200 100 = 10000 /\
  balanceOf w2 200 2 = balanceOf setUp 200 2 /\
  balanceOf w2 200 100 = balanceOf setUp 200 100.
Proof.
  cbv zeta. split; [vm_compute; reflexivity|]. split; [vm_compute; reflexivity|].
  destruct (refund_undoes_deposit as_user as_orchestrator 7 1 10000 200 setUp
              (transact (depositPayment as_user 7 1 10000 200) setUp)
              (transact (refundPayment as_orchestrator 7)
                 (transact (depositPayment as_user 7 1 10000 200) setUp)))
    as [_ Hbal];
    [vm_compute; reflexivity | vm_compute; reflexivity | reflexivity
    | vm_compute; discriminate |].
  split; apply Hbal.
Defined.

(** **** The log reports each settlement once *)

Lemma count_events_snoc f w w' e :
  events w' = (events w ++ [e])%list ->
  count_events f w' = (count_events f w + if f e then 1 else 0)%nat.
Proof.
  unfold count_events. intros ->.
  rewrite List.filter_app, length_app. simpl. by destruct (f e).
Qed.

Lemma count_events_add_event f e w :
  count_events f (add_event e w) = (count_events f w + if f e then 1 else 0)%nat.
Proof. by apply count_events_snoc. Qed.

Lemma events_deposit_result msg id agent amt tok w :
  events (deposit_result msg id agent amt tok w)
  = (events w ++ [PaymentDeposited id (sender msg) (agentDeveloper_at w agent)
                    agent amt tok])%list.
Proof. unfold deposit_result. cbv zeta. by destruct (_ <? UINT256_MAX). Qed.

Lemma events_release_result msg id w :
  events (release_result msg id w)
  = (events w ++ [PaymentReleased id (developer (payment_at w id))
                    (amount (payment_at w id) - release_fee w id)
                    (release_fee w id)])%list.
Proof. unfold release_result. cbv zeta. by destruct (0 <? _). Qed.

Lemma events_refund_result msg id w :
  events (refund_result msg id w)
  = (events w ++ [PaymentRefunded id (user (payment_at w id))
                    (amount (payment_at w id))])%list.
Proof. done. Qed.

Lemma effect_log_matches msg w c w' :
  effect msg w c w' ->
  (forall id, payment_wf (payment_at w id)) ->
  (forall id, log_matches w id) -> forall id, log_matches w' id.
Proof.
  intros He Hwf Hlog id'. specialize (Hlog id'). specialize (Hwf id').
  unfold log_matches in *.
  destruct He as [c| id agent amt tok Hs Hu Ha Hamt Hsender _
    | id Hrun | id Hrun | | | | | ]; try exact Hlog.
  - rewrite !(count_events_snoc _ w _ _ (events_deposit_result _ _ _ _ _ _)).
    simpl. rewrite !Nat.add_0_r, payment_at_deposit_result.
    destruct (decide (id = id')) as [<-|]; [|exact Hlog]. simpl.
    unfold payment_wf in Hwf.
    destruct (status (payment_at w id)); try exact Hlog; by destruct Hwf.
  - apply releasePayment_Done_inv in Hrun as (_ & Hst & _).
    rewrite !(count_events_snoc _ w _ _ (events_release_result _ _ _)).
    simpl. rewrite Nat.add_0_r, payment_at_release_result.
    destruct (decide (id = id')) as [<-|Hne].
    + rewrite N.eqb_refl. simpl. rewrite Hst in Hlog. injection Hlog as -> ->. done.
    + apply N.eqb_neq in Hne. rewrite Hne, Nat.add_0_r. exact Hlog.
  - apply refundPayment_Done_inv in Hrun as (_ & Hst & _).
    rewrite !(count_events_snoc _ w _ _ (events_refund_result _ _ _)).
    simpl. rewrite Nat.add_0_r, payment_at_refund_result.
    destruct (decide (id = id')) as [<-|Hne].
    + rewrite N.eqb_refl. simpl. rewrite Hst in Hlog. injection Hlog as -> ->. done.
    + apply N.eqb_neq in Hne. rewrite Hne, Nat.add_0_r. exact Hlog.
  - rewrite !count_events_add_event; cbn [released_in_log refunded_in_log].
    rewrite !Nat.add_0_r. exact Hlog.
  - rewrite !count_events_add_event; cbn [released_in_log refunded_in_log].
    rewrite !Nat.add_0_r. exact Hlog.
  - rewrite !count_events_add_event; cbn [released_in_log refunded_in_log].
    rewrite !Nat.add_0_r. exact Hlog.
  - rewrite !count_events_add_event; cbn [released_in_log refunded_in_log].
    rewrite !Nat.add_0_r. unfold payment_at in *. destruct r; exact Hlog.
  - rewrite !count_events_add_event; cbn [released_in_log refunded_in_log].
    rewrite !Nat.add_0_r. unfold payment_at in *. destruct r; exact Hlog.
Qed.

Lemma deployed_log w id : deployed w -> log_matches w id.
Proof.
  intros Hd. unfold log_matches. rewrite (deployed_payment_at w id Hd). simpl.
  destruct Hd as (msg & recipient & fee & b & a & H).
  unfold constructor in H.
  apply bind_Done_inv in H as ([] & ? & [_ ->]%require_Done_inv & H).
  apply bind_Done_inv in H as ([] & ? & [_ ->]%require_Done_inv & H).
  unfold bind, modify, emit, modify in H. injection H as <-. reflexivity.
Qed.

Lemma reachable_log w : reachable w -> forall id, log_matches w id.
Proof.
  revert w. apply (reachable_ind (fun w => forall id, log_matches w id)).
  - intros w Hd id. by apply deployed_log.
  - intros w w' Hreach Hs IH. destruct Hs as [msg c w0 | w0 b a]; [|exact IH].
    eapply effect_log_matches;
      [apply run_effect | by apply reachable_payment_wf | exact IH].
Qed.

(** X5: In every world the chain can reach, the event log holds exactly one
    [PaymentReleased] for a released payment, exactly one [PaymentRefunded]
    for a refunded one, and no settlement event for any other payment. *)
Theorem settlement_logged_once w id :
  reachable w ->
  (count_events (released_in_log id) w, count_events (refunded_in_log id) w)
  = match status (payment_at w id) with
    | Released => (1%nat, 0%nat)
    | Refunded => (0%nat, 1%nat)
    | _ => (0%nat, 0%nat)
    end.
Proof. intros H. by apply reachable_log. Qed.

Lemma settlement_logged_once_witness :
  let w := transact (releasePayment as_orchestrator 7)
             (transact (depositPayment as_user 8 1 500 200)
                (transact (depositPayment as_user 7 1 10000 200) setUp)) in
  status (payment_at w 7) = Released /\ status (payment_at w 8) = Escrowed /\
  count_events (released_in_log 7) w = 1%nat /\
  count_events (refunded_in_log 7) w = 0%nat /\
  count_events (released_in_log 8) w = 0%nat.
Proof.
  cbv zeta.
  pose proof (reachable_step _ _
                (reachable_step _ _
                   (reachable_step _ _ reachable_setUp
                      (step_call as_user (CallDeposit 7 1 10000 200) setUp))
                   (step_call as_user (CallDeposit 8 1 500 200) _))
                (step_call as_orchestrator (CallRelease 7) _)) as Hreach.
  pose proof (settlement_logged_once _ 7 Hreach) as E7.
  pose proof (settlement_logged_once _ 8 Hreach) as E8.
  clear Hreach.
  assert (H7 : status (payment_at
                 (transact (releasePayment as_orchestrator 7)
                    (transact (depositPayment as_user 8 1 500 200)
                       (transact (depositPayment as_user 7 1 10000 200) setUp))) 7)
               = Released) by (vm_compute; reflexivity).
  assert (H8 : status (payment_at
                 (transact (releasePayment as_orchestrator 7)
                    (transact (depositPayment as_user 8 1 500 200)
                       (transact (depositPayment as_user 7 1 10000 200) setUp))) 8)
               = Escrowed) by (vm_compute; reflexivity).
  simpl run in E7, E8.
  revert E7 E8 H7 H8.
  generalize (transact (releasePayment as_orchestrator 7)
                (transact (depositPayment as_user 8 1 500 200)
                   (transact (depositPayment as_user 7 1 10000 200) setUp))).
  intros w E7 E8 H7 H8. rewrite H7 in E7. rewrite H8 in E8.
  split; [exact H7|]. split; [exact H8|].
  split; [exact (f_equal fst E7)|].
  split; [exact (f_equal snd E7) | exact (f_equal fst E8)].
Defined.

End EscrowInvariants.

(** ** The escrow among real tokens: solvency *)

Module EscrowSolvency.
Import Escrow EscrowChain EscrowFacts EscrowInvariants.

(** **** The escrowed sum *)

Lemma locked_sum_comm tok (j1 j2 : N) (z1 z2 : Payment) (y : N) :
  locked tok z1 + (locked tok z2 + y) = locked tok z2 + (locked tok z1 + y).
Proof. lia. Qed.

Lemma escrowed_set_payment id p w tok :
  escrowed (set_payment id p w) tok + locked tok (payment_at w id)
  = escrowed w tok + locked tok p.
Proof.
  unfold escrowed, payment_at, set_payment, set_store; simpl.
  set (m := payments (store w)).
  destruct (m !! id) as [q|] eqn:E; simpl.
  - rewrite <-(insert_delete_eq m id p).
    rewrite (map_fold_insert_L _ _ id p (delete id m));
      [|intros; apply (locked_sum_comm tok j1 j2) | apply lookup_delete_eq].
    rewrite (map_fold_delete_L _ _ id q m);
      [|intros; apply (locked_sum_comm tok j1 j2) | done].
    lia.
  - rewrite (map_fold_insert_L _ _ id p m);
      [|intros; apply (locked_sum_comm tok j1 j2) | done].
    unfold locked at 3. simpl. lia.
Qed.

Lemma locked_le_escrowed w id tok : locked tok (payment_at w id) <= escrowed w tok.
Proof.
  unfold escrowed, payment_at.
  set (m := payments (store w)).
  destruct (m !! id) as [q|] eqn:E; simpl.
  - rewrite (map_fold_delete_L _ _ id q m);
      [|intros; apply (locked_sum_comm tok j1 j2) | done]. lia.
  - unfold locked at 1. simpl. lia.
Qed.

Lemma locked_escrowed tok p :
  status p = Escrowed -> locked tok p = if token p =? tok then amount p else 0.
Proof. unfold locked. by intros ->. Qed.

Lemma locked_not_escrowed tok p : status p <> Escrowed -> locked tok p = 0.
Proof. unfold locked. by destruct (status p). Qed.

(** **** Transfers, seen from one account *)

Lemma balanceOf_moved_ge tok from to v w tok' who :
  v <= balanceOf w tok from ->
  balanceOf w tok' who - (if decide ((tok', who) = (tok, from)) then v else 0)
  <= balanceOf (moved tok from to v w) tok' who.
Proof.
  intros Hv. unfold moved. cbv zeta. rewrite !balanceOf_set_balance.
  repeat case_decide; simplify_eq; lia.
Qed.

Lemma balanceOf_moved_keeps tok from to v w tok' who :
  v <= balanceOf w tok from -> who <> from ->
  balanceOf w tok' who <= balanceOf (moved tok from to v w) tok' who.
Proof.
  intros Hv Hne. pose proof (balanceOf_moved_ge tok from to v w tok' who Hv) as H.
  rewrite decide_False in H by congruence. lia.
Qed.

Lemma allowance_set_allowance tok o s v w tok' o' s' :
  allowance (set_allowance tok o s v w) tok' o' s'
  = if decide ((tok, o, s) = (tok', o', s')) then v else allowance w tok' o' s'.
Proof.
  unfold allowance, set_allowance; simpl.
  rewrite lookup_insert. by destruct (decide _).
Qed.

Lemma erc20_spendAllowance_Done_inv tok owner spender v w w' :
  erc20_spendAllowance tok owner spender v w = Done tt w' ->
  (UINT256_MAX <= allowance w tok owner spender /\ w' = w) \/
  (v <= allowance w tok owner spender /\
   w' = set_allowance tok owner spender (allowance w tok owner spender - v) w).
Proof.
  unfold erc20_spendAllowance, bind at 1, gets. intros H.
  destruct (_ <? UINT256_MAX) eqn:E.
  - apply bind_Done_inv in H as ([] & ? & [Ha ->]%require_Done_inv & H).
    apply bind_Done_inv in H as ([] & ? & [_ ->]%require_Done_inv & H).
    apply bind_Done_inv in H as ([] & ? & [_ ->]%require_Done_inv & H).
    unfold modify in H. injection H as <-. apply N.leb_le in Ha. by right.
  - unfold ret in H. injection H as <-. apply N.ltb_ge in E. by left.
Qed.

Lemma erc20_approve_Done_inv tok owner spender v w w' :
  erc20_approve tok owner spender v w = Done tt w' ->
  w' = set_allowance tok owner spender v w.
Proof.
  unfold erc20_approve. intros H.
  apply bind_Done_inv in H as ([] & ? & [_ ->]%require_Done_inv & H).
  apply bind_Done_inv in H as ([] & ? & [_ ->]%require_Done_inv & H).
  unfold modify in H. by injection H as <-.
Qed.

Lemma erc20_mint_Done_inv tok to v w w' :
  erc20_mint tok to v w = Done tt w' ->
  w' = set_balance tok to (balanceOf w tok to + v) w.
Proof.
  unfold erc20_mint. intros H.
  apply bind_Done_inv in H as ([] & ? & [_ ->]%require_Done_inv & H).
  unfold bind at 1, gets at 1 in H.
  apply bind_Done_inv in H as (? & ? & (_ & _ & ->)%checked_add_Done_inv & H).
  unfold modify in H. by injection H as <-.
Qed.

Lemma safeTransferFrom_Done_inv tok spender from to v w w' :
  safeTransferFrom tok spender from to v w = Done tt w' ->
  exists w1,
    ((UINT256_MAX <= allowance w tok from spender /\ w1 = w) \/
     (v <= allowance w tok from spender /\
      w1 = set_allowance tok from spender (allowance w tok from spender - v) w)) /\
    v <= balanceOf w tok from /\ w' = moved tok from to v w1.
Proof.
  unfold safeTransferFrom. intros H.
  apply bind_Done_inv in H as ([] & w1 & Hsp & Htr).
  apply erc20_transfer_Done_inv in Htr as (_ & _ & Hb & ->).
  exists w1. apply erc20_spendAllowance_Done_inv in Hsp as [[? ->]|[? ->]];
    (split; [auto|]); split; done.
Qed.

(** **** The token chain is a chain *)

Lemma world_eta w : mkWorld (store w) (balances w) (allowances w) (events w) = w.
Proof. by destruct w. Qed.

Lemma step_same_store w w' :
  store w' = store w -> events w' = events w -> step w w'.
Proof.
  intros Hs He. rewrite <-(world_eta w'), Hs, He. apply step_ledger.
Qed.

Lemma chain_step_step self w w' : chain_step self w w' -> step w w'.
Proof.
  intros [msg c w0 _ | tok from to v w0 _ | tok sp from to v w0 _
         | tok o s v w0 _ | tok to v w0].
  - apply step_call.
  - destruct (transact_cases (erc20_transfer tok from to v) w0) as [-> | H];
      [by apply step_same_store|].
    apply erc20_transfer_Done_inv in H as (_ & _ & _ & ->).
    by apply step_same_store.
  - destruct (transact_cases (safeTransferFrom tok sp from to v) w0) as [-> | H];
      [by apply step_same_store|].
    apply safeTransferFrom_Done_inv in H as (w1 & [[_ ->]|[_ ->]] & _ & ->);
      by apply step_same_store.
  - destruct (transact_cases (erc20_approve tok o s v) w0) as [-> | H];
      [by apply step_same_store|].
    apply erc20_approve_Done_inv in H as ->. by apply step_same_store.
  - destruct (transact_cases (erc20_mint tok to v) w0) as [-> | H];
      [by apply step_same_store|].
    apply erc20_mint_Done_inv in H as ->. by apply step_same_store.
Qed.

Lemma chain_deployed_deployed self w : chain_deployed self w -> deployed w.
Proof.
  intros (msg & recipient & fee & b & a & _ & _ & H).
  by exists msg, recipient, fee, b, a.
Qed.

Lemma chain_rtc_rtc self w w' : rtc (chain_step self) w w' -> rtc step w w'.
Proof.
  induction 1 as [|w w1 w2 Hs _ IH]; [done|].
  eapply rtc_l; [by eapply chain_step_step | done].
Qed.

Lemma chain_reachable_reachable self w : chain_reachable self w -> reachable w.
Proof.
  intros (w0 & Hd & Hr). exists w0.
  split; [by eapply chain_deployed_deployed | by eapply chain_rtc_rtc].
Qed.

Lemma chain_reachable_ind self (P : World -> Prop) :
  (forall w, chain_deployed self w -> P w) ->
  (forall w w', chain_reachable self w -> chain_step self w w' -> P w -> P w') ->
  forall w, chain_reachable self w -> P w.
Proof.
  intros Hbase Hstep w (w0 & Hd & Hr). revert w Hr.
  apply (rtc_ind_r (fun w => P w) w0); [by apply Hbase|].
  intros w1 w2 Hr Hs IH. apply (Hstep w1); [by exists w0 | done | done].
Qed.

Lemma chain_reachable_step self w w' :
  chain_reachable self w -> chain_step self w w' -> chain_reachable self w'.
Proof.
  intros (w0 & Hd & Hr) Hs. exists w0. split; [done|].
  eapply rtc_r; done.
Qed.

(** **** The invariant *)

Lemma escrowed_same_payments w w' tok :
  payments (store w') = payments (store w) -> escrowed w' tok = escrowed w tok.
Proof. unfold escrowed. by intros ->. Qed.

Lemma chain_inv_ledger self w w' :
  store w' = store w ->
  (forall tok, balanceOf w tok self <= balanceOf w' tok self) ->
  (forall tok sp, allowance w' tok self sp = allowance w tok self sp) ->
  chain_inv self w -> chain_inv self w'.
Proof.
  intros Hs Hb Ha [Hsol Hnev]. split.
  - intros tok. rewrite (escrowed_same_payments w w') by by rewrite Hs.
    specialize (Hsol tok). specialize (Hb tok). lia.
  - intros tok sp. rewrite Ha. apply Hnev.
Qed.

Lemma allowance_deposit_result msg id agent amt tok w tok' o s :
  o <> sender msg ->
  allowance (deposit_result msg id agent amt tok w) tok' o s = allowance w tok' o s.
Proof.
  intros Hne. unfold deposit_result. cbv zeta.
  destruct (_ <? UINT256_MAX); [|done].
  change (allowance (set_allowance tok (sender msg) (this msg)
            (allowance w tok (sender msg) (this msg) - amt) w) tok' o s
          = allowance w tok' o s).
  rewrite allowance_set_allowance, decide_False by congruence. done.
Qed.

Lemma allowance_release_result msg id w tok o s :
  allowance (release_result msg id w) tok o s = allowance w tok o s.
Proof. unfold release_result. cbv zeta. by destruct (0 <? _). Qed.

Lemma allowance_refund_result msg id w tok o s :
  allowance (refund_result msg id w) tok o s = allowance w tok o s.
Proof. done. Qed.

Lemma escrowed_deposit_result msg id agent amt tok w tok' :
  escrowed (deposit_result msg id agent amt tok w) tok'
  = escrowed (set_payment id
      (mkPayment (sender msg) (agentDeveloper_at w agent) agent amt tok Escrowed
                 (timestamp msg) (timestamp msg + PAYMENT_EXPIRY)) w) tok'.
Proof.
  apply escrowed_same_payments. by rewrite store_deposit_result.
Qed.

Lemma escrowed_release_result msg id w tok :
  escrowed (release_result msg id w) tok
  = escrowed (set_payment id (with_status Released (payment_at w id)) w) tok.
Proof. apply escrowed_same_payments. by rewrite store_release_result. Qed.

Lemma escrowed_refund_result msg id w tok :
  escrowed (refund_result msg id w) tok
  = escrowed (set_payment id (with_status Refunded (payment_at w id)) w) tok.
Proof. done. Qed.

Lemma balanceOf_release_result_ge msg id w tok who :
  releasePayment msg id w = Done tt (release_result msg id w) ->
  balanceOf w tok who
  - (if decide ((tok, who) = (token (payment_at w id), this msg))
     then amount (payment_at w id) else 0)
  <= balanceOf (release_result msg id w) tok who.
Proof.
  intros H. apply releasePayment_Done_inv in H as (_ & _ & _ & Hfee & Hb1 & Hb2 & _).
  unfold release_result. cbv zeta. rewrite balanceOf_add_event.
  set (p := payment_at w id) in *. set (fee := release_fee w id) in *.
  set (w1 := set_payment id (with_status Released p) w).
  assert (H1 : balanceOf w tok who
                - (if decide ((tok, who) = (token p, this msg))
                   then amount p - fee else 0)
                <= balanceOf (moved (token p) (this msg) (developer p)
                                (amount p - fee) w1) tok who)
    by exact (balanceOf_moved_ge (token p) (this msg) (developer p)
                (amount p - fee) w1 tok who Hb1).
  destruct (0 <? fee) eqn:Hpos.
  - apply N.ltb_lt in Hpos. specialize (Hb2 Hpos).
    pose proof (balanceOf_moved_ge (token p) (this msg)
                  (platformFeeRecipient (store w)) fee
                  (moved (token p) (this msg) (developer p) (amount p - fee) w1)
                  tok who Hb2) as H2.
    destruct (decide ((tok, who) = (token p, this msg))); lia.
  - destruct (decide ((tok, who) = (token p, this msg))); lia.
Qed.

Lemma effect_chain_inv self msg w c w' :
  this msg = self ->
  effect msg w c w' ->
  (forall id, payment_wf (payment_at w id)) ->
  chain_inv self w -> chain_inv self w'.
Proof.
  intros Hself He Hwf [Hsol Hnev].
  destruct He as [c| id agent amt tok Hs Hu Ha Hamt Hsender Hrun
    | id Hrun | id Hrun | | | | | ]; try (by split).
  - (* deposit *)
    destruct (depositPayment_Done_funds _ _ _ _ _ _ _ Hrun) as [Hbal Hallow].
    assert (Hne : sender msg <> self).
    { intros E. rewrite Hself, E in Hallow. rewrite Hnev in Hallow.
      specialize (Hallow eq_refl). lia. }
    assert (Hold : forall tok', locked tok' (payment_at w id) = 0).
    { intros tok'. apply locked_not_escrowed. intros E.
      specialize (Hwf id). unfold payment_wf in Hwf. rewrite E in Hwf.
      by destruct Hwf. }
    split.
    + intros tok'. rewrite escrowed_deposit_result.
      pose proof (escrowed_set_payment id
        (mkPayment (sender msg) (agentDeveloper_at w agent) agent amt tok Escrowed
                   (timestamp msg) (timestamp msg + PAYMENT_EXPIRY)) w tok') as E.
      rewrite Hold, locked_escrowed in E by done. simpl in E.
      rewrite balanceOf_deposit_result. specialize (Hsol tok').
      destruct (tok =? tok') eqn:Et.
      * apply N.eqb_eq in Et as <-. rewrite Hself.
        rewrite balanceOf_moved_to by done. lia.
      * apply N.eqb_neq in Et.
        rewrite balanceOf_moved_other by congruence. lia.
    + intros tok' sp. rewrite allowance_deposit_result by congruence. apply Hnev.
  - (* release *)
    pose proof (balanceOf_release_result_ge msg id w) as Hge.
    specialize (fun tok => Hge tok self Hrun).
    apply releasePayment_Done_inv in Hrun as (_ & Hst & _).
    split.
    + intros tok'. rewrite escrowed_release_result.
      pose proof (escrowed_set_payment id (with_status Released (payment_at w id))
                    w tok') as E.
      rewrite (locked_not_escrowed _ (with_status _ _)) in E by done.
      pose proof (locked_le_escrowed w id tok') as Hle.
      rewrite locked_escrowed in E, Hle by done.
      specialize (Hge tok'). specialize (Hsol tok'). rewrite Hself in Hge.
      destruct (token (payment_at w id) =? tok') eqn:Et.
      * apply N.eqb_eq in Et. rewrite decide_True in Hge by congruence. lia.
      * apply N.eqb_neq in Et. rewrite decide_False in Hge by congruence. lia.
    + intros tok' sp. rewrite allowance_release_result. apply Hnev.
  - (* refund *)
    apply refundPayment_Done_inv in Hrun as (_ & Hst & _ & _).
    assert (Hamt : amount (payment_at w id)
                   <= balanceOf w (token (payment_at w id)) self).
    { pose proof (locked_le_escrowed w id (token (payment_at w id))) as H1.
      rewrite locked_escrowed, N.eqb_refl in H1 by done.
      specialize (Hsol (token (payment_at w id))). lia. }
    split.
    + intros tok'.
      pose proof (escrowed_set_payment id (with_status Refunded (payment_at w id))
                    w tok') as E.
      rewrite (locked_not_escrowed _ (with_status _ _)) in E by done.
      pose proof (locked_le_escrowed w id tok') as Hle.
      rewrite locked_escrowed in E, Hle by done.
      rewrite escrowed_refund_result.
      unfold refund_result. cbv zeta. rewrite balanceOf_add_event.
      specialize (Hsol tok').
      pose proof (balanceOf_moved_ge (token (payment_at w id)) (this msg)
                    (user (payment_at w id)) (amount (payment_at w id))
                    (set_payment id (with_status Refunded (payment_at w id)) w)
                    tok' self) as Hge.
      rewrite !balanceOf_set_payment, Hself in Hge. specialize (Hge Hamt).
      rewrite Hself.
      destruct (token (payment_at w id) =? tok') eqn:Et.
      * apply N.eqb_eq in Et. rewrite decide_True in Hge by congruence. lia.
      * apply N.eqb_neq in Et. rewrite decide_False in Hge by congruence. lia.
    + intros tok' sp. rewrite allowance_refund_result. apply Hnev.
Qed.



Lemma chain_step_inv self w w' :
  chain_step self w w' ->
  (forall id, payment_wf (payment_at w id)) ->
  chain_inv self w -> chain_inv self w'.
Proof.
  intros [msg c w0 Hself | tok from to v w0 Hne | tok sp from to v w0 Hne
         | tok o s v w0 Hne | tok to v w0] Hwf Hinv.
  - eapply effect_chain_inv; [exact Hself | apply run_effect | done | done].
  - destruct (transact_cases (erc20_transfer tok from to v) w0) as [-> | H];
      [done|].
    apply erc20_transfer_Done_inv in H as (_ & _ & Hb & ->).
    apply (chain_inv_ledger self w0); [done| |done|exact Hinv].
    intros tok'. by apply balanceOf_moved_keeps.
  - destruct (transact_cases (safeTransferFrom tok sp from to v) w0) as [-> | H];
      [done|].
    apply safeTransferFrom_Done_inv in H as (w1 & Hsp & Hb & ->).
    destruct Hinv as [Hsol Hnev].
    destruct (decide (from = self)) as [->|Hfrom].
    + (* the escrow never approved anybody: nothing can be pulled from it *)
      assert (v = 0 /\ w1 = set_allowance tok self sp 0 w0) as [-> ->].
      { destruct Hsp as [[Hmax _]|[Hle ->]]; rewrite Hnev in *.
        - by vm_compute in Hmax.
        - assert (v = 0) as -> by lia. done. }
      split.
      * intros tok'. specialize (Hsol tok').
        pose proof (balanceOf_moved_ge tok self to 0 (set_allowance tok self sp 0 w0)
                      tok' self ltac:(lia)) as Hge.
        change (balanceOf (set_allowance tok self sp 0 w0) tok' self)
          with (balanceOf w0 tok' self) in Hge.
        change (escrowed (moved tok self to 0 (set_allowance tok self sp 0 w0)) tok')
          with (escrowed w0 tok').
        destruct (decide ((tok', self) = (tok, self))); lia.
      * intros tok' sp'.
        change (allowance (moved tok self to 0 (set_allowance tok self sp 0 w0))
                  tok' self sp')
          with (allowance (set_allowance tok self sp 0 w0) tok' self sp').
        rewrite allowance_set_allowance. destruct (decide _); [done|apply Hnev].
    + assert (Ha : forall tok' sp', allowance w1 tok' self sp' = 0).
      { intros tok' sp'. destruct Hsp as [[_ ->]|[_ ->]]; [apply Hnev|].
        rewrite allowance_set_allowance, decide_False by congruence. apply Hnev. }
      assert (Hb1 : forall tok' who, balanceOf w1 tok' who = balanceOf w0 tok' who).
      { intros tok' who. by destruct Hsp as [[_ ->]|[_ ->]]. }
      assert (Hs1 : store w1 = store w0) by (by destruct Hsp as [[_ ->]|[_ ->]]).
      split.
      * intros tok'. specialize (Hsol tok').
        rewrite (escrowed_same_payments w0) by (by simpl; rewrite Hs1).
        pose proof (balanceOf_moved_keeps tok from to v w1 tok' self) as Hk.
        rewrite !Hb1 in Hk. specialize (Hk Hb ltac:(congruence)). lia.
      * intros tok' sp'. apply Ha.
  - destruct (transact_cases (erc20_approve tok o s v) w0) as [-> | H]; [done|].
    apply erc20_approve_Done_inv in H as ->.
    apply (chain_inv_ledger self w0); [done|done| |exact Hinv].
    intros tok' sp'. by rewrite allowance_set_allowance, decide_False by congruence.
  - destruct (transact_cases (erc20_mint tok to v) w0) as [-> | H]; [done|].
    apply erc20_mint_Done_inv in H as ->.
    apply (chain_inv_ledger self w0); [done| |done|exact Hinv].
    intros tok'. rewrite balanceOf_set_balance. case_decide; simplify_eq; lia.
Qed.

Lemma chain_deployed_inv self w : chain_deployed self w -> chain_inv self w.
Proof.
  intros (msg & recipient & fee & b & a & Hself & Hnone & H).
  apply constructor_Done_inv in H as (_ & _ & Hp & _ & _ & Hb & Ha).
  split.
  - intros tok. unfold escrowed. rewrite Hp. simpl. rewrite map_fold_empty. lia.
  - intros tok sp. unfold allowance. rewrite Ha. simpl. by rewrite Hnone.
Qed.

Lemma chain_reachable_inv self w : chain_reachable self w -> chain_inv self w.
Proof.
  revert w. apply (chain_reachable_ind self (chain_inv self)).
  - apply chain_deployed_inv.
  - intros w w' Hr Hs IH. apply (chain_step_inv self w); [done| |done].
    apply reachable_payment_wf. by eapply chain_reachable_reachable.
Qed.

Lemma chain_reachable_setUp : chain_reachable 100 setUp.
Proof.
  assert (E : setUp
    = transact (erc20_approve 200 2 100 1000000)
        (transact (erc20_mint 200 2 1000000)
           (transact (run (CallSetSupportedToken 200 true) deployer)
              (transact (run (CallRegisterAgent 1 3) deployer)
                 (transact (run (CallGrantRole ORCHESTRATOR_ROLE 4) deployer)
                    (transact (constructor deployer 1 250) empty_world))))))
    by (vm_compute; reflexivity).
  rewrite E. clear E.
  exists (transact (constructor deployer 1 250) empty_world). split.
  - exists deployer, 1, 250, ∅, ∅. split; [done|]. split; [done|].
    vm_compute. reflexivity.
  - eapply rtc_l; [exact (chain_call 100 deployer (CallGrantRole ORCHESTRATOR_ROLE 4)
                            _ eq_refl)|].
    eapply rtc_l; [exact (chain_call 100 deployer (CallRegisterAgent 1 3) _ eq_refl)|].
    eapply rtc_l; [exact (chain_call 100 deployer (CallSetSupportedToken 200 true)
                            _ eq_refl)|].
    eapply rtc_l; [exact (chain_mint 100 200 2 1000000 _)|].
    eapply rtc_l; [exact (chain_approve 100 200 2 100 1000000 _ ltac:(done))|].
    apply rtc_refl.
Qed.

(** X6: The escrow always holds at least the sum of the payments it has in
    escrow, in every token. *)
Theorem escrow_is_solvent self w tok :
  chain_reachable self w ->
  escrowed w tok <= balanceOf w tok self.
Proof. intros H. by destruct (chain_reachable_inv self w H) as [Hsol _]. Qed.

Lemma escrowed_covered self w id :
  chain_reachable self w -> status (payment_at w id) = Escrowed ->
  amount (payment_at w id) <= balanceOf w (token (payment_at w id)) self.
Proof.
  intros Hr Hst. destruct (chain_reachable_inv self w Hr) as [Hsol _].
  pose proof (locked_le_escrowed w id (token (payment_at w id))) as H1.
  rewrite locked_escrowed, N.eqb_refl in H1 by done.
  specialize (Hsol (token (payment_at w id))). lia.
Qed.

(** X7: An escrowed payment can always be refunded: whatever happened on the
    chain, a refund by an orchestrator succeeds and gives the payer the
    whole amount back. *)
Theorem escrowed_payment_is_refundable self w msg id :
  chain_reachable self w -> self <> 0 ->
  this msg = self ->
  hasRole w ORCHESTRATOR_ROLE (sender msg) = true ->
  status (payment_at w id) = Escrowed ->
  let p := payment_at w id in
  exists w', refundPayment msg id w = Done tt w' /\
    status (payment_at w' id) = Refunded /\
    last (events w') = Some (PaymentRefunded id (user p) (amount p)).
Proof.
  intros Hr Hself Hthis Hrole Hst. cbv zeta.
  exists (refund_result msg id w).
  pose proof (reachable_payment_wf w (chain_reachable_reachable self w Hr) id) as Hwf.
  unfold payment_wf in Hwf. rewrite Hst in Hwf. destruct Hwf as (Hu & _).
  split; [|split].
  - apply refundPayment_Done; try done; rewrite Hthis; [done|].
    by apply escrowed_covered.
  - by rewrite payment_at_refund_result, decide_True.
  - rewrite events_refund_result. apply last_snoc.
Qed.


Lemma escrow_is_solvent_witness :
  let w := transact (releasePayment as_orchestrator 7)
             (transact (depositPayment as_user 8 1 500 200)
                (transact (depositPayment as_user 7 1 10000 200) setUp)) in
  escrowed w 200 = 500 /\ balanceOf w 200 100 = 500 /\
  escrowed w 200 <= balanceOf w 200 100.
Proof.
  cbv zeta. split; [vm_compute; reflexivity|]. split; [vm_compute; reflexivity|].
  apply (escrow_is_solvent 100).
  eapply chain_reachable_step;
    [|exact (chain_call 100 as_orchestrator (CallRelease 7) _ eq_refl)].
  eapply chain_reachable_step;
    [|exact (chain_call 100 as_user (CallDeposit 8 1 500 200) _ eq_refl)].
  eapply chain_reachable_step;
    [|exact (chain_call 100 as_user (CallDeposit 7 1 10000 200) _ eq_refl)].
  exact chain_reachable_setUp.
Defined.

Lemma escrowed_payment_is_refundable_witness :
  let w := transact (safeTransferFrom 200 66 100 66 10000)
             (transact (depositPayment as_user 7 1 10000 200) setUp) in
  balanceOf w 200 100 = 10000 /\
  exists w', refundPayment as_orchestrator 7 w = Done tt w' /\
    status (payment_at w' 7) = Refunded /\
    last (events w') = Some (PaymentRefunded 7 2 10000).
Proof.
  cbv zeta. split; [vm_compute; reflexivity|].
  refine (escrowed_payment_is_refundable 100 _ as_orchestrator 7 _ _ eq_refl _ _).
  - eapply chain_reachable_step;
      [|exact (chain_transferFrom 100 200 66 100 66 10000 _ ltac:(done))].
    eapply chain_reachable_step;
      [|exact (chain_call 100 as_user (CallDeposit 7 1 10000 200) _ eq_refl)].
    exact chain_reachable_setUp.
  - done.
  - vm_compute. reflexivity.
  - vm_compute. reflexivity.
Defined.


(** **** Release, forwards *)

Lemma releasePayment_Done msg id w :
  let p := payment_at w id in
  hasRole w ORCHESTRATOR_ROLE (sender msg) = true ->
  status p = Escrowed ->
  timestamp msg <= expiresAt p ->
  amount p * platformFeePercentage (store w) <= UINT256_MAX ->
  release_fee w id <= amount p ->
  this msg <> 0 -> developer p <> 0 -> platformFeeRecipient (store w) <> 0 ->
  amount p <= balanceOf w (token p) (this msg) ->
  releasePayment msg id w = Done tt (release_result msg id w).
Proof.
  cbv zeta. intros Hr Hs He Hmul Hfee Hthis Hdev Hrec Hbal.
  unfold releasePayment, onlyRole.
  erewrite bind_Done by (by apply require_true).
  erewrite bind_Done by (apply require_true; by apply status_eqb_eq).
  erewrite bind_Done by (apply require_true; by apply N.leb_le).
  unfold bind at 1, modify at 1.
  unfold bind at 1, gets at 1.
  unfold bind at 1, gets at 1.
  rewrite payment_at_set_payment, decide_True by done.
  cbn [with_status amount token developer].
  change (platformFeePercentage (store (set_payment id _ w)))
    with (platformFeePercentage (store w)).
  unfold checked_mul. apply N.leb_le in Hmul. rewrite Hmul.
  unfold bind at 1, ret at 1.
  unfold checked_sub. fold (release_fee w id).
  pose proof Hfee as Hfee'. apply N.leb_le in Hfee'. rewrite Hfee'.
  unfold bind at 1, ret at 1.
  unfold safeTransfer.
  set (p := payment_at w id) in *. set (fee := release_fee w id) in *.
  set (w1 := set_payment id (with_status Released p) w).
  assert (Hb1 : amount p - fee <= balanceOf w1 (token p) (this msg)).
  { change (balanceOf w1 (token p) (this msg))
      with (balanceOf w (token p) (this msg)). lia. }
  erewrite bind_Done by (by apply erc20_transfer_Done).
  unfold bind at 1, gets at 1.
  change (platformFeeRecipient (store (moved _ _ _ _ w1)))
    with (platformFeeRecipient (store w)).
  unfold release_result. cbv zeta. fold p fee w1.
  destruct (0 <? fee) eqn:Hpos.
  - erewrite bind_Done; [done|].
    apply erc20_transfer_Done; [done|done|].
    pose proof (balanceOf_moved_ge (token p) (this msg) (developer p)
                  (amount p - fee) w1 (token p) (this msg) Hb1) as Hge.
    rewrite decide_True in Hge by done.
    change (balanceOf w1 (token p) (this msg))
      with (balanceOf w (token p) (this msg)) in Hge. lia.
  - done.
Qed.

(** X8: An escrowed payment that has not expired can always be released. *)
Theorem escrowed_payment_is_releasable self w msg id :
  chain_reachable self w -> self <> 0 ->
  this msg = self ->
  hasRole w ORCHESTRATOR_ROLE (sender msg) = true ->
  status (payment_at w id) = Escrowed ->
  timestamp msg <= expiresAt (payment_at w id) ->
  amount (payment_at w id) * platformFeePercentage (store w) <= UINT256_MAX ->
  exists w', releasePayment msg id w = Done tt w' /\
    status (payment_at w' id) = Released.
Proof.
  intros Hr Hself Hthis Hrole Hst Hexp Hmul.
  exists (release_result msg id w).
  pose proof (chain_reachable_reachable self w Hr) as Hreach.
  pose proof (reachable_payment_wf w Hreach id) as Hwf.
  unfold payment_wf in Hwf. rewrite Hst in Hwf. destruct Hwf as (_ & Hd & _).
  destruct (reachable_fee_capped w Hreach) as [Hcap Hrec].
  split.
  - apply releasePayment_Done; try done.
    + unfold release_fee.
      set (A := amount (payment_at w id)) in *.
      set (f := platformFeePercentage (store w)) in *.
      pose proof (N.Div0.mul_div_le (A * f) 10000) as Hq.
      assert (A * f <= A * 1000) by (apply N.mul_le_mono_l; exact Hcap).
      lia.
    + by rewrite Hthis.
    + rewrite Hthis. by apply escrowed_covered.
  - by rewrite payment_at_release_result, decide_True.
Qed.

Lemma escrowed_payment_is_releasable_witness :
  let w := transact (safeTransferFrom 200 66 100 66 10000)
             (transact (depositPayment as_user 7 1 10000 200) setUp) in
  exists w', releasePayment as_orchestrator 7 w = Done tt w' /\
    status (payment_at w' 7) = Released.
Proof.
  cbv zeta.
  refine (escrowed_payment_is_releasable 100 _ as_orchestrator 7 _ _ eq_refl _ _ _ _).
  - eapply chain_reachable_step;
      [|exact (chain_transferFrom 100 200 66 100 66 10000 _ ltac:(done))].
    eapply chain_reachable_step;
      [|exact (chain_call 100 as_user (CallDeposit 7 1 10000 200) _ eq_refl)].
    exact chain_reachable_setUp.
  - done.
  - vm_compute. reflexivity.
  - vm_compute. reflexivity.
  - vm_compute. discriminate.
  - vm_compute. discriminate.
Defined.

(** X9: What [getPayment] returns is either the blank payment of an id never
    deposited, or a complete one: payer, payee and a positive amount are
    set, the expiry is seven days after the creation, and the status is
    never [Disputed]. *)
Theorem getPayment_blank_or_complete w id :
  reachable w ->
  exists p, getPayment id w = Done p w /\
    match status p with
    | Pending => p = zeroPayment
    | Disputed => False
    | Escrowed | Released | Refunded =>
        user p <> 0 /\ developer p <> 0 /\ 0 < amount p /\
        expiresAt p = createdAt p + 604800
    end.
Proof.
  intros Hr. exists (payment_at w id). split; [done|].
  exact (reachable_payment_wf w Hr id).
Qed.

Lemma getPayment_blank_or_complete_witness :
  let w := transact (depositPayment as_user 7 1 10000 200) setUp in
  payment_at w 7 = mkPayment 2 3 1 10000 200 Escrowed 1000 605800 /\
  exists p, getPayment 7 w = Done p w /\
    match status p with
    | Pending => p = zeroPayment
    | Disputed => False
    | Escrowed | Released | Refunded =>
        user p <> 0 /\ developer p <> 0 /\ 0 < amount p /\
        expiresAt p = createdAt p + 604800
    end.
Proof.
  cbv zeta. split; [vm_compute; reflexivity|].
  exact (getPayment_blank_or_complete _ 7
           (reachable_step _ _ reachable_setUp
              (step_call as_user (CallDeposit 7 1 10000 200) setUp))).
Defined.

End EscrowSolvency.

(** ** The escrow's bookkeeping: supply and administration *)

Module EscrowBooks.
Import Escrow EscrowChain EscrowFacts EscrowInvariants EscrowSolvency.

(** **** The escrow neither mints nor burns *)

Lemma supply_comm tok (j1 j2 : N * N) (z1 z2 y : N) :
  (if fst j1 =? tok then z1 + (if fst j2 =? tok then z2 + y else y)
   else (if fst j2 =? tok then z2 + y else y))
  = (if fst j2 =? tok then z2 + (if fst j1 =? tok then z1 + y else y)
     else (if fst j1 =? tok then z1 + y else y)).
Proof. destruct (fst j1 =? tok), (fst j2 =? tok); lia. Qed.

Lemma total_supply_set_balance tok who v w tok' :
  total_supply (set_balance tok who v w) tok'
  + (if tok =? tok' then balanceOf w tok who else 0)
  = total_supply w tok' + (if tok =? tok' then v else 0).
Proof.
  unfold total_supply, balanceOf, set_balance; simpl.
  set (m := balances w).
  destruct (m !! (tok, who)) as [q|] eqn:E; simpl.
  - rewrite <-(insert_delete_eq m (tok, who) v).
    rewrite (map_fold_insert_L _ _ (tok, who) v (delete (tok, who) m));
      [|intros; apply supply_comm | apply lookup_delete_eq].
    rewrite (map_fold_delete_L _ _ (tok, who) q m);
      [|intros; apply supply_comm | done].
    simpl. destruct (tok =? tok'); lia.
  - rewrite (map_fold_insert_L _ _ (tok, who) v m);
      [|intros; apply supply_comm | done].
    simpl. destruct (tok =? tok'); lia.
Qed.

Lemma total_supply_moved tok from to v w tok' :
  v <= balanceOf w tok from ->
  total_supply (moved tok from to v w) tok' = total_supply w tok'.
Proof.
  intros Hv. unfold moved. cbv zeta.
  set (w1 := set_balance tok from (balanceOf w tok from - v) w).
  pose proof (total_supply_set_balance tok from (balanceOf w tok from - v) w tok') as H1.
  pose proof (total_supply_set_balance tok to (balanceOf w1 tok to + v) w1 tok') as H2.
  fold w1 in H1. destruct (tok =? tok'); lia.
Qed.

Lemma total_supply_same_balances w w' tok :
  balances w' = balances w -> total_supply w' tok = total_supply w tok.
Proof. unfold total_supply. by intros ->. Qed.

Lemma refundPayment_Done_funds msg id w w' :
  refundPayment msg id w = Done tt w' ->
  amount (payment_at w id) <= balanceOf w (token (payment_at w id)) (this msg).
Proof.
  unfold refundPayment, onlyRole. intros H.
  apply bind_Done_inv in H as ([] & w1 & [_ ->]%require_Done_inv & H).
  apply bind_Done_inv in H as ([] & w1 & [_ ->]%require_Done_inv & H).
  unfold bind at 1, modify at 1 in H.
  unfold bind at 1, gets at 1 in H.
  rewrite payment_at_set_payment in H. rewrite decide_True in H by done.
  cbn [with_status amount token user] in H.
  apply bind_Done_inv in H as ([] & w1 & (_ & _ & Hb & _)%erc20_transfer_Done_inv & _).
  exact Hb.
Qed.

Lemma effect_total_supply msg w c w' tok :
  effect msg w c w' -> total_supply w' tok = total_supply w tok.
Proof.
  intros He. destruct He as [c| id agent amt tok0 Hs Hu Ha Hamt Hsender Hrun
    | id Hrun | id Hrun | | | | | ]; try done.
  - destruct (depositPayment_Done_funds _ _ _ _ _ _ _ Hrun) as [Hbal _].
    unfold deposit_result. cbv zeta.
    destruct (_ <? UINT256_MAX);
      (etrans; [apply (total_supply_moved tok0 (sender msg) (this msg) amt)|]);
      done.
  - apply releasePayment_Done_inv in Hrun as (_ & _ & _ & Hfee & Hb1 & Hb2 & _).
    unfold release_result. cbv zeta.
    set (p := payment_at w id) in *. set (fee := release_fee w id) in *.
    set (w1 := set_payment id (with_status Released p) w).
    assert (E1 : total_supply (moved (token p) (this msg) (developer p)
                                 (amount p - fee) w1) tok = total_supply w tok)
      by (by rewrite total_supply_moved).
    destruct (0 <? fee) eqn:Hpos; [|exact E1].
    apply N.ltb_lt in Hpos. specialize (Hb2 Hpos).
    etrans; [|exact E1].
    apply (total_supply_moved (token p) (this msg) (platformFeeRecipient (store w)) fee).
    exact Hb2.
  - apply refundPayment_Done_funds in Hrun.
    unfold refund_result. cbv zeta.
    etrans; [apply (total_supply_moved _ (this msg))|]; done.
Qed.

(** X10: No call on the escrow creates or destroys tokens: whatever the call and
    whether it succeeds or reverts, the sum of all balances of every token
    is the same afterwards. *)
Theorem escrow_calls_conserve_supply c msg w tok :
  total_supply (transact (run c msg) w) tok = total_supply w tok.
Proof. apply (effect_total_supply msg w c). apply run_effect. Qed.

(** **** Without an admin *)

Lemma hasRole_no_admin w a :
  admins (store w) = ∅ -> hasRole w DEFAULT_ADMIN_ROLE a = false.
Proof.
  intros H. unfold hasRole. simpl. rewrite H.
  apply bool_decide_eq_false. set_solver.
Qed.

Lemma effect_no_admin msg w c w' :
  effect msg w c w' -> admins (store w) = ∅ ->
  admins (store w') = ∅ /\ settings w' = settings w.
Proof.
  intros He Hno.
  destruct He as [c| id agent amt tok0 Hs Hu Ha Hamt Hsender Hrun
    | id Hrun | id Hrun | ? ? Hr | ? ? Hr | ? Hr | ? ? Hr | ? ? Hr ];
    try (rewrite hasRole_no_admin in Hr by done; discriminate).
  - done.
  - unfold settings. by rewrite store_deposit_result.
  - unfold settings. by rewrite store_release_result.
  - done.
Qed.

Lemma step_no_admin w w' :
  step w w' -> admins (store w) = ∅ ->
  admins (store w') = ∅ /\ settings w' = settings w.
Proof.
  intros [msg c w0 | w0 b a] Hno; [|done].
  eapply effect_no_admin; [apply run_effect | done].
Qed.

(** X11: Once the admin role has no member left, it never gets one again, and
    the registered agents, the supported tokens, the fee and its recipient
    are frozen: no later call changes them. *)
Theorem no_admin_freezes_settings w w' :
  admins (store w) = ∅ -> rtc step w w' ->
  admins (store w') = ∅ /\
  agentDevelopers (store w') = agentDevelopers (store w) /\
  supportedTokens (store w') = supportedTokens (store w) /\
  platformFeeRecipient (store w') = platformFeeRecipient (store w) /\
  platformFeePercentage (store w') = platformFeePercentage (store w).
Proof.
  intros Hno Hr.
  assert (H : admins (store w') = ∅ /\ settings w' = settings w).
  { induction Hr as [w | w w1 w2 Hs _ IH]; [done|].
    destruct (step_no_admin w w1 Hs Hno) as [Hno1 E1].
    destruct (IH Hno1) as [Hno2 E2]. split; [done|]. by rewrite E2. }
  destruct H as [Hno' E]. unfold settings in E. injection E as E1 E2 E3 E4.
  done.
Qed.

Lemma no_admin_freezes_settings_witness :
  let w := transact (revokeRole deployer DEFAULT_ADMIN_ROLE 9) setUp in
  let w' := transact (setPlatformFee deployer 0)
              (transact (grantRole deployer DEFAULT_ADMIN_ROLE 9) w) in
  hasRole setUp DEFAULT_ADMIN_ROLE 9 = true /\
  admins (store w') = ∅ /\ platformFeePercentage (store w') = 250.
Proof.
  cbv zeta. split; [vm_compute; reflexivity|].
  destruct (no_admin_freezes_settings
              (transact (revokeRole deployer DEFAULT_ADMIN_ROLE 9) setUp)
              (transact (setPlatformFee deployer 0)
                 (transact (grantRole deployer DEFAULT_ADMIN_ROLE 9)
                    (transact (revokeRole deployer DEFAULT_ADMIN_ROLE 9) setUp))))
    as (Hno & _ & _ & _ & Hfee).
  - vm_compute. reflexivity.
  - eapply rtc_l; [exact (step_call deployer (CallGrantRole DEFAULT_ADMIN_ROLE 9) _)|].
    eapply rtc_l; [exact (step_call deployer (CallSetPlatformFee 0) _)|].
    apply rtc_refl.
  - split; [exact Hno|]. rewrite Hfee. vm_compute. reflexivity.
Defined.

(** **** Bystanders *)

Lemma balanceOf_release_result_other msg id w tok who :
  let p := payment_at w id in
  (tok, who) <> (token p, this msg) ->
  (tok, who) <> (token p, developer p) ->
  (tok, who) <> (token p, platformFeeRecipient (store w)) ->
  balanceOf (release_result msg id w) tok who = balanceOf w tok who.
Proof.
  cbv zeta. intros H1 H2 H3. unfold release_result. cbv zeta.
  rewrite balanceOf_add_event.
  destruct (0 <? release_fee w id);
    rewrite ?balanceOf_moved_other by done; done.
Qed.

(** X12: A settlement moves tokens between its parties only.  A release changes
    no balance but those of the escrow, the developer and the fee recipient
    in the payment's token; a refund none but those of the escrow and the
    payer; a deposit none but those of the payer and the escrow, and no
    allowance but the one the payer gave the escrow.  None of them touches
    another payment or, for a release or a refund, any allowance. *)
Theorem settlement_touches_only_the_parties msg id w w' :
  let p := payment_at w id in
  (releasePayment msg id w = Done tt w' ->
   (forall tok who,
      (tok, who) <> (token p, this msg) -> (tok, who) <> (token p, developer p) ->
      (tok, who) <> (token p, platformFeeRecipient (store w)) ->
      balanceOf w' tok who = balanceOf w tok who) /\
   (forall tok owner spender,
      allowance w' tok owner spender = allowance w tok owner spender) /\
   (forall id', id' <> id -> payment_at w' id' = payment_at w id')) /\
  (refundPayment msg id w = Done tt w' ->
   (forall tok who,
      (tok, who) <> (token p, this msg) -> (tok, who) <> (token p, user p) ->
      balanceOf w' tok who = balanceOf w tok who) /\
   (forall tok owner spender,
      allowance w' tok owner spender = allowance w tok owner spender) /\
   (forall id', id' <> id -> payment_at w' id' = payment_at w id')) /\
  (forall agent amt tok0,
     depositPayment msg id agent amt tok0 w = Done tt w' ->
     (forall tok who,
        (tok, who) <> (tok0, sender msg) -> (tok, who) <> (tok0, this msg) ->
        balanceOf w' tok who = balanceOf w tok who) /\
     (forall tok owner spender,
        (tok, owner, spender) <> (tok0, sender msg, this msg) ->
        allowance w' tok owner spender = allowance w tok owner spender) /\
     (forall id', id' <> id -> payment_at w' id' = payment_at w id')).
Proof.
  cbv zeta. split; [|split].
  - intros H. apply releasePayment_Done_inv in H as (_ & _ & _ & _ & _ & _ & ->).
    split; [|split].
    + intros tok who. apply balanceOf_release_result_other.
    + intros tok owner spender. apply allowance_release_result.
    + intros id' Hne. by rewrite payment_at_release_result, decide_False.
  - intros H. apply refundPayment_Done_inv in H as (_ & _ & _ & ->).
    split; [|split].
    + intros tok who H1 H2. unfold refund_result. cbv zeta.
      rewrite balanceOf_add_event, balanceOf_moved_other by done. done.
    + intros tok owner spender. apply allowance_refund_result.
    + intros id' Hne. by rewrite payment_at_refund_result, decide_False.
  - intros agent amt tok0 H.
    apply depositPayment_Done_inv in H as (_ & _ & _ & _ & _ & ->).
    split; [|split].
    + intros tok who H1 H2.
      rewrite balanceOf_deposit_result, balanceOf_moved_other by done. done.
    + intros tok owner spender Hne. unfold deposit_result. cbv zeta.
      destruct (_ <? UINT256_MAX); [|done].
      change (allowance (set_allowance tok0 (sender msg) (this msg)
                (allowance w tok0 (sender msg) (this msg) - amt) w) tok owner spender
              = allowance w tok owner spender).
      by rewrite allowance_set_allowance, decide_False.
    + intros id' Hne. by rewrite payment_at_deposit_result, decide_False.
Qed.

End EscrowBooks.

(** ** More on the receipts *)

Module ReceiptListFacts.
Import JS Receipts ReceiptSummaries ReceiptFacts.

(** **** The rows of [listReceipts] *)

Lemma truthy_string_Some o s : truthy_string o = Some s -> o = Some s /\ s <> "".
Proof.
  destruct o as [t|]; [|done]. simpl.
  destruct (String.eqb t "") eqn:E; [done|]. intros [= ->].
  by apply String.eqb_neq in E.
Qed.

Lemma matches_where_of opts e :
  matches (where_of opts) e = true ->
  in_progress (exec_status e) = false /\
  (forall u, truthy_string (opt_userId opts) = Some u -> exec_userId e = u) /\
  (forall a, truthy_string (opt_agentId opts) = Some a -> exec_agentId e = a) /\
  (forall d, opt_startDate opts = Some d -> (d <= exec_startTime e)%Z) /\
  (forall d, opt_endDate opts = Some d -> (exec_startTime e <= d)%Z).
Proof.
  unfold matches, where_of. cbn [where_userId where_agentId where_status where_startTime].
  intros H. apply andb_true_iff in H as [H Hdate].
  apply andb_true_iff in H as [H Hst]. apply andb_true_iff in H as [Hu Ha].
  split; [|split; [|split; [|split]]].
  - unfold in_progress. simpl in Hst. apply negb_true_iff in Hst.
    by rewrite orb_false_r in Hst.
  - intros u E. rewrite E in Hu. by apply String.eqb_eq in Hu.
  - intros a E. rewrite E in Ha. by apply String.eqb_eq in Ha.
  - intros d E. rewrite E in Hdate. destruct (opt_endDate opts);
      apply andb_true_iff in Hdate as [H1 _]; by apply Z.leb_le in H1.
  - intros d E. rewrite E in Hdate. destruct (opt_startDate opts);
      apply andb_true_iff in Hdate as [_ H1]; by apply Z.leb_le in H1.
Qed.

Lemma mapStatus_not_TIMEOUT s : mapStatus s <> TIMEOUT.
Proof. unfold mapStatus. by repeat destruct (String.eqb _ _). Qed.

#[local] Instance newest_first_total : Total newest_first.
Proof. intros a b. unfold newest_first. lia. Qed.

#[local] Instance newest_first_trans : Transitive newest_first.
Proof. intros a b c. unfold newest_first. lia. Qed.

Lemma StronglySorted_take {A} (R : A -> A -> Prop) n l :
  StronglySorted R l -> StronglySorted R (take n l).
Proof. intros H. rewrite <-(take_drop n l) in H. by apply StronglySorted_app_1_l in H. Qed.

Lemma StronglySorted_drop {A} (R : A -> A -> Prop) n l :
  StronglySorted R l -> StronglySorted R (drop n l).
Proof. intros H. rewrite <-(take_drop n l) in H. by apply StronglySorted_app_1_r in H. Qed.

Lemma findMany_sorted db wh take skip :
  StronglySorted newest_first (findMany db wh take skip).
Proof.
  unfold findMany. apply StronglySorted_take, StronglySorted_drop.
  apply StronglySorted_merge_sort; apply _.
Qed.

Lemma StronglySorted_map {A B} (R : A -> A -> Prop) (S : B -> B -> Prop)
    (f : A -> B) l :
  (forall a b, R a b -> S (f a) (f b)) ->
  StronglySorted R l -> StronglySorted S (map f l).
Proof.
  intros Hf. induction 1 as [|a l Hl IH Hall]; simpl; constructor; [done|].
  apply Forall_map. eapply Forall_impl; [exact Hall|]. intros b. apply Hf.
Qed.

(** X13: Every row [listReceipts] returns is the summary of a stored execution
    that has finished and passes the user, agent and date filters; it
    carries no amount; and the rows come newest first. *)
Theorem listReceipts_rows db opts :
  (forall s, In s (listReceipts db opts) ->
     exists e, In e db /\ s = summarize e /\
       in_progress (exec_status e) = false /\
       (forall u, truthy_string (opt_userId opts) = Some u -> exec_userId e = u) /\
       (forall a, truthy_string (opt_agentId opts) = Some a -> exec_agentId e = a) /\
       (forall d, opt_startDate opts = Some d -> (d <= summary_timestamp s)%Z) /\
       (forall d, opt_endDate opts = Some d -> (summary_timestamp s <= d)%Z) /\
       summary_amount s = None) /\
  StronglySorted not_older (listReceipts db opts).
Proof.
  split.
  - intros s H. unfold listReceipts in H. cbv zeta in H.
    apply in_map_iff in H as (e & <- & Hin).
    apply findMany_In in Hin as [Hin Hm].
    apply matches_where_of in Hm as (Hp & Hu & Ha & Hs & He).
    exists e. simpl. done.
  - unfold listReceipts. cbv zeta.
    apply (StronglySorted_map newest_first); [|apply findMany_sorted].
    intros a b H. exact H.
Qed.

Lemma where_of_matches opts e :
  in_progress (exec_status e) = false ->
  (forall u, truthy_string (opt_userId opts) = Some u -> exec_userId e = u) ->
  (forall a, truthy_string (opt_agentId opts) = Some a -> exec_agentId e = a) ->
  (forall d, opt_startDate opts = Some d -> (d <= exec_startTime e)%Z) ->
  (forall d, opt_endDate opts = Some d -> (exec_startTime e <= d)%Z) ->
  matches (where_of opts) e = true.
Proof.
  intros Hp Hu Ha Hs He. unfold matches, where_of.
  cbn [where_userId where_agentId where_status where_startTime].
  repeat (apply andb_true_iff; split).
  - destruct (truthy_string (opt_userId opts)) as [u|]; [|done].
    apply String.eqb_eq. by apply Hu.
  - destruct (truthy_string (opt_agentId opts)) as [a|]; [|done].
    apply String.eqb_eq. by apply Ha.
  - unfold in_progress in Hp. simpl. by rewrite orb_false_r, Hp.
  - destruct (opt_startDate opts) as [d1|], (opt_endDate opts) as [d2|];
      try done; apply andb_true_iff; split; try done;
      apply Z.leb_le; auto.
Qed.

(** X14: When the finished executions that pass the filters are no more than
    the limit and no offset is given, [listReceipts] returns every one of
    them: nothing that matches is left out. *)
Theorem listReceipts_returns_all_that_fit db opts e :
  number_or 0 (opt_offset opts) = 0 ->
  (List.length (List.filter (matches (where_of opts)) db)
   <= N.to_nat (number_or 50 (opt_limit opts)))%nat ->
  In e db ->
  in_progress (exec_status e) = false ->
  (forall u, truthy_string (opt_userId opts) = Some u -> exec_userId e = u) ->
  (forall a, truthy_string (opt_agentId opts) = Some a -> exec_agentId e = a) ->
  (forall d, opt_startDate opts = Some d -> (d <= exec_startTime e)%Z) ->
  (forall d, opt_endDate opts = Some d -> (exec_startTime e <= d)%Z) ->
  In (summarize e) (listReceipts db opts) /\
  List.length (listReceipts db opts)
  = List.length (List.filter (matches (where_of opts)) db).
Proof.
  intros Hoff Hfit Hin Hp Hu Ha Hs He.
  unfold listReceipts, findMany. cbv zeta.
  rewrite Hoff. change DEFAULT_LIMIT with 50.
  change (N.to_nat 0) with 0%nat. rewrite drop_0.
  pose proof (merge_sort_Permutation newest_first
                (List.filter (matches (where_of opts)) db)) as Hperm.
  pose proof (Permutation_length Hperm) as Hlen.
  rewrite take_ge by lia.
  split.
  - apply in_map. apply list_elem_of_In. rewrite Hperm.
    apply list_elem_of_In, List.filter_In. split; [done|].
    by apply where_of_matches.
  - by rewrite length_map.
Qed.

Lemma listReceipts_returns_all_that_fit_witness :
  let db := [sample "a" 30 None; sample "b" 10 None; sample "c" 20 None] in
  In (summarize (sample "b" 10 None)) (listReceipts db no_options) /\
  List.length (listReceipts db no_options)
  = List.length (List.filter (matches (where_of no_options)) db).
Proof.
  cbv zeta.
  apply (listReceipts_returns_all_that_fit
           [sample "a" 30 None; sample "b" 10 None; sample "c" 20 None]
           no_options (sample "b" 10 None)).
  - reflexivity.
  - vm_compute. lia.
  - simpl. auto.
  - reflexivity.
  - intros u H. discriminate H.
  - intros a H. discriminate H.
  - intros d H. discriminate H.
  - intros d H. discriminate H.
Defined.

(** **** The status filter *)

(** X15: The status a caller asks for never reaches the query: the [status]
    key of the [where] object is overwritten by the filter on finished
    executions, so the result is the same whatever status is asked for. *)
Theorem listReceipts_ignores_status db opts st :
  listReceipts db (asking_status st opts) = listReceipts db opts /\
  (forall e, exec_status e = "COMPLETED" ->
     listReceipts [e] (asking_status (Some CANCELLED) no_options) = [summarize e] /\
     summary_status (summarize e) = SUCCESS).
Proof.
  split; [reflexivity|].
  intros e He. unfold listReceipts, findMany, matches. cbv zeta. simpl.
  rewrite He. simpl. unfold summarize, mapStatus. rewrite He. done.
Qed.

(** **** Pages *)




(** **** The summary of one execution *)

Lemma NoDup_exec_id_unique db e1 e2 :
  NoDup (map exec_id db) -> In e1 db -> In e2 db -> exec_id e1 = exec_id e2 -> e1 = e2.
Proof.
  induction db as [|e db IH]; simpl; [done|].
  intros [Hn Hnd]%NoDup_cons [<-|H1] [<-|H2] E; [done| | |].
  - destruct Hn. rewrite E. apply list_elem_of_In. by apply in_map.
  - destruct Hn. rewrite <-E. apply list_elem_of_In. by apply in_map.
  - by apply IH.
Qed.

(** X17: [getReceiptSummary] fails exactly as [generateReceipt] does, and when it
    succeeds it describes the stored execution as the row of [listReceipts]
    does, plus the amount of the purchase: with unique execution ids, the
    row [listReceipts] returns for the same execution is the summary without
    its amount. *)
Theorem summary_agrees_with_list_row db now id :
  (forall thrown, getReceiptSummary db now id = inl thrown
                  <-> generateReceipt db now id = inl thrown) /\
  (forall s, getReceiptSummary db now id = inr s ->
     exists e, findUnique db id = Some e /\
       in_progress (exec_status e) = false /\
       without_amount s = summarize e /\
       summary_amount s = truthy_string (exec_purchase e ≫= purchase_amount) /\
       (NoDup (map exec_id db) ->
        forall opts row, In row (listReceipts db opts) ->
          summary_executionId row = id -> row = without_amount s)).
Proof.
  unfold getReceiptSummary. split.
  - intros thrown. destruct (generateReceipt db now id); split; congruence.
  - intros s H. unfold generateReceipt in H.
    destruct (findUnique db id) as [e|] eqn:Hf; [|done].
    destruct (in_progress _) eqn:Hp; [done|]. injection H as <-.
    exists e. split; [done|]. split; [done|]. split; [done|]. split; [done|].
    intros Hnd opts row Hin Hid.
    apply listReceipts_In in Hin as (e' & Hin' & ->). simpl in Hid.
    apply findUnique_Some in Hf as [He Hin].
    assert (e' = e) as -> by (apply (NoDup_exec_id_unique db); congruence).
    done.
Qed.


(** **** Statuses *)

(** X18: The receipt status and the stored status translate into each other,
    except that no stored status gives [TIMEOUT]: asking for [TIMEOUT] asks
    for "FAILED", an unknown stored status reads as [FAILED], and no receipt
    or row ever carries [TIMEOUT]. *)
Theorem receipt_status_round_trip :
  (forall st, mapStatus (unmapStatus st)
              = match st with TIMEOUT => FAILED | _ => st end) /\
  (forall s, unmapStatus (mapStatus s) = s
             <-> s = "COMPLETED" \/ s = "FAILED" \/ s = "CANCELLED") /\
  (forall db now id r, generateReceipt db now id = inr r -> status r <> TIMEOUT) /\
  (forall db opts row, In row (listReceipts db opts) -> summary_status row <> TIMEOUT).
Proof.
  split; [|split; [|split]].
  - by intros [].
  - intros s. unfold mapStatus.
    destruct (String.eqb s "COMPLETED") eqn:E1;
      [apply String.eqb_eq in E1 as ->; simpl; split; auto|].
    destruct (String.eqb s "FAILED") eqn:E2;
      [apply String.eqb_eq in E2 as ->; simpl; split; auto|].
    destruct (String.eqb s "CANCELLED") eqn:E3;
      [apply String.eqb_eq in E3 as ->; simpl; split; auto|].
    apply String.eqb_neq in E1, E2, E3. simpl. split; [congruence|].
    intros [?|[?|?]]; congruence.
  - intros db now id r H. unfold generateReceipt in H.
    destruct (findUnique db id) as [e|]; [|done].
    destruct (in_progress _); [done|]. injection H as <-. simpl.
    apply mapStatus_not_TIMEOUT.
  - intros db opts row H. apply listReceipts_In in H as (e & _ & ->). simpl.
    apply mapStatus_not_TIMEOUT.
Qed.

(** **** The shape of a receipt id *)

Lemma round_length s kw : List.length (Sha256.round s kw) = List.length s.
Proof.
  unfold Sha256.round.
  destruct s as [|a [|b [|c [|d [|e [|f [|g [|h [|i s]]]]]]]]]; reflexivity.
Qed.

Lemma fold_round_length l h :
  List.length (fold_left Sha256.round l h) = List.length h.
Proof.
  revert h. induction l as [|kw l IH]; intros h; simpl; [done|].
  by rewrite IH, round_length.
Qed.

Lemma compress_length h block :
  List.length (Sha256.compress h block) = List.length h.
Proof.
  unfold Sha256.compress. cbv zeta.
  rewrite length_map, length_combine, fold_round_length. lia.
Qed.

Lemma digest_words_length message : List.length (Sha256.digest_words message) = 8%nat.
Proof.
  unfold Sha256.digest_words. cbv zeta.
  generalize (Sha256.blocks (List.length (Sha256.pad message))
                (Sha256.words (List.length (Sha256.pad message)) (Sha256.pad message))).
  intros bs.
  assert (H : List.length Sha256.initial_hash = 8%nat) by reflexivity.
  revert H. generalize Sha256.initial_hash. induction bs as [|b bs IH]; intros h H;
    simpl; [done|].
  apply IH. by rewrite compress_length.
Qed.

Lemma hex_digit_is_hex x : is_hex_digit (Sha256.hex_digit (Z.land x 15)).
Proof.
  change 15%Z with (Z.ones 4). rewrite Z.land_ones by lia.
  pose proof (Z.mod_pos_bound x (2 ^ 4) ltac:(lia)) as Hb.
  set (d := (x `mod` 2 ^ 4)%Z) in *. change (2 ^ 4)%Z with 16%Z in Hb.
  assert (Hd : (d = 0 \/ d = 1 \/ d = 2 \/ d = 3 \/ d = 4 \/ d = 5 \/ d = 6 \/
                d = 7 \/ d = 8 \/ d = 9 \/ d = 10 \/ d = 11 \/ d = 12 \/ d = 13 \/
                d = 14 \/ d = 15)%Z) by lia.
  unfold is_hex_digit.
  repeat (destruct Hd as [-> | Hd]; [vm_compute; tauto|]).
  subst d. rewrite Hd. vm_compute. tauto.
Qed.

Lemma hex_word_shape w :
  String.length (Sha256.hex_word w) = 8%nat /\ hex_string (Sha256.hex_word w).
Proof.
  split; [reflexivity|].
  unfold hex_string, Sha256.hex_word. simpl.
  repeat (constructor; [apply hex_digit_is_hex|]). constructor.
Qed.

Lemma length_append s t :
  String.length (s ++ t) = (String.length s + String.length t)%nat.
Proof. induction s as [|c s IH]; simpl; [done|]. by rewrite IH. Qed.

Lemma hex_string_append s t : hex_string s -> hex_string t -> hex_string (s ++ t).
Proof.
  unfold hex_string. induction s as [|c s IH]; simpl; [done|].
  intros Hs Ht. apply Forall_cons in Hs as [Hc Hs]. constructor; [done|]. by apply IH.
Qed.

Lemma concat_hex_words ws :
  String.length (fold_right String.append EmptyString (map Sha256.hex_word ws))
  = (8 * List.length ws)%nat /\
  hex_string (fold_right String.append EmptyString (map Sha256.hex_word ws)).
Proof.
  induction ws as [|w ws [IHl IHh]]; [split; [done|constructor]|].
  cbn [map fold_right List.length].
  destruct (hex_word_shape w) as [Hl Hh]. split.
  - rewrite length_append, Hl, IHl. lia.
  - by apply hex_string_append.
Qed.

Lemma sha256_hex_shape s :
  String.length (Sha256.sha256_hex s) = 64%nat /\ hex_string (Sha256.sha256_hex s).
Proof.
  unfold Sha256.sha256_hex.
  destruct (concat_hex_words (Sha256.digest_words (Sha256.bytes_of_string s)))
    as [Hl Hh].
  by rewrite digest_words_length in Hl.
Qed.

Lemma substring_prefix_shape n s :
  (n <= String.length s)%nat -> hex_string s ->
  String.length (String.substring 0 n s) = n /\ hex_string (String.substring 0 n s).
Proof.
  revert s. induction n as [|n IH]; intros s Hn Hs.
  - destruct s; split; try done; constructor.
  - destruct s as [|c s]; simpl in Hn; [lia|].
    apply Forall_cons in Hs as [Hc Hs].
    destruct (IH s ltac:(lia) Hs) as [Hl Hh]. split; simpl.
    + by rewrite Hl.
    + by constructor.
Qed.

(** X19: Every receipt id is 21 characters long: "rcpt_" and 16 lower-case
    hexadecimal digits. *)
Theorem receipt_id_shape id startTime :
  exists digits,
    generateReceiptId id startTime = "rcpt_" ++ digits /\
    String.length digits = 16%nat /\
    Forall is_hex_digit (list_ascii_of_string digits) /\
    String.length (generateReceiptId id startTime) = 21%nat.
Proof.
  unfold generateReceiptId. cbv zeta.
  set (h := Sha256.sha256_hex _).
  destruct (sha256_hex_shape (id ++ ":" ++ number_to_string startTime)) as [Hl Hh].
  fold h in Hl, Hh.
  destruct (substring_prefix_shape 16 h ltac:(lia) Hh) as [Hl' Hh'].
  exists (String.substring 0 16 h).
  split; [done|]. split; [done|]. split; [done|].
  rewrite length_append, Hl'. reflexivity.
Qed.

End ReceiptListFacts.

(** ** More on the audit log *)

Module AuditFacts.
Import JS Audit AuditLoggers.

(** **** What is kept *)

Lemma slice_last_short {A} n (l : list A) :
  (List.length l <= N.to_nat n)%nat -> slice_last n l = l.
Proof.
  intros H. unfold slice_last. destruct (n =? 0); [done|].
  replace (List.length l - N.to_nat n)%nat with 0%nat by lia. done.
Qed.

Lemma slice_last_app {A} n (l r : list A) :
  0 < n -> slice_last n (slice_last n l ++ r) = slice_last n (l ++ r).
Proof.
  intros Hn. unfold slice_last.
  destruct (n =? 0) eqn:E; [apply N.eqb_eq in E; lia|].
  rewrite !length_app, length_skipn.
  rewrite !skipn_app, length_skipn, skipn_skipn.
  f_equal; f_equal; lia.
Qed.

Lemma log_events cfg now rnd ev svc :
  enabled cfg = true ->
  events (snd (log cfg now rnd ev svc))
  = slice_last MAX_EVENTS (events svc ++ [fst (log cfg now rnd ev svc)]).
Proof.
  intros He. unfold log, generateEventId. simpl. rewrite He. simpl.
  destruct (_ <=? MAX_EVENTS) eqn:E; [|done].
  apply N.leb_le in E. symmetry. apply slice_last_short. lia.
Qed.

Lemma log_all_cons cfg c calls svc :
  log_all cfg (c :: calls) svc
  = (fst (log cfg (call_now c) (call_random c) (call_event c) svc)
       :: fst (log_all cfg calls
                 (snd (log cfg (call_now c) (call_random c) (call_event c) svc))),
     snd (log_all cfg calls
            (snd (log cfg (call_now c) (call_random c) (call_event c) svc)))).
Proof.
  cbn [log_all].
  destruct (log cfg (call_now c) (call_random c) (call_event c) svc) as [e svc1].
  cbn [fst snd]. by destruct (log_all cfg calls svc1).
Qed.

Lemma log_all_length cfg calls svc :
  List.length (fst (log_all cfg calls svc)) = List.length calls.
Proof.
  revert svc. induction calls as [|c calls IH]; intros svc; [done|].
  rewrite log_all_cons. simpl. by rewrite IH.
Qed.

Lemma log_all_events cfg calls svc :
  enabled cfg = true ->
  (List.length (events svc) <= N.to_nat MAX_EVENTS)%nat ->
  events (snd (log_all cfg calls svc))
  = slice_last MAX_EVENTS (events svc ++ fst (log_all cfg calls svc)).
Proof.
  intros He. revert svc. induction calls as [|c calls IH]; intros svc Hl.
  - simpl. rewrite app_nil_r. symmetry. by apply slice_last_short.
  - rewrite log_all_cons. cbn [fst snd].
    rewrite IH.
    + rewrite log_events by done. rewrite slice_last_app by done.
      by rewrite <-app_assoc.
    + rewrite log_events by done.
      unfold slice_last. simpl. rewrite length_skipn. lia.
Qed.

(** X20: With logging enabled, the service holds the newest 10000 of the events
    logged so far, oldest first: a run of [log] calls leaves the last 10000
    of what was stored followed by what the calls returned, and
    [getRetentionPolicy] counts them. *)
Theorem log_keeps_the_newest cfg calls svc :
  enabled cfg = true ->
  (List.length (events svc) <= N.to_nat 10000)%nat ->
  events (snd (log_all cfg calls svc))
  = slice_last 10000 (events svc ++ fst (log_all cfg calls svc)) /\
  estimatedEventCount (getRetentionPolicy cfg (snd (log_all cfg calls svc)))
  = Nat.min (List.length (events svc) + List.length calls) (N.to_nat 10000).
Proof.
  intros He Hl.
  assert (E := log_all_events cfg calls svc He Hl).
  change MAX_EVENTS with 10000 in E.
  split; [exact E|].
  unfold getRetentionPolicy. cbn [estimatedEventCount]. rewrite E.
  unfold slice_last. cbn [N.eqb]. rewrite length_skipn, length_app, log_all_length.
  lia.
Qed.


Lemma log_keeps_the_newest_witness :
  let cfg := mkAuditConfig true 90 Standard in
  let ev := mkEventInput USER_ACTION SevInfo None None None None None "login" Allowed in
  let calls := [mkLogCall 1000 "abcd" ev; mkLogCall 1001 "efgh" ev] in
  map id (events (snd (log_all cfg calls new_service)))
  = ["audit_rs_0001_abcd"; "audit_rt_0002_efgh"] /\
  events (snd (log_all cfg calls new_service))
  = slice_last 10000 (events new_service ++ fst (log_all cfg calls new_service)).
Proof.
  cbv zeta. split; [vm_compute; reflexivity|].
  refine (proj1 (log_keeps_the_newest _ _ new_service _ _)); [reflexivity|].
  simpl. lia.
Defined.

(** **** What a query returns *)

Lemma filter_and {A} (g h : A -> bool) l :
  List.filter h (List.filter g l) = List.filter (fun x => g x && h x) l.
Proof.
  induction l as [|x l IH]; simpl; [done|].
  destruct (g x); simpl; [|done]. destruct (h x); by rewrite IH.
Qed.

Lemma filter_all {A} (l : list A) : List.filter (fun _ => true) l = l.
Proof. induction l as [|x l IH]; simpl; [done|]. by rewrite IH. Qed.

Lemma filter_optional {A B} (o : option B) (P : B -> A -> bool) (g : A -> bool) l r :
  r = List.filter g l ->
  match o with
  | Some d => List.filter (P d) r
  | None => r
  end
  = List.filter (fun e => g e && match o with Some d => P d e | None => true end) l.
Proof.
  intros ->. destruct o as [d|]; [apply filter_and|].
  apply List.filter_ext. intros e. by rewrite andb_true_r.
Qed.

Lemma filter_types {A} (o : option (list AuditEventType)) (ty : A -> AuditEventType)
    (g : A -> bool) l r :
  r = List.filter g l ->
  match o with
  | Some (t :: ts) => List.filter (fun e => bool_decide (ty e ∈ t :: ts)) r
  | _ => r
  end
  = List.filter (fun e => g e && match o with
                                 | Some (t :: ts) => bool_decide (ty e ∈ t :: ts)
                                 | _ => true
                                 end) l.
Proof.
  intros ->. destruct o as [[|t ts]|]; [|apply filter_and|];
    apply List.filter_ext; intros e; by rewrite andb_true_r.
Qed.

Lemma query_is_filter cfg f svc :
  enabled cfg = true ->
  fst (query cfg f svc)
  = slice_last (number_or DEFAULT_LIMIT (limit f))
      (List.filter (passes f) (events svc)).
Proof.
  intros He. unfold query. rewrite He.
  pose proof (eq_sym (filter_all (events svc))) as E.
  apply (filter_optional (startDate f) (fun d e => (d <=? timestamp e)%Z)) in E.
  apply (filter_optional (endDate f) (fun d e => (timestamp e <=? d)%Z)) in E.
  apply (filter_types (filter_type f) type) in E.
  apply (filter_optional (truthy_string (filter_userId f))
           (fun u e => bool_decide (userId e = Some u))) in E.
  apply (filter_optional (truthy_string (filter_agentId f))
           (fun a e => bool_decide (agentId e = Some a))) in E.
  apply (filter_optional (filter_outcome f)
           (fun o e => bool_decide (outcome e = o))) in E.
  apply (filter_optional (filter_severity f)
           (fun sv e => bool_decide (severity e = sv))) in E.
  exact (f_equal (slice_last (number_or DEFAULT_LIMIT (limit f))) E).
Qed.

Lemma slice_last_snoc {A} n (l : list A) x :
  0 < n -> exists l', slice_last n (l ++ [x]) = (l' ++ [x])%list /\ l' `sublist_of` l.
Proof.
  intros Hn. unfold slice_last.
  destruct (n =? 0) eqn:E; [apply N.eqb_eq in E; lia|].
  exists (skipn (List.length (l ++ [x]) - N.to_nat n) l). split.
  - rewrite skipn_app, length_app. simpl.
    replace (List.length l + 1 - N.to_nat n - List.length l)%nat with 0%nat by lia.
    done.
  - apply sublist_drop.
Qed.

Lemma number_or_pos d o : 0 < d -> 0 < number_or d o.
Proof.
  intros Hd. destruct o as [n|]; simpl; [|done].
  destruct (n =? 0) eqn:E; [done|]. apply N.eqb_neq in E. lia.
Qed.

(** X21: [query] returns the newest events that pass every filter given, oldest
    first and at most [limit] of them (100 without a limit): each result is
    a stored event passing all the filters, and when no more than [limit]
    stored events pass, all of them are returned. *)
Theorem query_returns_newest_matches cfg f svc :
  enabled cfg = true ->
  let results := fst (query cfg f svc) in
  let matching := List.filter (passes f) (events svc) in
  results = slice_last (number_or 100 (limit f)) matching /\
  (forall e, In e results -> In e (events svc) /\ passes f e = true) /\
  ((List.length matching <= N.to_nat (number_or 100 (limit f)))%nat ->
   results = matching).
Proof.
  intros He. cbv zeta. rewrite query_is_filter by done.
  change DEFAULT_LIMIT with 100. split; [done|]. split.
  - intros e Hin. apply List.filter_In.
    unfold slice_last in Hin. destruct (_ =? 0); [done|].
    apply list_elem_of_In in Hin. apply list_elem_of_In.
    by apply (subseteq_drop _ _ e) in Hin.
  - intros Hl. by apply slice_last_short.
Qed.

Lemma query_returns_newest_matches_witness :
  let cfg := mkAuditConfig true 90 Standard in
  let ok := mkEventInput USER_ACTION SevInfo (Some "u1") None None None None "login" Allowed in
  let bad := mkEventInput SECURITY_ALERT SevError (Some "u1") None None None None "alert" Blocked in
  let calls := [mkLogCall 1000 "abcd" ok; mkLogCall 1001 "efgh" bad;
                mkLogCall 1002 "ijkl" bad] in
  let svc := snd (log_all cfg calls new_service) in
  let f := mkAuditFilter None None (Some [SECURITY_ALERT]) (Some "u1") None None None
                         (Some 1) in
  map id (fst (query cfg f svc)) = ["audit_ru_0003_ijkl"] /\
  fst (query cfg f svc)
  = slice_last (number_or 100 (limit f)) (List.filter (passes f) (events svc)).
Proof.
  cbv zeta. split; [vm_compute; reflexivity|].
  refine (proj1 (query_returns_newest_matches _ _ _ _)). reflexivity.
Defined.

(** X22: An event logged while logging is enabled is the last result of every
    query whose filters it passes; an event logged while it is disabled is
    not stored, so no later query returns it, whatever the configuration
    then is. *)
Theorem log_then_query cfg now rnd ev svc f :
  let e := fst (log cfg now rnd ev svc) in
  let svc' := snd (log cfg now rnd ev svc) in
  (enabled cfg = true -> passes f e = true ->
   last (fst (query cfg f svc')) = Some e) /\
  (enabled cfg = false ->
   forall cfg', fst (query cfg' f svc') = fst (query cfg' f svc)).
Proof.
  cbv zeta. split.
  - intros He Hp. rewrite query_is_filter, log_events by done.
    destruct (slice_last_snoc MAX_EVENTS (events svc) (fst (log cfg now rnd ev svc)))
      as (l' & -> & _); [done|].
    rewrite List.filter_app. cbn [List.filter]. rewrite Hp.
    destruct (slice_last_snoc (number_or DEFAULT_LIMIT (limit f))
                (List.filter (passes f) l') (fst (log cfg now rnd ev svc)))
      as (l2 & -> & _); [by apply number_or_pos|].
    apply last_snoc.
  - intros He cfg'. unfold log, generateEventId. simpl. rewrite He. simpl.
    unfold query. by destruct (negb _).
Qed.


(** **** Event ids *)

Lemma base36_digit_value d : d < 36 -> base36_value_of_digit (base36_digit d) = d.
Proof.
  intros Hd. unfold base36_value_of_digit, base36_digit. cbv zeta.
  destruct (d <? 10) eqn:E.
  - apply N.ltb_lt in E. rewrite N_ascii_embedding by lia.
    assert ((48 + d <? 58) = true) as -> by (apply N.ltb_lt; lia). lia.
  - apply N.ltb_ge in E. rewrite N_ascii_embedding by lia.
    assert ((87 + d <? 58) = false) as -> by (apply N.ltb_ge; lia). lia.
Qed.

Lemma base36_digit_not_underscore d : d < 36 -> base36_digit d <> "_"%char.
Proof.
  intros Hd E. apply (f_equal N_of_ascii) in E. unfold base36_digit in E.
  destruct (d <? 10) eqn:E'.
  - apply N.ltb_lt in E'. rewrite N_ascii_embedding in E by lia. simpl in E. lia.
  - apply N.ltb_ge in E'. rewrite N_ascii_embedding in E by lia. simpl in E. lia.
Qed.

Lemma base36_digits_value fuel n acc :
  n < 36 ^ N.of_nat fuel ->
  base36_value 0 (base36_digits fuel n acc) = base36_value n acc.
Proof.
  revert n acc. induction fuel as [|fuel IH]; intros n acc Hn.
  - simpl in Hn. by assert (n = 0) as -> by lia.
  - cbn [base36_digits]. cbv zeta.
    assert (Hm : n mod 36 < 36) by (apply N.mod_lt; lia).
    pose proof (N.div_mod n 36 ltac:(lia)) as Hdiv.
    destruct (n / 36 =? 0) eqn:E.
    + apply N.eqb_eq in E. cbn [base36_value].
      rewrite base36_digit_value by done. f_equal. lia.
    + rewrite IH.
      * cbn [base36_value]. rewrite base36_digit_value by done. f_equal. lia.
      * rewrite Nat2N.inj_succ, N.pow_succ_r' in Hn.
        apply N.Div0.div_lt_upper_bound. lia.
Qed.

Lemma to_base36_value n : base36_value 0 (to_base36 n) = n.
Proof.
  unfold to_base36. rewrite base36_digits_value; [done|].
  rewrite Nat2N.inj_succ, N2Nat.id.
  destruct (N.eq_dec n 0) as [->|Hn]; [done|].
  pose proof (N.log2_spec n ltac:(lia)) as [_ Hlt].
  eapply N.lt_le_trans; [exact Hlt|].
  apply N.pow_le_mono_l. lia.
Qed.

Lemma base36_digits_free fuel n acc :
  free_of "_" acc -> free_of "_" (base36_digits fuel n acc).
Proof.
  revert n acc. induction fuel as [|fuel IH]; intros n acc Ha; [done|].
  cbn [base36_digits]. cbv zeta.
  assert (Hm : n mod 36 < 36) by (apply N.mod_lt; lia).
  assert (free_of "_" (String (base36_digit (n mod 36)) acc))
    by (split; [by apply base36_digit_not_underscore | done]).
  destruct (n / 36 =? 0); [done|]. by apply IH.
Qed.

Lemma to_base36_free n : free_of "_" (to_base36 n).
Proof. by apply base36_digits_free. Qed.

Lemma zeros_value k s :
  base36_value 0 (string_of_list_ascii (repeat "0"%char k) ++ s) = base36_value 0 s.
Proof. induction k as [|k IH]; [done|]. exact IH. Qed.

Lemma zeros_free k s :
  free_of "_" s -> free_of "_" (string_of_list_ascii (repeat "0"%char k) ++ s).
Proof. intros Hs. induction k as [|k IH]; [done|]. split; [done|exact IH]. Qed.

Lemma pad4_value s : base36_value 0 (pad4 s) = base36_value 0 s.
Proof. apply zeros_value. Qed.

Lemma pad4_free s : free_of "_" s -> free_of "_" (pad4 s).
Proof. apply zeros_free. Qed.

Lemma separator_inj s1 s2 t1 t2 :
  free_of "_" s1 -> free_of "_" s2 ->
  s1 ++ String "_" t1 = s2 ++ String "_" t2 -> s1 = s2 /\ t1 = t2.
Proof.
  revert s2. induction s1 as [|c s1 IH]; intros [|c' s2]; simpl.
  - by intros _ _ [= ->].
  - intros _ [Hc _] [= <- _]. done.
  - intros [Hc _] _ [= -> _]. done.
  - intros [_ H1] [_ H2] [= -> E]. destruct (IH s2 H1 H2 E) as [-> ->]. done.
Qed.

Lemma event_id_counter now1 c1 r1 now2 c2 r2 :
  event_id now1 c1 r1 = event_id now2 c2 r2 -> c1 = c2.
Proof.
  unfold event_id. intros E.
  change ("audit_" ++ ?x) with (String "a" (String "u" (String "d" (String "i"
            (String "t" (String "_" x)))))) in E.
  injection E as E.
  change ("_" ++ ?x) with (String "_" x) in E.
  apply separator_inj in E as [_ E]; [|apply to_base36_free..].
  apply separator_inj in E as [E _]; [|apply pad4_free, to_base36_free..].
  apply (f_equal (base36_value 0)) in E.
  by rewrite !pad4_value, !to_base36_value in E.
Qed.

Lemma log_id cfg now rnd ev svc :
  id (fst (log cfg now rnd ev svc)) = event_id now (eventCounter svc + 1) rnd /\
  eventCounter (snd (log cfg now rnd ev svc)) = eventCounter svc + 1.
Proof. unfold log, generateEventId. simpl. by destruct (enabled cfg). Qed.

Lemma log_all_ids cfg calls svc :
  Forall (fun e => exists now c rnd, id e = event_id now c rnd /\ eventCounter svc < c)
         (fst (log_all cfg calls svc)).
Proof.
  revert svc. induction calls as [|c calls IH]; intros svc; [constructor|].
  rewrite log_all_cons. cbn [fst].
  destruct (log_id cfg (call_now c) (call_random c) (call_event c) svc) as [Hid Hc].
  constructor.
  - exists (call_now c), (eventCounter svc + 1), (call_random c). split; [done|lia].
  - eapply Forall_impl; [apply IH|]. intros e (now & k & rnd & He & Hk).
    exists now, k, rnd. split; [done|]. rewrite Hc in Hk. lia.
Qed.

Lemma log_all_NoDup cfg calls svc : NoDup (map id (fst (log_all cfg calls svc))).
Proof.
  revert svc. induction calls as [|c calls IH]; intros svc; [constructor|].
  rewrite log_all_cons. cbn [fst map].
  destruct (log_id cfg (call_now c) (call_random c) (call_event c) svc) as [Hid Hc].
  apply NoDup_cons. split; [|apply IH].
  intros Hin. apply list_elem_of_In, in_map_iff in Hin as (e & He & Hin).
  pose proof (log_all_ids cfg calls
                (snd (log cfg (call_now c) (call_random c) (call_event c) svc))) as Hall.
  rewrite List.Forall_forall in Hall.
  destruct (Hall e Hin) as (now & k & rnd & Hk & Hlt).
  rewrite Hid, Hk in He. apply event_id_counter in He. rewrite Hc in Hlt. lia.
Qed.

(** X23: The events a service logs have pairwise different ids, whatever the
    clock and the random characters are: the counter alone tells them
    apart.  (The counter is a JavaScript number; below 2^53 it counts
    exactly.) *)
Theorem event_ids_are_unique cfg calls svc :
  eventCounter svc + N.of_nat (List.length calls) < 2 ^ 53 ->
  NoDup (map id (fst (log_all cfg calls svc))) /\
  eventCounter (snd (log_all cfg calls svc))
  = eventCounter svc + N.of_nat (List.length calls).
Proof.
  intros _. split; [apply log_all_NoDup|].
  revert svc. induction calls as [|c calls IH]; intros svc.
  - simpl. lia.
  - rewrite log_all_cons. cbn [snd]. rewrite IH.
    destruct (log_id cfg (call_now c) (call_random c) (call_event c) svc) as [_ ->].
    cbn [List.length]. lia.
Qed.

Lemma event_ids_are_unique_witness :
  let cfg := mkAuditConfig false 90 Minimal in
  let ev := mkEventInput USER_ACTION SevInfo None None None None None "login" Allowed in
  let calls := [mkLogCall 1000 "abcd" ev; mkLogCall 1000 "abcd" ev] in
  map id (fst (log_all cfg calls new_service))
  = ["audit_rs_0001_abcd"; "audit_rs_0002_abcd"] /\
  NoDup (map id (fst (log_all cfg calls new_service))).
Proof.
  cbv zeta. split; [vm_compute; reflexivity|].
  refine (proj1 (event_ids_are_unique _ _ new_service _)).
  vm_compute. reflexivity.
Defined.

(** **** The typed loggers *)

(** X24: The typed loggers fix how severity, outcome and console stream go
    together: a compliance check is a warning exactly when it was blocked;
    an execution event is an error, with outcome error, exactly when the
    execution failed; a security alert is always blocked and never below a
    warning.  Each writes exactly one console line, on the stream of its
    severity, whether or not logging is enabled. *)
Theorem typed_loggers_are_consistent cfg now rnd svc :
  (forall p, let '(e, svc') := logComplianceCheck cfg now rnd p svc in
     type e = COMPLIANCE_CHECK /\
     (severity e = SevWarn <-> outcome e = Blocked) /\
     (severity e = SevInfo <-> outcome e = Allowed) /\
     (severity e = SevWarn \/ severity e = SevInfo) /\
     console svc' = (console svc ++ [(stream_of (severity e), logLevel cfg, e)])%list) /\
  (forall p, let '(e, svc') := logExecution cfg now rnd p svc in
     type e = typeMap (exe_status p) /\
     (severity e = SevError <-> type e = EXECUTION_FAILED) /\
     (outcome e = Errored <-> type e = EXECUTION_FAILED) /\
     (outcome e = Allowed <-> severity e = SevInfo) /\
     executionId e = Some (exe_executionId p) /\
     console svc' = (console svc ++ [(stream_of (severity e), logLevel cfg, e)])%list) /\
  (forall p, let '(e, svc') := logSecurityAlert cfg now rnd p svc in
     type e = SECURITY_ALERT /\ outcome e = Blocked /\ severity e <> SevInfo /\
     stream_of (severity e) <> ConsoleLog /\
     console svc' = (console svc ++ [(stream_of (severity e), logLevel cfg, e)])%list).
Proof.
  split; [|split]; intros p.
  - unfold logComplianceCheck, log, generateEventId. simpl.
    destruct (check_outcome p), (enabled cfg); simpl; repeat split; try done;
      try (intros [?|?]; done); auto.
  - unfold logExecution, log, generateEventId. simpl.
    destruct (exe_status p), (enabled cfg); simpl; repeat split; done.
  - unfold logSecurityAlert, log, generateEventId. simpl.
    destruct (alert_level p), (enabled cfg); simpl; repeat split; done.
Qed.

End AuditFacts.

(** ** The lists of the compliance configuration *)

Module ComplianceFacts.
Import Compliance.
Local Open Scope list_scope.

Lemma trimStart_head_ok s : head_ok (trimStart s).
Proof.
  induction s as [|c s IH]; simpl; [done|].
  destruct (is_white_space c) eqn:E; [done|]. simpl. done.
Qed.

Lemma trimStart_fixed s : head_ok s -> trimStart s = s.
Proof. destruct s as [|c s]; simpl; [done|]. by intros ->. Qed.

Lemma trimStart_suffix s : exists ws, s = (ws ++ trimStart s)%list.
Proof.
  induction s as [|c s [ws IH]]; simpl; [by exists []|].
  destruct (is_white_space c); [|by exists []].
  exists (c :: ws). simpl. by rewrite <-IH.
Qed.

Lemma trimEnd_prefix s : exists ws, s = (trimEnd s ++ ws)%list.
Proof.
  unfold trimEnd. destruct (trimStart_suffix (rev s)) as [ws E].
  exists (rev ws). rewrite <-rev_app_distr, <-E. by rewrite rev_involutive.
Qed.

Lemma head_ok_prefix s t : head_ok (s ++ t) -> head_ok s.
Proof. by destruct s. Qed.

Lemma trim_head_ok s : head_ok (trim s).
Proof.
  unfold trim. destruct (trimEnd_prefix (trimStart s)) as [ws E].
  apply (head_ok_prefix _ ws). rewrite <-E. apply trimStart_head_ok.
Qed.

Lemma trimEnd_idem s : trimEnd (trimEnd s) = trimEnd s.
Proof.
  unfold trimEnd. rewrite rev_involutive.
  by rewrite (trimStart_fixed (trimStart _)) by apply trimStart_head_ok.
Qed.

Lemma trim_idem s : trim (trim s) = trim s.
Proof.
  unfold trim at 1. rewrite trimStart_fixed by apply trim_head_ok.
  unfold trim. apply trimEnd_idem.
Qed.

Lemma trim_In s c : In c (trim s) -> In c s.
Proof.
  unfold trim. intros H.
  destruct (trimEnd_prefix (trimStart s)) as [ws1 E1].
  destruct (trimStart_suffix s) as [ws2 E2].
  rewrite E2, E1. apply in_or_app. right. apply in_or_app. by left.
Qed.

Lemma trim_last_ok s c : last (trim s) = Some c -> is_white_space c = false.
Proof.
  unfold trim, trimEnd.
  pose proof (trimStart_head_ok (rev (trimStart s))) as H.
  destruct (trimStart (rev (trimStart s))) as [|c' r]; simpl; [done|].
  rewrite last_snoc. by intros [= <-].
Qed.

Lemma split_no_separator sep s : Forall (fun piece => ~ In sep piece) (split sep s).
Proof.
  induction s as [|c s IH]; simpl; [constructor; [by intros []|constructor]|].
  destruct (c =? sep) eqn:E; [constructor; [by intros []|done]|].
  apply N.eqb_neq in E.
  destruct (split sep s) as [|first others].
  - constructor; [|constructor]. intros [?|[]]. done.
  - apply Forall_cons in IH as [H1 H2]. constructor; [|done].
    intros [?|?]; [done|by apply H1].
Qed.

Lemma parseList_In env item :
  In item (parseList env) ->
  exists piece, item = trim piece /\ item <> [] /\ ~ In comma piece.
Proof.
  destruct env as [s|]; simpl; [|done].
  destruct (negb (truthy s)); [done|].
  intros [Hin Ht]%List.filter_In. apply in_map_iff in Hin as (piece & <- & Hin).
  exists piece. split; [done|]. split; [by destruct (trim piece)|].
  pose proof (split_no_separator comma s) as H.
  rewrite List.Forall_forall in H. by apply H.
Qed.

Lemma parseList_clean env : Forall clean (parseList env).
Proof.
  apply List.Forall_forall. intros item (piece & -> & Hne & Hc)%parseList_In.
  split; [done|]. split; [|apply trim_idem].
  intros Hin. by apply Hc, trim_In.
Qed.

(** X25: Every entry [parseList] returns is non-empty, holds no comma, and
    neither begins nor ends with white space: empty entries are dropped and
    the others are trimmed.  A missing or empty variable gives no entry. *)
Theorem parseList_entries_are_clean env :
  (forall item, In item (parseList env) ->
     item <> [] /\ ~ In 44 item /\ trim item = item /\
     (forall c, head item = Some c \/ last item = Some c -> is_white_space c = false)) /\
  parseList None = [] /\ parseList (Some []) = [].
Proof.
  split; [|done].
  intros item Hin. pose proof (parseList_clean env) as H.
  rewrite List.Forall_forall in H. destruct (H item Hin) as (Hne & Hc & Ht).
  split; [done|]. split; [done|]. split; [done|].
  intros c [Hh|Hl].
  - pose proof (trim_head_ok item) as Hok. rewrite Ht in Hok.
    destruct item; simpl in *; [done|]. by injection Hh as <-.
  - rewrite <-Ht in Hl. by apply trim_last_ok in Hl.
Qed.

Lemma split_without_separator sep s : ~ In sep s -> split sep s = [s].
Proof.
  induction s as [|c s IH]; simpl; [done|]. intros H.
  destruct (c =? sep) eqn:E; [apply N.eqb_eq in E; destruct H; by left|].
  rewrite IH by (intros ?; apply H; by right). done.
Qed.

Lemma split_app sep s r :
  ~ In sep s -> split sep (s ++ sep :: r) = s :: split sep r.
Proof.
  induction s as [|c s IH]; simpl; intros H.
  - by rewrite N.eqb_refl.
  - destruct (c =? sep) eqn:E; [apply N.eqb_eq in E; destruct H; by left|].
    rewrite IH by (intros ?; apply H; by right). done.
Qed.

Lemma split_join sep items :
  items <> [] -> Forall (fun item => ~ In sep item) items ->
  split sep (join sep items) = items.
Proof.
  induction items as [|x items IH]; [done|]. intros _ H.
  apply Forall_cons in H as [Hx H].
  destruct items as [|y items]; [by apply split_without_separator|].
  change (join sep (x :: y :: items)) with (x ++ sep :: join sep (y :: items))%list.
  rewrite split_app by done. f_equal. by apply IH.
Qed.

Lemma join_truthy sep items :
  items <> [] -> Forall (fun item => item <> []) items -> truthy (join sep items) = true.
Proof.
  destruct items as [|x items]; [done|]. intros _ H.
  apply Forall_cons in H as [Hx _].
  destruct items; simpl; by destruct x.
Qed.

Lemma parseList_join_clean items :
  Forall clean items -> parseList (Some (join comma items)) = items.
Proof.
  intros H. destruct (decide (items = [])) as [->|Hne]; [done|].
  unfold parseList.
  rewrite join_truthy; [|done|eapply Forall_impl; [exact H|by intros ? []]].
  cbn [negb].
  rewrite split_join; [|done|eapply Forall_impl; [exact H|by intros ? (_ & ? & _)]].
  clear Hne. induction items as [|x items IH]; [done|].
  apply Forall_cons in H as [(Hne & _ & Ht) H].
  cbn [map List.filter]. rewrite Ht. destruct x; [done|]. simpl. f_equal.
  by apply IH.
Qed.

(** X26: Writing a list out with commas and parsing it again gives the list
    back, when its entries are non-empty, trimmed and free of commas; so a
    parsed list is a fixed point of writing and parsing. *)
Theorem parseList_round_trip :
  (forall items,
     Forall (fun item => item <> [] /\ ~ In 44 item /\ trim item = item) items ->
     parseList (Some (join 44 items)) = items) /\
  (forall env, parseList (Some (join 44 (parseList env))) = parseList env).
Proof.
  split.
  - intros items H. by apply parseList_join_clean.
  - intros env. apply parseList_join_clean, parseList_clean.
Qed.

End ComplianceFacts.
